(** * Universal multiplayer relay: session directory and message routing

    A shallow embedding of [universal-server.js] and of the client
    library [universal-multiplayer.js].  The server keeps two JavaScript
    objects used as maps, [gameRooms] (game id -> room id -> room) and
    [activePlayers] (socket id -> record), a block of counters
    [serverStats], and relies on the socket.io adapter for the broadcast
    groups.  Every handler runs to completion on the single-threaded
    event loop, so a handler is a function from the state before to what
    becomes of the run.

    Conventions of the embedding:
    - A JavaScript object used as a map is the [gmap string _] of its own
      properties.  A lookup [obj[k]] that finds no own property [k] goes
      on to [Object.prototype]; [inherited] tells the names found there.
      What is found is a function (or the prototype itself): it is
      truthy, and it has no property [players].
    - A handler ends in one of three ways, its [Outcome]: it returns
      ([Done], with the state after and the messages emitted), it throws
      an uncaught [TypeError] ([Throws]; the Node process ends, no state
      follows), or it goes on to use an object of the runtime as if it
      were a game category, or the text of [undefined] as a game or room
      id ([Beyond]).  Nothing is stated about a run from there on.
    - [joinGame], [stateUpdate], [gameEvent] and [disconnect] are the
      bodies of the handlers on a payload whose fields are present, where
      every lookup in [gameRooms] finds an own property or nothing;
      [joinGameHandler], [stateUpdateHandler], [gameEventHandler] and
      [disconnectHandler] are the handlers, which say when that is.
    - Identifiers on the wire (socket ids, game ids, room ids) are
      strings; an absent, [undefined] or [null] one is [None].  The
      JavaScript truthiness test on such a value is [truthy].  A socket
      id is the token socket.io draws for the connection, not a text of
      the client's choosing: it names no member of [Object.prototype] and
      is no array index ([token]).
    - Attribute values inside player data and state payloads are opaque
      to the server, which only copies them; they are the scalars [jsval].
    - All reads of [Date.now()] inside one handler run return the same
      value, the argument [now] of the handler.
    - socket.io is taken as documented: a socket joins the group named by
      its own id when it connects, [socket.join] adds a group,
      [io.to(r).emit] reaches every socket of the group [r],
      [socket.to(r).emit] reaches every socket of [r] but the socket
      itself, and a closing socket has left all its groups by the time
      its ['disconnect'] handler runs; [socket.disconnect(true)] runs
      that handler before it returns.
    - [Object.keys(activePlayers)] lists the keys in the order they were
      first set, which the state keeps as [arrival].  The keys of
      [gameRooms], of a category and of [players] are enumerated in the
      order [elements], [map_to_list] give them; no property below
      depends on that order. *)

From stdpp Require Import gmap strings list fin_maps.
From Stdlib Require Import ZArith Ascii.

Local Open Scope Z_scope.
Set Warnings "-clear-no-such-hyp".

(** ** Values and payloads *)

Inductive jsval : Type :=
  | JNum (n : Z)
  | JStr (s : string)
  | JBool (b : bool)
  | JNull.

#[global] Instance jsval_eq_dec : EqDecision jsval.
Proof. solve_decision. Defined.

(** An open attribute map: [playerData], [state], a stored snapshot. *)
Abbreviation Attrs := (gmap string jsval).

(** [!!v] of JavaScript for an optional string. *)
Definition truthy (v : option string) : bool :=
  match v with
  | Some s => negb (String.eqb s "")
  | None => false
  end.

(** Property key obtained from an optional string: [obj[null]] reads the
    property named "null". *)
Definition key_of (v : option string) : string := default "null" v.

(** ** Room id generation

    [Math.random().toString(36).substring(2, 8).toUpperCase()].  The
    argument [r] is the text that [Math.random().toString(36)] returned. *)

Definition js_substring (a b : nat) (s : string) : string :=
  String.substring (Nat.min a b) (Nat.max a b - Nat.min a b) s.

Definition upper_ascii (c : ascii) : ascii :=
  let n := nat_of_ascii c in
  if ((97 <=? n) && (n <=? 122))%nat then ascii_of_nat (n - 32) else c.

Fixpoint toUpperCase (s : string) : string :=
  match s with
  | EmptyString => EmptyString
  | String c s' => String (upper_ascii c) (toUpperCase s')
  end.

Definition generateRoomId (r : string) : string :=
  toUpperCase (js_substring 2 8 r).

(** Radix-36 rendering of the fraction [num / den] with [0 <= num < den],
    digit by digit until the remainder vanishes.  For a double whose
    base-36 expansion is this short, it is what [toString(36)] prints. *)

Definition digit36 (d : N) : ascii :=
  if (d <? 10)%N then ascii_of_N (48 + d) else ascii_of_N (87 + d).

Fixpoint frac36 (fuel : nat) (num den : N) : string :=
  match fuel with
  | O => EmptyString
  | S fuel' =>
      if (num =? 0)%N then EmptyString
      else String (digit36 (36 * num / den))
                  (frac36 fuel' ((36 * num) mod den) den)
  end.

Definition toString36 (num den : N) : string :=
  if (num =? 0)%N then "0" else "0." +:+ frac36 64 num den.

(** The uppercase base-36 alphabet. *)
Definition is_base36_upper (c : ascii) : bool :=
  let n := nat_of_ascii c in
  (((48 <=? n) && (n <=? 57)) || ((65 <=? n) && (n <=? 90)))%nat.

Definition is_base36_lower (c : ascii) : bool :=
  let n := nat_of_ascii c in
  (((48 <=? n) && (n <=? 57)) || ((97 <=? n) && (n <=? 122)))%nat.

Fixpoint string_forall (p : ascii -> bool) (s : string) : bool :=
  match s with
  | EmptyString => true
  | String c s' => p c && string_forall p s'
  end.

(** ** Names found on every object

    [gameRooms], a game category, [activePlayers], the [players] of a
    room and the [eventListeners] of the client are object literals.
    Reading [obj[k]] where [obj] has no own property [k] continues on
    [Object.prototype], and these are the names found there (ECMAScript,
    the properties of the Object prototype object and its additional
    properties for web compatibility).  Each holds a function, except
    [__proto__], which reads as [Object.prototype] itself. *)
Definition objectPrototypeNames : list string :=
  [ "constructor"; "hasOwnProperty"; "isPrototypeOf"; "propertyIsEnumerable";
    "toLocaleString"; "toString"; "valueOf"; "__proto__";
    "__defineGetter__"; "__defineSetter__";
    "__lookupGetter__"; "__lookupSetter__" ].

Definition inherited (k : string) : bool :=
  bool_decide (k ∈ objectPrototypeNames).

Definition is_digit (c : ascii) : bool :=
  let n := nat_of_ascii c in ((48 <=? n) && (n <=? 57))%nat.

(** The keys [Object.keys] lists ahead of the others, whatever the order
    of insertion, are the array indices; they are among the texts made
    of digits only. *)
Definition digits_only (k : string) : bool :=
  negb (String.eqb k "") && string_forall is_digit k.

(** What a socket id is taken to be. *)
Definition token (id : string) : bool :=
  negb (inherited id) && negb (digits_only id).

(** ** Data model *)

Module Player.
(** An entry of [activePlayers]. *)
Record t : Type := Build {
  id : string;
  roomId : option string;
  gameId : option string;
  joinedAt : Z;
  lastActivity : Z
}.

Definition setMembership (r g : string) (p : t) : t :=
  Build (id p) (Some r) (Some g) (joinedAt p) (lastActivity p).

Definition touch (now : Z) (p : t) : t :=
  Build (id p) (roomId p) (gameId p) (joinedAt p) now.
End Player.

Module Room.
(** An entry of [gameRooms[gameId]]. *)
Record t : Type := Build {
  roomId : string;
  gameId : string;
  players : gmap string Attrs;
  createdAt : Z;
  lastActivity : Z
}.

Definition setPlayers (ps : gmap string Attrs) (r : t) : t :=
  Build (roomId r) (gameId r) ps (createdAt r) (lastActivity r).

Definition touch (now : Z) (r : t) : t :=
  Build (roomId r) (gameId r) (players r) (createdAt r) now.
End Room.

Module Stats.
Record t : Type := Build {
  startTime : Z;
  connections : nat;
  messagesSent : nat;
  messagesReceived : nat;
  peakConcurrentPlayers : nat
}.

Definition received (st : t) : t :=
  Build (startTime st) (connections st) (messagesSent st)
        (S (messagesReceived st)) (peakConcurrentPlayers st).

Definition sent (n : nat) (st : t) : t :=
  Build (startTime st) (connections st) (n + messagesSent st)%nat
        (messagesReceived st) (peakConcurrentPlayers st).

Definition connected (count : nat) (st : t) : t :=
  Build (startTime st) (S (connections st)) (messagesSent st)
        (S (messagesReceived st))
        (if (peakConcurrentPlayers st <? count)%nat then count
         else peakConcurrentPlayers st).
End Stats.

(** Messages from the server to a client. *)
Inductive ServerMsg : Type :=
  | RoomJoined (roomId gameId playerId : string) (playerCount : nat)
  | PlayerJoined (id : string) (playerData : Attrs)
  | PlayerLeft (id : string) (timestamp : Z)
  | StateUpdateMsg (id : string) (state : Attrs) (timestamp : Z)
  | GameEventMsg (id : string) (eventType : string) (eventData : jsval)
                 (timestamp : Z)
  | RoomClosed (reason : string) (roomId : string).

(** One message handed to the transport for one connection. *)
Definition Delivery : Type := string * ServerMsg.

(** The server state.  [sids] is the socket.io adapter: for each live
    socket the set of broadcast groups it has joined.  Its domain is
    [io.sockets.sockets].  [arrival] is [Object.keys(activePlayers)]:
    the keys of [activePlayers] in the order they were first set. *)
Record State : Type := MkState {
  gameRooms : gmap string (gmap string Room.t);
  activePlayers : gmap string Player.t;
  serverStats : Stats.t;
  sids : gmap string (gset string);
  arrival : list string
}.

Definition setGameRooms (g : gmap string (gmap string Room.t)) (s : State) :=
  MkState g (activePlayers s) (serverStats s) (sids s) (arrival s).
Definition setActivePlayers (a : gmap string Player.t) (s : State) :=
  MkState (gameRooms s) a (serverStats s) (sids s) (arrival s).
Definition setStats (st : Stats.t) (s : State) :=
  MkState (gameRooms s) (activePlayers s) st (sids s) (arrival s).
Definition setSids (m : gmap string (gset string)) (s : State) :=
  MkState (gameRooms s) (activePlayers s) (serverStats s) m (arrival s).

(** [activePlayers[id] = record]: a new key goes to the end of the
    enumeration, a key already set keeps its place. *)
Definition setPlayer (id : string) (p : Player.t) (s : State) : State :=
  MkState (gameRooms s) (<[id := p]> (activePlayers s)) (serverStats s)
          (sids s)
          (match activePlayers s !! id with
           | Some _ => arrival s
           | None => arrival s ++ [id]
           end).

(** [delete activePlayers[id]]. *)
Definition removePlayer (id : string) (s : State) : State :=
  MkState (gameRooms s) (delete id (activePlayers s)) (serverStats s)
          (sids s) (filter (λ k, k ≠ id) (arrival s)).

Definition init (start : Z) : State :=
  MkState ∅ ∅ (Stats.Build start 0 0 0 0) ∅ [].

(** ** The adapter: broadcast groups *)

(** The sockets currently subscribed to group [r]. *)
Definition members (s : State) (r : string) : gset string :=
  dom (filter (λ kv : string * gset string, r ∈ kv.2) (sids s)).

(** [io.to(r).emit(m)]. *)
Definition emitAll (s : State) (r : string) (m : ServerMsg) : list Delivery :=
  (λ to, (to, m)) <$> elements (members s r).

(** [socket.to(r).emit(m)] on the socket [from]: everyone in the group
    but the socket itself. *)
Definition emitOthers (s : State) (from r : string) (m : ServerMsg)
  : list Delivery :=
  (λ to, (to, m)) <$> elements (members s r ∖ {[from]}).

(** [socket.join(r)]. *)
Definition socketJoin (id r : string) (s : State) : State :=
  setSids (alter (λ rs, rs ∪ {[r]}) id (sids s)) s.

(** What socket.io does to the adapter before it fires ['disconnect']:
    the socket leaves every group and is dropped from the socket table. *)
Definition leaveAll (id : string) (s : State) : State :=
  setSids (delete id (sids s)) s.

(** The room stored under [(g, r)], if any: [gameRooms[g] && gameRooms[g][r]]. *)
Definition lookupRoom (s : State) (g r : string) : option Room.t :=
  gameRooms s !! g ≫= λ cat, cat !! r.

Definition setRoom (g r : string) (room : Room.t) (s : State) : State :=
  setGameRooms
    (<[g := <[r := room]> (default ∅ (gameRooms s !! g))]> (gameRooms s)) s.

(** ** Handlers *)

(** [io.on('connection')]. *)
Definition connection (id : string) (now : Z) (s : State) : State :=
  let count := S (size (activePlayers s)) in
  setPlayer id (Player.Build id None None now now)
    (setStats (Stats.connected count (serverStats s))
       (setSids (<[id := {[id]}]> (sids s)) s)).

(** The snapshot stored at join time:
    [{id, joinedAt, lastActivity, ...playerData}]. *)
Definition joinSnapshot (id : string) (now : Z) (playerData : Attrs) : Attrs :=
  playerData ∪
  <["id" := JStr id]> (<["joinedAt" := JNum now]>
                       (<["lastActivity" := JNum now]> ∅)).

(** The loop that sends the existing players to the new one. *)
Definition backfill (id : string) (ps : gmap string Attrs) : list Delivery :=
  (λ kv : string * Attrs, (id, PlayerJoined kv.1 kv.2))
    <$> filter (λ kv : string * Attrs, kv.1 ≠ id) (map_to_list ps).

(** The room id a join lands in: the supplied one, or a generated one
    when [!roomId]. *)
Definition chooseRoomId (roomId : option string) (rnd : string) : string :=
  if truthy roomId then default "" roomId else generateRoomId rnd.

(** The room [(g, t)] after the category and the room have been created
    where missing. *)
Definition openRoom (s : State) (g t : string) (now : Z) : Room.t :=
  default (Room.Build t g ∅ now now) (default ∅ (gameRooms s !! g) !! t).

(** The body of [socket.on('joinGame')] on a payload that names its
    game, where the lookups of lines 112 and 118 find an own property or
    nothing.  [rnd] is the text of [Math.random().toString(36)], read
    only when no room id is supplied.  [None]: line 138 throws, the
    socket has no record. *)
Definition joinGame (id gameId : string) (roomId : option string)
    (playerData : Attrs) (rnd : string) (now : Z) (s : State)
  : option (State * list Delivery) :=
  let targetRoomId := chooseRoomId roomId rnd in
  let room := openRoom s gameId targetRoomId now in
  let ps := <[id := joinSnapshot id now playerData]> (Room.players room) in
  let s1 := setStats (Stats.received (serverStats s)) s in
  let s2 := setRoom gameId targetRoomId (Room.setPlayers ps room) s1 in
  match activePlayers s2 !! id with
  | None => None
  | Some p =>
      let s3 :=
        setActivePlayers
          (<[id := Player.setMembership targetRoomId gameId p]>
             (activePlayers s2)) s2 in
      let s4 := socketJoin id targetRoomId s3 in
      let out :=
        [(id, RoomJoined targetRoomId gameId id (size ps))]
        ++ emitOthers s4 id targetRoomId (PlayerJoined id playerData)
        ++ backfill id ps in
      let sent := (2 + length (backfill id ps))%nat in
      Some (setStats (Stats.sent sent (serverStats s4)) s4, out)
  end.

(** The merge of an update into a stored snapshot:
    [{...snapshot, ...state, lastActivity: Date.now()}]. *)
Definition mergeState (now : Z) (state snapshot : Attrs) : Attrs :=
  <["lastActivity" := JNum now]> (state ∪ snapshot).

(** The guarded part of the stateUpdate handler that writes to
    [gameRooms] (lines 186 to 197), where the lookup of line 186 finds a
    room of the directory or nothing. *)
Definition recordState (id : string) (g : string) (roomId : string)
    (state : Attrs) (now : Z) (s : State) : State :=
  match lookupRoom s g roomId with
  | Some room =>
      let room1 := Room.touch now room in
      let room2 :=
        match Room.players room1 !! id with
        | Some snapshot =>
            Room.setPlayers
              (<[id := mergeState now state snapshot]> (Room.players room1))
              room1
        | None => room1
        end in
      setRoom g roomId room2 s
  | None => s
  end.

(** The body of [socket.on('stateUpdate')] on a payload [{roomId, state}],
    where the lookup of line 186 finds a room of the directory or
    nothing. *)
Definition stateUpdate (id roomId : string) (state : Attrs) (now : Z)
    (s : State) : State * list Delivery :=
  let s1 := setStats (Stats.received (serverStats s)) s in
  match activePlayers s1 !! id with
  | None => (s1, [])
  | Some player =>
      if negb (truthy (Player.roomId player)) then (s1, [])
      else
        let s2 :=
          setActivePlayers
            (<[id := Player.touch now player]> (activePlayers s1)) s1 in
        let s3 :=
          recordState id (key_of (Player.gameId player)) roomId state now s2 in
        let s4 := setStats (Stats.sent 1 (serverStats s3)) s3 in
        (s4, emitOthers s4 id roomId (StateUpdateMsg id state now))
  end.

(** The body of [socket.on('gameEvent')] on a payload
    [{roomId, eventType, eventData}]. *)
Definition gameEvent (id roomId eventType : string) (eventData : jsval)
    (now : Z) (s : State) : State * list Delivery :=
  let s1 := setStats (Stats.received (serverStats s)) s in
  match activePlayers s1 !! id with
  | None => (s1, [])
  | Some player =>
      if negb (truthy (Player.roomId player)) then (s1, [])
      else
        let s2 :=
          setActivePlayers
            (<[id := Player.touch now player]> (activePlayers s1)) s1 in
        let s3 := setStats (Stats.sent 1 (serverStats s2)) s2 in
        (s3, emitAll s3 roomId (GameEventMsg id eventType eventData now))
  end.

(** The body of the ['disconnect'] handler up to the last statement: the
    cascade over the room and the category of the recorded membership,
    where the lookup of line 248 finds a room of the directory or
    nothing. *)
Definition leaveRoom (id : string) (now : Z) (s : State)
  : State * list Delivery :=
  match activePlayers s !! id with
  | Some player =>
      if truthy (Player.roomId player) && truthy (Player.gameId player) then
        let r := default "" (Player.roomId player) in
        let g := default "" (Player.gameId player) in
        match lookupRoom s g r with
        | Some room =>
            let ps := delete id (Room.players room) in
            let out := emitOthers s id r (PlayerLeft id now) in
            let s1 := setStats (Stats.sent 1 (serverStats s)) s in
            let cat := default ∅ (gameRooms s1 !! g) in
            if decide (ps = ∅) then
              let cat' := delete r cat in
              if decide (cat' = ∅) then
                (setGameRooms (delete g (gameRooms s1)) s1, out)
              else (setGameRooms (<[g := cat']> (gameRooms s1)) s1, out)
            else (setRoom g r (Room.setPlayers ps room) s1, out)
        | None => (s, [])
        end
      else (s, [])
  | None => (s, [])
  end.

(** [socket.on('disconnect')], fired by socket.io after [leaveAll]. *)
Definition onDisconnect (id : string) (now : Z) (s : State)
  : State * list Delivery :=
  let s1 := setStats (Stats.received (serverStats s)) s in
  let '(s2, out) := leaveRoom id now s1 in
  (removePlayer id s2, out).

(** A transport close, or [socket.disconnect(true)]: the adapter clean-up
    followed by the body of the handler. *)
Definition disconnect (id : string) (now : Z) (s : State)
  : State * list Delivery :=
  onDisconnect id now (leaveAll id s).

(** ** The handlers *)

(** Payloads of the client messages.  A message arrives with a payload
    object or without one ([None] where a handler takes it); a field of
    the payload that is absent, [undefined] or [null] is [None]. *)
Module JoinData.
Record t : Type := Build {
  gameId : option string;
  roomId : option string;
  playerData : Attrs
}.
End JoinData.

Module UpdateData.
Record t : Type := Build {
  roomId : option string;
  state : Attrs
}.
End UpdateData.

Module EventData.
Record t : Type := Build {
  roomId : option string;
  eventType : string;
  eventData : jsval
}.
End EventData.

(** How a handler ends. *)
Inductive Outcome : Type :=
  | Done (s : State) (out : list Delivery)
  | Throws
  | Beyond.

Definition completes (res : State * list Delivery) : Outcome :=
  Done res.1 res.2.

Definition toOption (o : Outcome) : option (State * list Delivery) :=
  match o with
  | Done s out => Some (s, out)
  | _ => None
  end.

(** What the test [gameRooms[g] && gameRooms[g][r]] comes upon. *)
Inductive Found : Type :=
  | FoundRoom (room : Room.t)
  | FoundNothing
  (** [gameRooms[g]] is a category without a room [r], and [r] names a
      member of [Object.prototype] *)
  | FoundMember
  (** [gameRooms] has no category [g], and [g] names a member of
      [Object.prototype], in which [r] is looked up next *)
  | FoundInMember.

Definition find (s : State) (g r : string) : Found :=
  match gameRooms s !! g with
  | Some cat =>
      match cat !! r with
      | Some room => FoundRoom room
      | None => if inherited r then FoundMember else FoundNothing
      end
  | None => if inherited g then FoundInMember else FoundNothing
  end.

(** The same for the room of a join, after lines 112 to 115 have made
    the category where [gameRooms[g]] was falsy. *)
Definition findForJoin (s : State) (g t : string) : Found :=
  match gameRooms s !! g with
  | Some _ => find s g t
  | None =>
      if inherited g then FoundInMember
      else if inherited t then FoundMember else FoundNothing
  end.

(** The lookup leaves the directory for an object of the runtime. *)
Definition strays (f : Found) : bool :=
  match f with
  | FoundMember | FoundInMember => true
  | _ => false
  end.

(** The connection has a recorded room: the guard of the relay handlers. *)
Definition hasRoom (s : State) (id : string) : bool :=
  match activePlayers s !! id with
  | Some p => truthy (Player.roomId p)
  | None => false
  end.

(** The state after [serverStats.messagesReceived++] alone. *)
Definition received (s : State) : State :=
  setStats (Stats.received (serverStats s)) s.

(** [socket.on('joinGame')].  Line 95 throws on a message without
    payload.  Where line 118 finds a member of [Object.prototype] no room
    is made, and line 130 throws on the [players] that the member does
    not have. *)
Definition joinGameHandler (id : string) (data : option JoinData.t)
    (rnd : string) (now : Z) (s : State) : Outcome :=
  match data with
  | None => Throws
  | Some d =>
      match JoinData.gameId d with
      | None => Beyond
      | Some g =>
          match findForJoin s g (chooseRoomId (JoinData.roomId d) rnd) with
          | FoundInMember => Beyond
          | FoundMember => Throws
          | _ =>
              match joinGame id g (JoinData.roomId d) (JoinData.playerData d)
                             rnd now s with
              | Some res => completes res
              | None => Throws
              end
          end
      end
  end.

(** [socket.on('stateUpdate')].  Line 178 throws on a message without
    payload, before the guard of line 181.  Where line 186 finds a member
    of [Object.prototype], line 187 stamps it and line 190 throws on the
    [players] that it does not have, before the broadcast. *)
Definition stateUpdateHandler (id : string) (data : option UpdateData.t)
    (now : Z) (s : State) : Outcome :=
  match data with
  | None => Throws
  | Some d =>
      match activePlayers s !! id with
      | Some p =>
          if truthy (Player.roomId p) then
            match UpdateData.roomId d with
            | None => Beyond
            | Some r =>
                match find s (key_of (Player.gameId p)) r with
                | FoundInMember => Beyond
                | FoundMember => Throws
                | _ => completes (stateUpdate id r (UpdateData.state d) now s)
                end
            end
          else Done (received s) []
      | None => Done (received s) []
      end
  end.

(** [socket.on('gameEvent')].  Line 212 throws on a message without
    payload, before the guard of line 215. *)
Definition gameEventHandler (id : string) (data : option EventData.t)
    (now : Z) (s : State) : Outcome :=
  match data with
  | None => Throws
  | Some d =>
      if hasRoom s id then
        match EventData.roomId d with
        | None => Beyond
        | Some r =>
            completes (gameEvent id r (EventData.eventType d)
                                 (EventData.eventData d) now s)
        end
      else Done (received s) []
  end.

(** A transport close, or [socket.disconnect(true)]: the adapter
    clean-up followed by [socket.on('disconnect')].  Where line 248 finds
    a member of [Object.prototype], line 250 throws on the [players] that
    it does not have. *)
Definition disconnectHandler (id : string) (now : Z) (s : State) : Outcome :=
  match activePlayers s !! id with
  | Some p =>
      if truthy (Player.roomId p) && truthy (Player.gameId p) then
        match find s (default "" (Player.gameId p))
                     (default "" (Player.roomId p)) with
        | FoundInMember => Beyond
        | FoundMember => Throws
        | _ => completes (disconnect id now s)
        end
      else completes (disconnect id now s)
  | None => completes (disconnect id now s)
  end.

(** ** The periodic clean-up *)

Definition CLEANUP_INTERVAL : Z := 15 * 60 * 1000.
Definition INACTIVITY_TIMEOUT : Z := 30 * 60 * 1000.

(** One iteration of the loop over [Object.keys(activePlayers)]; line
    317 throws where the key has no record any more. *)
Definition sweepPlayer (now : Z) (acc : Outcome) (id : string) : Outcome :=
  match acc with
  | Done s out =>
      match activePlayers s !! id with
      | Some p =>
          if decide (now - Player.lastActivity p > INACTIVITY_TIMEOUT) then
            if decide (id ∈ dom (sids s)) then
              match disconnectHandler id now s with
              | Done s' o => Done s' (out ++ o)
              | other => other
              end
            else Done (removePlayer id s) out
          else acc
      | None => Throws
      end
  | _ => acc
  end.

(** The loop over [Object.keys(activePlayers)], lines 316 to 328. *)
Definition sweepPlayers (now : Z) (s : State) : Outcome :=
  foldl (sweepPlayer now) (Done s []) (arrival s).

(** The same, for the run that goes on to the room sweep: [None] where
    the loop does not return. *)
Definition playerSweep (now : Z) (s : State) : option (State * list Delivery) :=
  toOption (sweepPlayers now s).

(** [now - room.lastActivity > INACTIVITY_TIMEOUT]. *)
Definition idleRoom (now : Z) (room : Room.t) : Prop :=
  now - Room.lastActivity room > INACTIVITY_TIMEOUT.

#[global] Instance idleRoom_dec now room : Decision (idleRoom now room).
Proof. unfold idleRoom. apply _. Defined.

(** One iteration of the loop over [Object.keys(gameRooms[gameId])]. *)
Definition sweepRoom (now : Z) (g : string)
    (acc : option (State * list Delivery)) (r : string)
  : option (State * list Delivery) :=
  '(s, out) ← acc;
  room ← lookupRoom s g r;
  if decide (idleRoom now room) then
    let s1 := setStats (Stats.sent 1 (serverStats s)) s in
    let cat := default ∅ (gameRooms s1 !! g) in
    Some (setGameRooms (<[g := delete r cat]> (gameRooms s1)) s1,
          out ++ emitAll s1 r (RoomClosed "inactivity" r))
  else Some (s, out).

(** One iteration of the loop over [Object.keys(gameRooms)]. *)
Definition sweepCategory (now : Z) (acc : option (State * list Delivery))
    (g : string) : option (State * list Delivery) :=
  '(s, out) ← acc;
  cat ← gameRooms s !! g;
  '(s1, out1) ← foldl (sweepRoom now g) (Some (s, out)) (elements (dom cat));
  cat1 ← gameRooms s1 !! g;
  if decide (cat1 = (∅ : gmap string Room.t)) then
    Some (setGameRooms (delete g (gameRooms s1)) s1, out1)
  else Some (s1, out1).

Definition roomSweep (now : Z) (s : State) : option (State * list Delivery) :=
  foldl (sweepCategory now) (Some (s, [])) (elements (dom (gameRooms s))).

(** The callback of [setInterval], where it returns. *)
Definition cleanup (now : Z) (s : State) : option (State * list Delivery) :=
  '(s1, out1) ← playerSweep now s;
  '(s2, out2) ← roomSweep now s1;
  Some (s2, out1 ++ out2).

(** The callback of [setInterval]. *)
Definition cleanupHandler (now : Z) (s : State) : Outcome :=
  match sweepPlayers now s with
  | Done s1 out1 =>
      match roomSweep now s1 with
      | Some (s2, out2) => Done s2 (out1 ++ out2)
      | None => Throws
      end
  | other => other
  end.

(** ** Runs of the server *)

Inductive Input : Type :=
  | InConnection (id : string)
  | InJoinGame (id : string) (data : option JoinData.t) (rnd : string)
  | InStateUpdate (id : string) (data : option UpdateData.t)
  | InGameEvent (id : string) (data : option EventData.t)
  | InDisconnect (id : string)
  | InCleanup.

Definition handle (i : Input) (now : Z) (s : State) : Outcome :=
  match i with
  | InConnection id => Done (connection id now s) []
  | InJoinGame id data rnd => joinGameHandler id data rnd now s
  | InStateUpdate id data => stateUpdateHandler id data now s
  | InGameEvent id data => gameEventHandler id data now s
  | InDisconnect id => disconnectHandler id now s
  | InCleanup => cleanupHandler now s
  end.

(** The identity [id] is a token that names no live socket and no
    tracked player: socket.io draws a new identity for every connection. *)
Definition unused (s : State) (id : string) : Prop :=
  token id = true ∧
  sids s !! id = None ∧
  map_Forall (λ _ cat,
    map_Forall (λ _ room, Room.players room !! id = None) cat) (gameRooms s).

#[global] Instance unused_dec s id : Decision (unused s id).
Proof. unfold unused. apply _. Defined.

Definition live (s : State) (id : string) : Prop := is_Some (sids s !! id).

#[global] Instance live_dec s id : Decision (live s id).
Proof. unfold live. apply _. Defined.

(** When the event loop can be handed an input: a connection arrives
    with a new identity, and only a live socket delivers messages or
    closes. *)
Definition enabled (i : Input) (s : State) : Prop :=
  match i with
  | InConnection id => unused s id
  | InJoinGame id _ _ | InStateUpdate id _ | InGameEvent id _
  | InDisconnect id => live s id
  | InCleanup => True
  end.

#[global] Instance enabled_dec i s : Decision (enabled i s).
Proof. destruct i; simpl; apply _. Defined.

(** The states of the runs in which every handler has returned. *)
Inductive reachable : State → Prop :=
  | reachable_init start : reachable (init start)
  | reachable_step s i now s' out :
      reachable s → enabled i s → handle i now s = Done s' out →
      reachable s'.

(** Running a script of timed inputs. *)
Fixpoint run (script : list (Input * Z)) (s : State) : option State :=
  match script with
  | [] => Some s
  | (i, now) :: rest =>
      if decide (enabled i s) then
        match handle i now s with
        | Done s' _ => run rest s'
        | _ => None
        end
      else None
  end.

(** ** Invariants of the directory *)

(** Every room tracks at least one player. *)
Definition roomsNonEmpty (s : State) : Prop :=
  ∀ g r room, lookupRoom s g r = Some room → Room.players room ≠ ∅.

(** Every game category holds at least one room. *)
Definition categoriesNonEmpty (s : State) : Prop :=
  ∀ g cat, gameRooms s !! g = Some cat → cat ≠ ∅.

(** [arrival] lists the keys of [activePlayers], each once. *)
Definition Ordered (s : State) : Prop :=
  NoDup (arrival s) ∧
  ∀ id, id ∈ arrival s ↔ is_Some (activePlayers s !! id).

(** No key of the directory and no recorded membership names a member of
    [Object.prototype]. *)
Record Plain (s : State) : Prop := MkPlain {
  plain_game : ∀ g cat, gameRooms s !! g = Some cat → inherited g = false;
  plain_room : ∀ g r room,
    lookupRoom s g r = Some room → inherited r = false;
  plain_record : ∀ id p,
    activePlayers s !! id = Some p →
    inherited (default "" (Player.gameId p)) = false ∧
    inherited (default "" (Player.roomId p)) = false ∧
    inherited (key_of (Player.gameId p)) = false
}.

Record Inv (s : State) : Prop := MkInv {
  (** the records of [activePlayers] are those of the live sockets *)
  inv_live : ∀ id, is_Some (activePlayers s !! id) ↔ live s id;
  (** a socket is subscribed to the group of its recorded room *)
  inv_own : ∀ id p r,
    activePlayers s !! id = Some p → Player.roomId p = Some r →
    id ∈ members s r;
  (** a live socket tracked by a room is subscribed to its group *)
  inv_subs : ∀ g r room id,
    lookupRoom s g r = Some room → is_Some (Room.players room !! id) →
    live s id → id ∈ members s r;
  inv_rooms : roomsNonEmpty s;
  inv_cats : categoriesNonEmpty s
}.

(** What holds of every state of a run. *)
Definition Sound (s : State) : Prop := Inv s ∧ Ordered s ∧ Plain s.

(** The connection [id] holds the membership [(g, r)] and the room is
    in the directory: the guards of the ['disconnect'] handler. *)
Definition held (s : State) (id g r : string) (room : Room.t) : Prop :=
  ∃ p, activePlayers s !! id = Some p ∧
       Player.roomId p = Some r ∧ r ≠ "" ∧
       Player.gameId p = Some g ∧ g ≠ "" ∧
       lookupRoom s g r = Some room.

(** The directory once [id] has left the room [room] stored under
    [(g, r)] in the category [cat]. *)
Definition directoryAfterLeave (id g r : string) (cat : gmap string Room.t)
    (room : Room.t) (dir : gmap string (gmap string Room.t))
  : gmap string (gmap string Room.t) :=
  let ps := delete id (Room.players room) in
  if decide (ps = ∅) then
    if decide (delete r cat = ∅) then delete g dir else <[g := delete r cat]> dir
  else <[g := <[r := Room.setPlayers ps room]> cat]> dir.

(** ** Idle players *)

Definition idlePlayer (now : Z) (s : State) (id : string) : Prop :=
  match activePlayers s !! id with
  | Some p => now - Player.lastActivity p > INACTIVITY_TIMEOUT
  | None => False
  end.

#[global] Instance idlePlayer_dec now s id : Decision (idlePlayer now s id).
Proof. unfold idlePlayer. destruct (activePlayers s !! id); apply _. Defined.

(** Closing one connection through the disconnect cascade, with the
    messages sent so far. *)
Definition closeConnection (now : Z) (acc : State * list Delivery)
    (id : string) : State * list Delivery :=
  ((disconnect id now acc.1).1, acc.2 ++ (disconnect id now acc.1).2).

(** The same through the handler, which may not return. *)
Definition closeIdle (now : Z) (acc : Outcome) (id : string) : Outcome :=
  match acc with
  | Done s out =>
      match disconnectHandler id now s with
      | Done s' o => Done s' (out ++ o)
      | other => other
      end
  | _ => acc
  end.

(** What the room sweep keeps of a category once the rooms named in
    [rs] have been visited. *)
Definition keptRoom (now : Z) (rs : list string) (kv : string * Room.t) : Prop :=
  kv.1 ∉ rs ∨ ¬ idleRoom now kv.2.

#[global] Instance keptRoom_dec now rs kv : Decision (keptRoom now rs kv).
Proof. unfold keptRoom. apply _. Defined.

(** A category after the room sweep: its rooms that are not idle, or
    nothing when none is left. *)
Definition sweptCategory (now : Z) (cat : gmap string Room.t)
  : option (gmap string Room.t) :=
  let cat' := filter (λ kv : string * Room.t, ¬ idleRoom now kv.2) cat in
  if decide (cat' = ∅) then None else Some cat'.

(** The notices of the room sweep: one [roomClosed] for each subscriber
    of the group of each idle room. *)
Definition closedNotice (now : Z) (s : State) (d : Delivery) : Prop :=
  ∃ g r room, lookupRoom s g r = Some room ∧ idleRoom now room ∧
              d ∈ emitAll s r (RoomClosed "inactivity" r).

(** The state in which the ['disconnect'] handler of [id] starts. *)
Definition closing (id : string) (s : State) : State :=
  setStats (Stats.received (serverStats s)) (leaveAll id s).

Definition isPlayerJoined (m : ServerMsg) : bool :=
  match m with
  | PlayerJoined _ _ => true
  | _ => false
  end.

(** The [playerJoined] messages among [out] that go to [id]. *)
Definition playerJoinedFor (id : string) (out : list Delivery) : list Delivery :=
  filter (λ d : Delivery, d.1 = id ∧ isPlayerJoined d.2 = true) out.

(** The players a room tracks, none when the room does not exist. *)
Definition tracked (s : State) (g r : string) : gmap string Attrs :=
  from_option Room.players ∅ (lookupRoom s g r).

(** The snapshot stored for [id] in the room [(g, r)]. *)
Definition snapshotOf (s : State) (g r id : string) : option Attrs :=
  room ← lookupRoom s g r; Room.players room !! id.

(** Successive [stateUpdate] messages of one connection addressed to the
    room [r], each with the time at which it is handled, oldest first:
    the state after the last one, [None] where a handler does not
    return. *)
Fixpoint relayUpdates (id r : string) (us : list (Attrs * Z)) (s : State)
  : option State :=
  match us with
  | [] => Some s
  | u :: rest =>
      match stateUpdateHandler id (Some (UpdateData.Build (Some r) u.1))
                               u.2 s with
      | Done s' _ => relayUpdates id r rest s'
      | _ => None
      end
  end.

(** The same through the body of the handler. *)
Definition applyUpdates (id r : string) (us : list (Attrs * Z)) (s : State)
  : State :=
  foldl (λ s u, (stateUpdate id r u.1 u.2 s).1) s us.

(** The value the most recent update gave to the key [k], if any did. *)
Fixpoint lastWrite (k : string) (us : list (Attrs * Z)) : option jsval :=
  match us with
  | [] => None
  | u :: rest =>
      match lastWrite k rest with
      | Some v => Some v
      | None => u.1 !! k
      end
  end.

(** Last write wins on every key, as the specification words it: a key
    carries the value of the most recent update that set it, a key never
    set keeps its prior value. *)
Definition mergedLastWrite (prior : Attrs) (us : list (Attrs * Z))
    (snap : Attrs) : Prop :=
  ∀ k, snap !! k = from_option Some (prior !! k) (lastWrite k us).

(** The same, on every key but [lastActivity]. *)
Definition mergedLastWriteBut (prior : Attrs) (us : list (Attrs * Z))
    (snap : Attrs) : Prop :=
  ∀ k, k ≠ "lastActivity" →
       snap !! k = from_option Some (prior !! k) (lastWrite k us).

(** ** A small session

    Three connections; [a] opens a room of the game "demo" without
    naming it, [b] joins that room, [c] opens the room "LOBBY2". *)
Definition session : list (Input * Z) :=
  [ (InConnection "a", 10); (InConnection "b", 11); (InConnection "c", 12);
    (InJoinGame "a" (Some (JoinData.Build (Some "demo") None {["x" := JNum 1]}))
                "0.4fzyo82mvyr", 13);
    (InJoinGame "b" (Some (JoinData.Build (Some "demo") (Some "4FZYO8") ∅))
                "", 14);
    (InJoinGame "c" (Some (JoinData.Build (Some "demo") (Some "LOBBY2") ∅))
                "", 15) ].

Definition lobby : State := default (init 0) (run session (init 0)).

(** ** The status endpoint *)

Module Status.
(** The body of the answer of [GET /status]. *)
Record t : Type := Build {
  status : string;
  uptime : Z;
  active : nat;
  total : nat;
  peak : nat;
  games : nat;
  rooms : nat;
  sent : nat;
  received : nat
}.
End Status.

(** [Object.keys(gameRooms).reduce((count, gameId) =>
      count + Object.keys(gameRooms[gameId]).length, 0)]. *)
Definition countRooms (dir : gmap string (gmap string Room.t)) : nat :=
  foldl (λ count g, (count + size (default ∅ (dir !! g)))%nat) 0%nat
        (elements (dom dir)).

(** [app.get('/status')]. *)
Definition statusReport (now : Z) (s : State) : Status.t :=
  Status.Build "online"
    ((now - Stats.startTime (serverStats s)) / 1000)
    (size (activePlayers s))
    (Stats.connections (serverStats s))
    (Stats.peakConcurrentPlayers (serverStats s))
    (size (gameRooms s))
    (countRooms (gameRooms s))
    (Stats.messagesSent (serverStats s))
    (Stats.messagesReceived (serverStats s)).

(** ** Consistency of the records *)

Record Consistent (s : State) : Prop := MkConsistent {
  (** a room is stored under its own ids *)
  cons_room : ∀ g r room,
    lookupRoom s g r = Some room →
    Room.roomId room = r ∧ Room.gameId room = g;
  (** a record is stored under its own id *)
  cons_id : ∀ id p, activePlayers s !! id = Some p → Player.id p = id;
  (** the room and the game of a record are set together *)
  cons_pair : ∀ id p,
    activePlayers s !! id = Some p →
    is_Some (Player.roomId p) ↔ is_Some (Player.gameId p);
  (** the counters of the status endpoint are ordered *)
  cons_peak :
    (size (activePlayers s) ≤ Stats.peakConcurrentPlayers (serverStats s))%nat ∧
    (Stats.peakConcurrentPlayers (serverStats s)
       ≤ Stats.connections (serverStats s))%nat
}.

(** The two counters that only a new connection moves. *)
Definition gauges (s : State) : nat * nat :=
  (Stats.connections (serverStats s),
   Stats.peakConcurrentPlayers (serverStats s)).

(** ** The client library

    [universal-multiplayer.js].  The transport, the timers and the
    console are left out: a method of the client is a function from the
    client before to the client after and the list of what it does to
    the outside, in order.  A registered callback is named by a number.
    The state a game publishes is a property list in insertion order,
    which is what [JSON.stringify] reads; [stringify] stands for it. *)

Abbreviation JsObject := (list (string * jsval)).

(** Messages from a client to the server. *)
Inductive ClientMsg : Type :=
  | CJoinGame (gameId : string) (roomId : option string) (playerData : Attrs)
  | CStateUpdate (roomId : option string) (state : JsObject)
  | CGameEvent (roomId : option string) (eventType : string) (eventData : jsval).

(** The argument handed to a listener. *)
Inductive Payload : Type :=
  | FromServer (m : ServerMsg)
  | ConnectedAs (id : option string)
  | Failure (message : string)
  | NoPayload.

(** What a method of the client does to the outside.  [Raise]: the
    method ends there with an uncaught [TypeError]. *)
Inductive Effect : Type :=
  | Invoke (callback : nat) (data : Payload)
  | Render (playerId : string) (state : Attrs)
  | Emit (m : ClientMsg)
  | Raise.

Module Client.
Record t : Type := Build {
  gameId : string;
  roomId : option string;
  playerId : option string;
  players : gmap string Attrs;
  eventListeners : gmap string (list nat);
  lastSentState : JsObject;
  connected : bool
}.

Definition setRoomId (r : option string) (c : t) : t :=
  Build (gameId c) r (playerId c) (players c) (eventListeners c)
        (lastSentState c) (connected c).
Definition setPlayers (ps : gmap string Attrs) (c : t) : t :=
  Build (gameId c) (roomId c) (playerId c) ps (eventListeners c)
        (lastSentState c) (connected c).
Definition setListeners (ls : gmap string (list nat)) (c : t) : t :=
  Build (gameId c) (roomId c) (playerId c) (players c) ls
        (lastSentState c) (connected c).
Definition setLastSent (o : JsObject) (c : t) : t :=
  Build (gameId c) (roomId c) (playerId c) (players c) (eventListeners c)
        o (connected c).
Definition setConnected (b : bool) (c : t) : t :=
  Build (gameId c) (roomId c) (playerId c) (players c) (eventListeners c)
        (lastSentState c) b.
Definition setPlayerId (i : option string) (c : t) : t :=
  Build (gameId c) (roomId c) i (players c) (eventListeners c)
        (lastSentState c) (connected c).
End Client.

(** [new UniversalMultiplayer({gameId, roomId})]:
    [options.gameId || 'default'], [options.roomId || null]. *)
Definition newClient (gameId roomId : option string) : Client.t :=
  Client.Build (if truthy gameId then default "" gameId else "default")
               (if truthy roomId then roomId else None)
               None ∅ ∅ [] false.

(** [on(eventName, callback)].  Under a name that [eventListeners]
    inherits no list is made, and the method throws on the [push] that
    the member found does not have: [None]. *)
Definition on (eventName : string) (callback : nat) (c : Client.t)
  : option Client.t :=
  match Client.eventListeners c !! eventName with
  | Some callbacks =>
      Some (Client.setListeners
              (<[eventName := callbacks ++ [callback]]>
                 (Client.eventListeners c)) c)
  | None =>
      if inherited eventName then None
      else Some (Client.setListeners
                   (<[eventName := [callback]]> (Client.eventListeners c)) c)
  end.

(** Registering the callbacks [cbs] under one name, one call of [on]
    after the other; [None] where one of them throws. *)
Definition onEach (eventName : string) (cbs : list nat) (c : Client.t)
  : option Client.t :=
  foldl (λ acc cb, acc ≫= on eventName cb) (Some c) cbs.

(** [triggerEvent(eventName, data)].  Under a name that [eventListeners]
    inherits, the method throws on the [forEach] that the member found
    does not have. *)
Definition triggerEvent (eventName : string) (data : Payload) (c : Client.t)
  : list Effect :=
  match Client.eventListeners c !! eventName with
  | Some callbacks => (λ cb, Invoke cb data) <$> callbacks
  | None => if inherited eventName then [Raise] else []
  end.

(** The listener of the socket's ['connect']; [socketId] is [socket.id]. *)
Definition onConnect (socketId : string) (playerData : Attrs) (c : Client.t)
  : Client.t * list Effect :=
  let c1 := Client.setPlayerId (Some socketId) (Client.setConnected true c) in
  (c1,
   Emit (CJoinGame (Client.gameId c1) (Client.roomId c1) playerData)
   :: triggerEvent "connected" (ConnectedAs (Client.playerId c1)) c1).

(** The listeners installed by [setupSocketEvents], by message. *)
Definition onMessage (m : ServerMsg) (c : Client.t) : Client.t * list Effect :=
  match m with
  | RoomJoined r _ _ _ =>
      let c1 := Client.setRoomId (Some r) c in
      (c1, triggerEvent "roomJoined" (FromServer m) c1)
  | PlayerJoined id playerData =>
      let c1 := Client.setPlayers (<[id := playerData]> (Client.players c)) c in
      (c1, triggerEvent "playerJoined" (FromServer m) c1)
  | PlayerLeft id _ =>
      let c1 := Client.setPlayers (delete id (Client.players c)) c in
      (c1, triggerEvent "playerLeft" (FromServer m) c1)
  | StateUpdateMsg id state _ =>
      if decide (Some id = Client.playerId c) then (c, [])
      else
        let known := default ∅ (Client.players c !! id) in
        let c1 :=
          Client.setPlayers (<[id := state ∪ known]> (Client.players c)) c in
        (c1, Render id state :: triggerEvent "stateUpdate" (FromServer m) c1)
  | GameEventMsg _ eventType _ _ =>
      (c, triggerEvent "gameEvent" (FromServer m) c
          ++ triggerEvent eventType (FromServer m) c)
  | RoomClosed _ _ => (c, triggerEvent "roomClosed" (FromServer m) c)
  end.

(** The listener of the socket's ['disconnect']. *)
Definition onClose (c : Client.t) : Client.t * list Effect :=
  let c1 := Client.setConnected false c in
  (c1, triggerEvent "disconnected" NoPayload c1).

(** The listener of ['connect_error']. *)
Definition onConnectError (c : Client.t) : Client.t * list Effect :=
  (c, triggerEvent "error" (Failure "Connection error") c).

(** [hasStateChanged(newState, oldState)]; an absent [oldState] is [None]. *)
Definition hasStateChanged (stringify : JsObject → string)
    (newState : JsObject) (oldState : option JsObject) : bool :=
  match oldState with
  | None => true
  | Some old => negb (String.eqb (stringify newState) (stringify old))
  end.

(** [sendUpdate()]; [currentState] is what [stateAdapter()] returned. *)
Definition sendUpdate (stringify : JsObject → string)
    (currentState : JsObject) (c : Client.t) : Client.t * list Effect :=
  if negb (Client.connected c) then (c, [])
  else if hasStateChanged stringify currentState (Some (Client.lastSentState c))
  then (Client.setLastSent currentState c,
        [Emit (CStateUpdate (Client.roomId c) currentState)])
  else (c, []).

(** [sendGameEvent(eventType, eventData)]. *)
Definition sendGameEvent (eventType : string) (eventData : jsval)
    (c : Client.t) : list Effect :=
  if negb (Client.connected c) then []
  else [Emit (CGameEvent (Client.roomId c) eventType eventData)].

(** The answer of [getRoomInfo()]: the room, the count and the players,
    the local one under its own id with the state it last sent. *)
Definition getRoomInfo (c : Client.t)
  : option string * nat * gmap string Attrs :=
  (Client.roomId c,
   S (size (Client.players c)),
   <[key_of (Client.playerId c) := list_to_map (Client.lastSentState c)]>
     (Client.players c)).

(** The messages among [out] that go to [id], in order. *)
Definition inbox (id : string) (out : list Delivery) : list ServerMsg :=
  (filter (λ d : Delivery, d.1 = id) out).*2.

(** A client handling the messages of its inbox one after the other. *)
Definition receiveAll (ms : list ServerMsg) (c : Client.t) : Client.t :=
  foldl (λ c m, (onMessage m c).1) c ms.

(** Two attribute maps agree outside of the key [lastActivity]. *)
Definition agreeBut (a b : Attrs) : Prop :=
  ∀ k, k ≠ "lastActivity" → a !! k = b !! k.




(** * Properties *)

(** ** Broadcast groups *)

Section Adapter.
Implicit Types (s : State) (r id to : string) (m : ServerMsg).

Lemma elem_of_members s r id :
  id ∈ members s r ↔ ∃ rs, sids s !! id = Some rs ∧ r ∈ rs.
Proof.
  unfold members. rewrite elem_of_dom. split.
  - intros [rs [Hrs Hr]%map_lookup_filter_Some]. eauto.
  - intros (rs & Hrs & Hr). exists rs. by apply map_lookup_filter_Some.
Qed.

Lemma members_live s r id : id ∈ members s r → live s id.
Proof. intros (rs & Hrs & _)%elem_of_members. by exists rs. Qed.

Lemma members_sids s s' r : sids s = sids s' → members s r = members s' r.
Proof. unfold members. by intros ->. Qed.

Lemma emitAll_sids s s' r m : sids s = sids s' → emitAll s r m = emitAll s' r m.
Proof. unfold emitAll, members. by intros ->. Qed.

Lemma emitOthers_sids s s' id r m :
  sids s = sids s' → emitOthers s id r m = emitOthers s' id r m.
Proof. unfold emitOthers, members. by intros ->. Qed.

Lemma elem_of_emitAll s r m to m' :
  (to, m') ∈ emitAll s r m ↔ m' = m ∧ to ∈ members s r.
Proof.
  unfold emitAll. rewrite list_elem_of_fmap. split.
  - intros (x & [= -> ->] & Hx%elem_of_elements). done.
  - intros [-> Hto]. exists to. by rewrite elem_of_elements.
Qed.

Lemma elem_of_emitOthers s id r m to m' :
  (to, m') ∈ emitOthers s id r m ↔ m' = m ∧ to ∈ members s r ∧ to ≠ id.
Proof.
  unfold emitOthers. rewrite list_elem_of_fmap. split.
  - intros (x & Heq & Hx). injection Heq as -> ->.
    apply elem_of_elements in Hx. set_solver.
  - intros (-> & Hto & Hne). exists to. rewrite elem_of_elements. set_solver.
Qed.


End Adapter.

(** ** The relay handlers on a member *)

Lemma lookupRoom_Some s g r room :
  lookupRoom s g r = Some room ↔
  ∃ cat, gameRooms s !! g = Some cat ∧ cat !! r = Some room.
Proof.
  unfold lookupRoom. destruct (gameRooms s !! g) as [cat|]; simpl.
  - split; [eauto|]. by intros (? & [= <-] & ?).
  - split; [done|]. by intros (? & ? & ?).
Qed.

Lemma sids_recordState id g r st now s : sids (recordState id g r st now s) = sids s.
Proof. unfold recordState. by destruct (lookupRoom s g r). Qed.

Lemma activePlayers_recordState id g r st now s :
  activePlayers (recordState id g r st now s) = activePlayers s.
Proof. unfold recordState. by destruct (lookupRoom s g r). Qed.

Lemma stateUpdate_member s id r p st now :
  activePlayers s !! id = Some p → truthy (Player.roomId p) = true →
  (stateUpdate id r st now s).2 = emitOthers s id r (StateUpdateMsg id st now).
Proof.
  intros Hp Ht. unfold stateUpdate. simpl. rewrite Hp, Ht. simpl.
  apply emitOthers_sids. simpl. by rewrite sids_recordState.
Qed.

Lemma gameEvent_member s id r p ty d now :
  activePlayers s !! id = Some p → truthy (Player.roomId p) = true →
  (gameEvent id r ty d now s).2 = emitAll s r (GameEventMsg id ty d now).
Proof.
  intros Hp Ht. unfold gameEvent. simpl. rewrite Hp, Ht. simpl.
  by apply emitAll_sids.
Qed.

Lemma gameEvent_gameRooms s id r ty d now :
  gameRooms (gameEvent id r ty d now s).1 = gameRooms s.
Proof.
  unfold gameEvent. simpl. destruct (activePlayers s !! id) as [p|]; [|done].
  by destruct (truthy (Player.roomId p)).
Qed.

(** ** Reading the directory after a write *)

Lemma gameRooms_setRoom g r room s g' :
  gameRooms (setRoom g r room s) !! g' =
  if decide (g = g') then Some (<[r := room]> (default ∅ (gameRooms s !! g)))
  else gameRooms s !! g'.
Proof. unfold setRoom. simpl. apply lookup_insert. Qed.

Lemma lookupRoom_setRoom g r room s g' r' :
  lookupRoom (setRoom g r room s) g' r' =
  if decide (g = g' ∧ r = r') then Some room else lookupRoom s g' r'.
Proof.
  unfold lookupRoom. rewrite gameRooms_setRoom.
  destruct (decide (g = g')) as [<-|Hg]; simpl.
  - destruct (decide (r = r')) as [<-|Hr].
    + rewrite lookup_insert_eq. by rewrite decide_True.
    + rewrite lookup_insert_ne by done. rewrite decide_False by naive_solver.
      by destruct (gameRooms s !! g).
  - by rewrite decide_False by naive_solver.
Qed.

Lemma lookupRoom_stats st s g r : lookupRoom (setStats st s) g r = lookupRoom s g r.
Proof. done. Qed.

Lemma lookupRoom_recordState id g r st now s g' r' room' :
  lookupRoom (recordState id g r st now s) g' r' = Some room' →
  ∃ room, lookupRoom s g' r' = Some room ∧
          dom (Room.players room') = dom (Room.players room).
Proof.
  unfold recordState. destruct (lookupRoom s g r) as [room|] eqn:Hroom; [|eauto].
  rewrite lookupRoom_setRoom. case_decide as Heq; [|eauto].
  destruct Heq as [<- <-]. intros [= <-]. exists room. split; [done|].
  simpl. destruct (Room.players room !! id) as [snap|] eqn:Hsnap; [|done].
  simpl. rewrite dom_insert_L. apply elem_of_dom_2 in Hsnap. set_solver.
Qed.

Lemma gameRooms_recordState id g r st now s g' cat' :
  gameRooms (recordState id g r st now s) !! g' = Some cat' →
  ∃ cat, gameRooms s !! g' = Some cat ∧ dom cat' = dom cat.
Proof.
  unfold recordState. destruct (lookupRoom s g r) as [room|] eqn:Hroom; [|eauto].
  apply lookupRoom_Some in Hroom as (cat & Hcat & Hr).
  rewrite gameRooms_setRoom. case_decide as Heq; [|eauto].
  subst g'. intros [= <-]. exists cat. split; [done|].
  rewrite Hcat. simpl. rewrite dom_insert_L. apply elem_of_dom_2 in Hr. set_solver.
Qed.

(** ** The invariants hold along every run *)

Lemma Inv_init start : Inv (init start).
Proof.
  split.
  - intros id. unfold live. simpl. by rewrite !lookup_empty.
  - intros id p r. simpl. by rewrite lookup_empty.
  - intros g r room id. unfold lookupRoom. simpl. by rewrite lookup_empty.
  - intros g r room. unfold lookupRoom. simpl. by rewrite lookup_empty.
  - intros g cat. simpl. by rewrite lookup_empty.
Qed.

Lemma unused_untracked s id g r room :
  unused s id → lookupRoom s g r = Some room → Room.players room !! id = None.
Proof.
  intros (_ & _ & Hall) (cat & Hcat & Hr)%lookupRoom_Some.
  exact (Hall g cat Hcat r room Hr).
Qed.

Lemma members_connection s id now r id' :
  id' ≠ id → id' ∈ members s r → id' ∈ members (connection id now s) r.
Proof.
  intros Hne (rs & Hrs & Hr)%elem_of_members. apply elem_of_members.
  exists rs. simpl. by rewrite lookup_insert_ne.
Qed.

Lemma Inv_connection s id now : Inv s → unused s id → Inv (connection id now s).
Proof.
  intros HI Hun. pose proof Hun as (_ & Hsid & _). split.
  - intros id'. unfold live. simpl.
    destruct (decide (id = id')) as [<-|Hne].
    + rewrite !lookup_insert_eq. split; eauto.
    + rewrite !lookup_insert_ne by done. apply (inv_live s HI).
  - intros id' p r. simpl. destruct (decide (id = id')) as [<-|Hne].
    + rewrite lookup_insert_eq. by intros [= <-].
    + rewrite lookup_insert_ne by done. intros Hp Hr.
      apply members_connection; [done|]. by eapply inv_own.
  - intros g r room id' Hroom Hin Hlive.
    destruct (decide (id = id')) as [<-|Hne].
    + rewrite (unused_untracked s id g r room Hun Hroom) in Hin.
      by destruct Hin.
    + apply members_connection; [done|]. eapply inv_subs; eauto.
      unfold live in *. simpl in Hlive. by rewrite lookup_insert_ne in Hlive.
  - exact (inv_rooms s HI).
  - exact (inv_cats s HI).
Qed.

Section Join.
Context (id g : string) (roomId : option string) (pd : Attrs)
        (rnd : string) (now : Z) (s : State).

Local Abbreviation t := (chooseRoomId roomId rnd).
Local Abbreviation room0 := (openRoom s g t now).
Local Abbreviation ps := (<[id := joinSnapshot id now pd]> (Room.players room0)).

Lemma joinGame_is_Some :
  is_Some (joinGame id g roomId pd rnd now s) ↔ is_Some (activePlayers s !! id).
Proof.
  unfold joinGame. simpl. destruct (activePlayers s !! id); split; eauto.
  all: by intros [? ?].
Qed.

Context (s' : State) (out : list Delivery).
Hypothesis Hjoin : joinGame id g roomId pd rnd now s = Some (s', out).

Lemma joinGame_record : ∃ p,
  activePlayers s !! id = Some p ∧
  activePlayers s' = <[id := Player.setMembership t g p]> (activePlayers s).
Proof.
  revert Hjoin. unfold joinGame. simpl.
  destruct (activePlayers s !! id) as [p|]; [|done].
  intros [= <- _]. by exists p.
Qed.

Lemma joinGame_sids : sids s' = alter (λ rs, rs ∪ {[t]}) id (sids s).
Proof.
  revert Hjoin. unfold joinGame. simpl.
  destruct (activePlayers s !! id) as [p|]; [|done]. by intros [= <- _].
Qed.

Lemma joinGame_out :
  out = [(id, RoomJoined t g id (size ps))]
        ++ emitOthers s' id t (PlayerJoined id pd) ++ backfill id ps.
Proof.
  revert Hjoin. unfold joinGame. simpl.
  destruct (activePlayers s !! id) as [p|]; [|done]. by intros [= <- <-].
Qed.

Lemma joinGame_gameRooms g' :
  gameRooms s' !! g' =
  if decide (g = g') then
    Some (<[t := Room.setPlayers ps room0]> (default ∅ (gameRooms s !! g)))
  else gameRooms s !! g'.
Proof.
  revert Hjoin. unfold joinGame. simpl.
  destruct (activePlayers s !! id) as [p|]; [|done]. intros [= <- _].
  simpl. apply lookup_insert.
Qed.

Lemma joinGame_lookupRoom g' r' :
  lookupRoom s' g' r' =
  if decide (g = g' ∧ t = r') then Some (Room.setPlayers ps room0)
  else lookupRoom s g' r'.
Proof.
  revert Hjoin. unfold joinGame. simpl.
  destruct (activePlayers s !! id) as [p|]; [|done]. intros [= <- _].
  apply (lookupRoom_setRoom g t _ (setStats _ s)).
Qed.

Lemma joinGame_members r id' : id' ∈ members s r → id' ∈ members s' r.
Proof.
  intros (rs & Hrs & Hr)%elem_of_members. apply elem_of_members.
  rewrite joinGame_sids. destruct (decide (id = id')) as [<-|Hne].
  - exists (rs ∪ {[t]}). rewrite lookup_alter_eq, Hrs. split; [done|set_solver].
  - exists rs. by rewrite lookup_alter_ne.
Qed.

Lemma joinGame_live id' : live s' id' ↔ live s id'.
Proof.
  unfold live. rewrite joinGame_sids. destruct (decide (id = id')) as [<-|Hne].
  - rewrite lookup_alter_eq. apply fmap_is_Some.
  - by rewrite lookup_alter_ne.
Qed.

Lemma openRoom_players id' :
  is_Some (Room.players room0 !! id') →
  lookupRoom s g t = Some room0.
Proof.
  unfold openRoom, lookupRoom.
  destruct (gameRooms s !! g) as [cat|]; simpl.
  - destruct (cat !! t); simpl; [done|]. rewrite lookup_empty. by intros [? ?].
  - rewrite lookup_empty. simpl. rewrite lookup_empty. by intros [? ?].
Qed.

Lemma Inv_joinGame : Inv s → Inv s'.
Proof.
  intros HI. destruct joinGame_record as (p & Hp & Hap). split.
  - intros id'. rewrite joinGame_live, <- (inv_live s HI), Hap.
    destruct (decide (id = id')) as [<-|Hne].
    + rewrite lookup_insert_eq, Hp. split; eauto.
    + by rewrite lookup_insert_ne.
  - intros id' p' r. rewrite Hap. destruct (decide (id = id')) as [<-|Hne].
    + rewrite lookup_insert_eq. intros [= <-]. simpl. intros [= <-].
      assert (live s id) as [rs Hrs] by (apply (inv_live s HI); eauto).
      apply elem_of_members. exists (rs ∪ {[t]}).
      rewrite joinGame_sids, lookup_alter_eq, Hrs. split; [done|set_solver].
    + rewrite lookup_insert_ne by done. intros Hp' Hr.
      apply joinGame_members. by eapply inv_own.
  - intros g' r' room' id'. rewrite joinGame_lookupRoom, joinGame_live.
    case_decide as Heq.
    + destruct Heq as [<- <-]. intros [= <-]. simpl.
      destruct (decide (id = id')) as [<-|Hne].
      * intros _ [rs Hrs]. apply elem_of_members. exists (rs ∪ {[t]}).
        rewrite joinGame_sids, lookup_alter_eq, Hrs. split; [done|set_solver].
      * rewrite lookup_insert_ne by done. intros Hin Hlive.
        apply joinGame_members. eapply inv_subs; eauto.
        by eapply openRoom_players.
    + intros Hroom Hin Hlive. apply joinGame_members. eapply inv_subs; eauto.
  - intros g' r' room'. rewrite joinGame_lookupRoom. case_decide as Heq.
    + intros [= <-]. simpl. apply insert_non_empty.
    + apply (inv_rooms s HI).
  - intros g' cat'. rewrite joinGame_gameRooms. case_decide as Heq.
    + intros [= <-]. apply insert_non_empty.
    + apply (inv_cats s HI).
Qed.
End Join.

Lemma truthy_Some x : truthy (Some x) = true ↔ x ≠ "".
Proof.
  simpl. rewrite negb_true_iff. destruct (String.eqb_spec x ""); naive_solver.
Qed.

Lemma truthy_true v : truthy v = true ↔ ∃ x, v = Some x ∧ x ≠ "".
Proof.
  destruct v as [x|].
  - rewrite truthy_Some. naive_solver.
  - simpl. naive_solver.
Qed.

Lemma Inv_stateUpdate s id r st now : Inv s → Inv (stateUpdate id r st now s).1.
Proof.
  intros HI. unfold stateUpdate. simpl.
  destruct (activePlayers s !! id) as [p|] eqn:Hp; [|by destruct HI].
  destruct (truthy (Player.roomId p)); [|by destruct HI]. simpl.
  set (s2 := setActivePlayers _ _).
  assert (∀ id', live s2 id' ↔ live s id') as Hlive by done.
  assert (∀ r', members s2 r' = members s r') as Hmem by done.
  split.
  - intros id'. unfold live. simpl. rewrite activePlayers_recordState, sids_recordState.
    simpl. fold (live s id'). destruct (decide (id = id')) as [<-|Hne].
    + rewrite lookup_insert_eq. rewrite <- (inv_live s HI), Hp. split; eauto.
    + rewrite lookup_insert_ne by done. apply (inv_live s HI).
  - intros id' p' r'. simpl. rewrite activePlayers_recordState. simpl.
    erewrite members_sids; [|simpl; apply sids_recordState].
    rewrite Hmem. destruct (decide (id = id')) as [<-|Hne].
    + rewrite lookup_insert_eq. intros [= <-]. simpl. by apply (inv_own s HI).
    + rewrite lookup_insert_ne by done. apply (inv_own s HI).
  - intros g' r' room' id'. rewrite lookupRoom_stats.
    intros (room & Hroom & Hdom)%lookupRoom_recordState.
    rewrite <- !elem_of_dom, Hdom, elem_of_dom. unfold live. simpl.
    rewrite sids_recordState. intros Hin Hl.
    erewrite members_sids; [|simpl; apply sids_recordState].
    rewrite Hmem. by eapply (inv_subs s HI).
  - intros g' r' room'. rewrite lookupRoom_stats.
    intros (room & Hroom & Hdom)%lookupRoom_recordState.
    apply (inv_rooms s HI) in Hroom. intros Hemp. apply Hroom.
    apply dom_empty_iff_L. rewrite <- Hdom, Hemp. apply dom_empty_L.
  - intros g' cat'. simpl.
    intros (cat & Hcat & Hdom)%gameRooms_recordState.
    apply (inv_cats s HI) in Hcat. intros Hemp. apply Hcat.
    apply dom_empty_iff_L. rewrite <- Hdom, Hemp. apply dom_empty_L.
Qed.

Lemma Inv_gameEvent s id r ty d now : Inv s → Inv (gameEvent id r ty d now s).1.
Proof.
  intros HI. unfold gameEvent. simpl.
  destruct (activePlayers s !! id) as [p|] eqn:Hp; [|by destruct HI].
  destruct (truthy (Player.roomId p)); [|by destruct HI]. simpl.
  split.
  - intros id'. unfold live. simpl. fold (live s id').
    destruct (decide (id = id')) as [<-|Hne].
    + rewrite lookup_insert_eq. rewrite <- (inv_live s HI), Hp. split; eauto.
    + rewrite lookup_insert_ne by done. apply (inv_live s HI).
  - intros id' p' r'. simpl. destruct (decide (id = id')) as [<-|Hne].
    + rewrite lookup_insert_eq. intros [= <-]. simpl. by apply (inv_own s HI).
    + rewrite lookup_insert_ne by done. apply (inv_own s HI).
  - exact (inv_subs s HI).
  - exact (inv_rooms s HI).
  - exact (inv_cats s HI).
Qed.

(** ** The disconnect cascade *)

Lemma held_category s id g r room :
  held s id g r room → ∃ cat, gameRooms s !! g = Some cat ∧ cat !! r = Some room.
Proof. intros (p & _ & _ & _ & _ & _ & Hroom). by apply lookupRoom_Some. Qed.

Lemma leaveRoom_held s id now g r room cat :
  held s id g r room → gameRooms s !! g = Some cat →
  leaveRoom id now s =
  (setGameRooms (directoryAfterLeave id g r cat room (gameRooms s))
     (setStats (Stats.sent 1 (serverStats s)) s),
   emitOthers s id r (PlayerLeft id now)).
Proof.
  intros (p & Hp & Hr & Hr' & Hg & Hg' & Hroom) Hcat.
  unfold leaveRoom. rewrite Hp, Hr, Hg.
  rewrite (proj2 (truthy_Some r) Hr'), (proj2 (truthy_Some g) Hg'). simpl.
  rewrite Hroom, Hcat. simpl. unfold directoryAfterLeave, setRoom. simpl.
  rewrite Hcat. simpl. by repeat case_decide.
Qed.

Lemma leaveRoom_cases s id now :
  leaveRoom id now s = (s, []) ∨
  ∃ g r room cat, held s id g r room ∧ gameRooms s !! g = Some cat.
Proof.
  unfold leaveRoom. destruct (activePlayers s !! id) as [p|] eqn:Hp; [|by left].
  destruct (truthy (Player.roomId p)) eqn:Hr; [|by left].
  destruct (truthy (Player.gameId p)) eqn:Hg; [|by left]. simpl.
  apply truthy_true in Hr as (r & Hr & Hr'). apply truthy_true in Hg as (g & Hg & Hg').
  rewrite Hr, Hg. simpl.
  destruct (lookupRoom s g r) as [room|] eqn:Hroom; [|by left].
  right. pose proof Hroom as (cat & Hcat & _)%lookupRoom_Some.
  exists g, r, room, cat. split; [|done]. by exists p.
Qed.

Lemma not_held_leaveRoom s id now :
  (∀ g r room, ¬ held s id g r room) → leaveRoom id now s = (s, []).
Proof.
  intros Hno. destruct (leaveRoom_cases s id now) as [?|(g & r & room & ? & H & _)];
    [done|]. by destruct (Hno g r room).
Qed.

Lemma sids_leaveRoom s id now : sids (leaveRoom id now s).1 = sids s.
Proof.
  destruct (leaveRoom_cases s id now) as [->|(g & r & room & cat & Hh & Hcat)];
    [done|]. by rewrite (leaveRoom_held s id now g r room cat).
Qed.

Lemma activePlayers_leaveRoom s id now :
  activePlayers (leaveRoom id now s).1 = activePlayers s.
Proof.
  destruct (leaveRoom_cases s id now) as [->|(g & r & room & cat & Hh & Hcat)];
    [done|]. by rewrite (leaveRoom_held s id now g r room cat).
Qed.

Lemma directoryAfterLeave_lookup id g r cat room dir g' :
  directoryAfterLeave id g r cat room dir !! g' =
  if decide (g = g') then
    let ps := delete id (Room.players room) in
    let cat' :=
      if decide (ps = ∅) then delete r cat
      else <[r := Room.setPlayers ps room]> cat in
    if decide (cat' = ∅) then None else Some cat'
  else dir !! g'.
Proof.
  unfold directoryAfterLeave. simpl.
  destruct (decide (delete id (Room.players room) = ∅)) as [Hps|Hps].
  - destruct (decide (delete r cat = ∅)) as [Hcat|Hcat].
    + rewrite lookup_delete. by case_decide.
    + rewrite lookup_insert. by case_decide.
  - rewrite lookup_insert. case_decide; [|done].
    rewrite decide_False; [done|]. apply insert_non_empty.
Qed.

(** What the cascade leaves of a room and of a category. *)
Lemma lookupRoom_leaveRoom s id now g' r' room' :
  lookupRoom (leaveRoom id now s).1 g' r' = Some room' →
  ∃ room, lookupRoom s g' r' = Some room ∧
    (room' = room ∨
     (room' = Room.setPlayers (delete id (Room.players room)) room ∧
      delete id (Room.players room) ≠ ∅)).
Proof.
  destruct (leaveRoom_cases s id now) as [->|(g & r & room & cat & Hh & Hcat)];
    [eauto|].
  rewrite (leaveRoom_held s id now g r room cat) by done.
  destruct (held_category _ _ _ _ _ Hh) as (cat0 & Hcat0 & Hr).
  assert (cat0 = cat) as -> by congruence.
  unfold lookupRoom at 1. simpl. rewrite directoryAfterLeave_lookup.
  destruct (decide (g = g')) as [<-|Hne]; simpl.
  - destruct (decide (delete id (Room.players room) = ∅)) as [Hps|Hps].
    + case_decide; simpl; [done|]. intros [Hne Hl]%lookup_delete_Some.
      exists room'. split; [|by left]. apply lookupRoom_Some. eauto.
    + case_decide; simpl; [done|]. destruct (decide (r = r')) as [<-|Hne].
      * rewrite lookup_insert_eq. intros [= <-]. exists room.
        split; [apply lookupRoom_Some; eauto|]. by right.
      * rewrite lookup_insert_ne by done. intros Hl.
        exists room'. split; [|by left]. apply lookupRoom_Some. eauto.
  - intros Hl. exists room'. split; [|by left]. done.
Qed.

Lemma gameRooms_leaveRoom s id now g' cat' :
  gameRooms (leaveRoom id now s).1 !! g' = Some cat' →
  cat' ≠ ∅ ∨ gameRooms s !! g' = Some cat'.
Proof.
  destruct (leaveRoom_cases s id now) as [->|(g & r & room & cat & Hh & Hcat)];
    [eauto|].
  rewrite (leaveRoom_held s id now g r room cat) by done. simpl.
  rewrite directoryAfterLeave_lookup.
  destruct (decide (g = g')) as [<-|Hne]; simpl; [|eauto].
  case_decide; [done|]. intros [= <-]. by left.
Qed.

Lemma roomsNonEmpty_leaveRoom s id now :
  roomsNonEmpty s → roomsNonEmpty (leaveRoom id now s).1.
Proof.
  intros Hne g r room' (room & Hroom & [->|[-> Hps]])%lookupRoom_leaveRoom.
  - by eapply Hne.
  - done.
Qed.

Lemma categoriesNonEmpty_leaveRoom s id now :
  categoriesNonEmpty s → categoriesNonEmpty (leaveRoom id now s).1.
Proof.
  intros Hne g cat' [?|Hcat]%gameRooms_leaveRoom; [done|]. by eapply Hne.
Qed.

Lemma disconnect_unfold id now s :
  disconnect id now s =
  (removePlayer id (leaveRoom id now (closing id s)).1,
   (leaveRoom id now (closing id s)).2).
Proof.
  change (disconnect id now s) with
    (let '(s2, out) := leaveRoom id now (closing id s) in
     (removePlayer id s2, out)).
  by destruct (leaveRoom id now (closing id s)) as [s2 out].
Qed.

Lemma sids_disconnect id now s : sids (disconnect id now s).1 = delete id (sids s).
Proof. rewrite disconnect_unfold. simpl. by rewrite sids_leaveRoom. Qed.

Lemma activePlayers_disconnect id now s :
  activePlayers (disconnect id now s).1 = delete id (activePlayers s).
Proof.
  rewrite disconnect_unfold. simpl.
  by rewrite (activePlayers_leaveRoom (closing id s)).
Qed.

Lemma gameRooms_disconnect id now s :
  gameRooms (disconnect id now s).1 = gameRooms (leaveRoom id now (closing id s)).1.
Proof. by rewrite disconnect_unfold. Qed.

Lemma held_closing s id g r room : held (closing id s) id g r room ↔ held s id g r room.
Proof. done. Qed.

Lemma members_disconnect id now s r id' :
  id' ∈ members (disconnect id now s).1 r ↔ id' ∈ members s r ∧ id' ≠ id.
Proof.
  rewrite !elem_of_members, sids_disconnect. split.
  - intros (rs & [Hne Hrs]%lookup_delete_Some & Hr). eauto.
  - intros [(rs & Hrs & Hr) Hne]. exists rs. by rewrite lookup_delete_ne.
Qed.

Lemma live_disconnect id now s id' :
  live (disconnect id now s).1 id' ↔ live s id' ∧ id' ≠ id.
Proof.
  unfold live. rewrite sids_disconnect. unfold is_Some.
  setoid_rewrite lookup_delete_Some. naive_solver.
Qed.

Lemma Inv_disconnect s id now : Inv s → Inv (disconnect id now s).1.
Proof.
  intros HI. split.
  - intros id'. rewrite live_disconnect, activePlayers_disconnect.
    rewrite <- (inv_live s HI). unfold is_Some.
    setoid_rewrite lookup_delete_Some. naive_solver.
  - intros id' p r. rewrite activePlayers_disconnect, members_disconnect.
    intros [Hne Hp]%lookup_delete_Some Hr. split; [|done]. by eapply inv_own.
  - intros g r room' id'. unfold lookupRoom. rewrite gameRooms_disconnect.
    intros (room & Hroom & Hcase)%lookupRoom_leaveRoom Hin.
    rewrite live_disconnect, members_disconnect. intros [Hl Hne]. split; [|done].
    eapply (inv_subs s HI); [exact Hroom| |done].
    destruct Hcase as [->|[-> _]]; [done|]. simpl in Hin.
    destruct Hin as [x [_ Hx]%lookup_delete_Some]. eauto.
  - intros g r room'. unfold lookupRoom. rewrite gameRooms_disconnect.
    apply (roomsNonEmpty_leaveRoom (closing id s)), (inv_rooms s HI).
  - intros g cat'. rewrite gameRooms_disconnect.
    apply (categoriesNonEmpty_leaveRoom (closing id s)), (inv_cats s HI).
Qed.

(** ** The room sweep *)

Lemma keptRoom_step now r rs (cat : gmap string Room.t) room :
  cat !! r = Some room → r ∉ rs →
  filter (keptRoom now (r :: rs)) cat =
  filter (keptRoom now rs)
         (if decide (idleRoom now room) then delete r cat else cat).
Proof.
  intros Hr Hnin. apply map_eq. intros k. apply option_eq. intros x.
  rewrite !map_lookup_filter_Some. unfold keptRoom. simpl.
  case_decide as Hidle.
  - rewrite lookup_delete_Some. rewrite not_elem_of_cons. split.
    + intros [Hk [[Hne Hk']|Hni]]; [naive_solver|].
      destruct (decide (r = k)) as [<-|?]; [|naive_solver].
      assert (x = room) as -> by congruence. done.
    + naive_solver.
  - rewrite not_elem_of_cons. split; [naive_solver|].
    intros [Hk [Hk'|Hni]]; [|naive_solver].
    destruct (decide (r = k)) as [<-|?]; [|naive_solver].
    assert (x = room) as -> by congruence. naive_solver.
Qed.

Lemma sweepRoom_Some now g r s out cat room :
  gameRooms s !! g = Some cat → cat !! r = Some room →
  sweepRoom now g (Some (s, out)) r =
  Some (if decide (idleRoom now room) then
          (setGameRooms (<[g := delete r cat]> (gameRooms s))
             (setStats (Stats.sent 1 (serverStats s)) s),
           out ++ emitAll s r (RoomClosed "inactivity" r))
        else (s, out)).
Proof.
  intros Hcat Hr. unfold sweepRoom. simpl.
  assert (lookupRoom s g r = Some room) as -> by (apply lookupRoom_Some; eauto).
  simpl. case_decide; [|done]. by rewrite Hcat.
Qed.

Lemma sweepRoom_loop now g rs : ∀ s out cat,
  NoDup rs → gameRooms s !! g = Some cat →
  (∀ r, r ∈ rs → is_Some (cat !! r)) →
  ∃ s' out',
    foldl (sweepRoom now g) (Some (s, out)) rs = Some (s', out') ∧
    sids s' = sids s ∧ activePlayers s' = activePlayers s ∧
    gameRooms s' = <[g := filter (keptRoom now rs) cat]> (gameRooms s) ∧
    (∀ d, d ∈ out' ↔
          d ∈ out ∨ ∃ r room, r ∈ rs ∧ cat !! r = Some room ∧
                     idleRoom now room ∧
                     d ∈ emitAll s r (RoomClosed "inactivity" r)).
Proof.
  induction rs as [|r rs IH]; intros s out cat Hnd Hcat Hin.
  - exists s, out. repeat split; try done.
    + rewrite map_filter_id; [by rewrite insert_id|].
      intros k x _. left. apply not_elem_of_nil.
    + by left.
    + intros [?|(r & room & []%elem_of_nil & _)]. done.
  - apply NoDup_cons in Hnd as [Hr Hnd].
    destruct (Hin r) as [room Hroom]; [by left|].
    cbn [foldl]. rewrite (sweepRoom_Some now g r s out cat room Hcat Hroom).
    rewrite (keptRoom_step now r rs cat room Hroom Hr).
    destruct (decide (idleRoom now room)) as [Hidle|Hidle].
    + edestruct (IH (setGameRooms (<[g := delete r cat]> (gameRooms s))
                       (setStats (Stats.sent 1 (serverStats s)) s))
                    (out ++ emitAll s r (RoomClosed "inactivity" r))
                    (delete r cat))
        as (s' & out' & Hrun & Hsids & Hap & Hdir & Hout); [done| | |].
      { simpl. by rewrite lookup_insert_eq. }
      { intros r' Hr'. rewrite lookup_delete_ne by (intros ->; done).
        apply Hin. by right. }
      exists s', out'. split; [done|]. split; [done|]. split; [done|].
      split; [by rewrite Hdir; simpl; rewrite insert_insert_eq|].
      intros d. rewrite Hout, elem_of_app. split.
      * intros [[?|Hd]|(r' & room' & Hr' & [Hne Hl]%lookup_delete_Some & Hi & Hd)].
        -- by left.
        -- right. exists r, room. split; [by left|]. done.
        -- right. exists r', room'. split; [by right|]. done.
      * intros [?|(r' & room' & [->|Hr']%elem_of_cons & Hl & Hi & Hd)].
        -- left. by left.
        -- left. by right.
        -- right. exists r', room'. split; [done|].
           split; [|done]. apply lookup_delete_Some. split; [|done].
           by intros ->.
    + edestruct (IH s out cat) as (s' & out' & Hrun & Hsids & Hap & Hdir & Hout);
        [done..| |].
      { intros r' Hr'. apply Hin. by right. }
      exists s', out'. split; [done|]. split; [done|]. split; [done|].
      split; [done|]. intros d. rewrite Hout. split.
      * intros [?|(r' & room' & Hr' & Hl & Hi & Hd)]; [by left|].
        right. exists r', room'. split; [by right|]. done.
      * intros [?|(r' & room' & [->|Hr']%elem_of_cons & Hl & Hi & Hd)].
        -- by left.
        -- assert (room' = room) as -> by congruence. done.
        -- right. by exists r', room'.
Qed.

Lemma keptRoom_all now (cat : gmap string Room.t) :
  filter (keptRoom now (elements (dom cat))) cat =
  filter (λ kv : string * Room.t, ¬ idleRoom now kv.2) cat.
Proof.
  apply map_filter_ext. intros r room Hr. unfold keptRoom. simpl.
  split; [|by right]. intros [Hnin|?]; [|done].
  destruct Hnin. apply elem_of_elements. by apply elem_of_dom_2 in Hr.
Qed.

Lemma sweepCategory_Some now g s out cat :
  gameRooms s !! g = Some cat →
  ∃ s' out',
    sweepCategory now (Some (s, out)) g = Some (s', out') ∧
    sids s' = sids s ∧ activePlayers s' = activePlayers s ∧
    (∀ g', gameRooms s' !! g' =
           if decide (g = g') then sweptCategory now cat
           else gameRooms s !! g') ∧
    (∀ d, d ∈ out' ↔
          d ∈ out ∨ ∃ r room, cat !! r = Some room ∧ idleRoom now room ∧
                     d ∈ emitAll s r (RoomClosed "inactivity" r)).
Proof.
  intros Hcat.
  destruct (sweepRoom_loop now g (elements (dom cat)) s out cat)
    as (s1 & out1 & Hrun & Hsids & Hap & Hdir & Hout);
    [apply NoDup_elements|done| |].
  { intros r Hr%elem_of_elements. by apply elem_of_dom. }
  rewrite keptRoom_all in Hdir.
  assert (∀ d, d ∈ out1 ↔
            d ∈ out ∨ ∃ r room, cat !! r = Some room ∧ idleRoom now room ∧
                       d ∈ emitAll s r (RoomClosed "inactivity" r)) as Hout'.
  { intros d. rewrite Hout. split.
    - intros [?|(r & room & _ & ?)]; [by left|]. right. by exists r, room.
    - intros [?|(r & room & Hr & ?)]; [by left|]. right. exists r, room.
      split; [|done]. apply elem_of_elements. by apply elem_of_dom_2 in Hr. }
  unfold sweepCategory. simpl. rewrite Hcat. simpl. rewrite Hrun. simpl.
  rewrite Hdir, lookup_insert_eq. simpl. unfold sweptCategory.
  destruct (decide (filter (λ kv : string * Room.t, ¬ idleRoom now kv.2) cat = ∅))
    as [Hemp|Hemp].
  - eexists _, _. split; [done|]. simpl. split; [done|]. split; [done|].
    split; [|done]. intros g'. simpl. by rewrite delete_insert_eq, lookup_delete.
  - exists s1, out1. split; [done|]. split; [done|]. split; [done|].
    split; [|done]. intros g'. by rewrite Hdir, lookup_insert.
Qed.

Lemma sweepCategory_loop now gs : ∀ s out,
  NoDup gs → (∀ g, g ∈ gs → is_Some (gameRooms s !! g)) →
  ∃ s' out',
    foldl (sweepCategory now) (Some (s, out)) gs = Some (s', out') ∧
    sids s' = sids s ∧ activePlayers s' = activePlayers s ∧
    (∀ g, gameRooms s' !! g =
          if decide (g ∈ gs) then gameRooms s !! g ≫= sweptCategory now
          else gameRooms s !! g) ∧
    (∀ d, d ∈ out' ↔
          d ∈ out ∨ ∃ g cat r room,
            g ∈ gs ∧ gameRooms s !! g = Some cat ∧ cat !! r = Some room ∧
            idleRoom now room ∧ d ∈ emitAll s r (RoomClosed "inactivity" r)).
Proof.
  induction gs as [|g gs IH]; intros s out Hnd Hin.
  - exists s, out. repeat split; try done.
    + by left.
    + intros [?|(g & cat & r & room & []%elem_of_nil & _)]. done.
  - apply NoDup_cons in Hnd as [Hg Hnd].
    destruct (Hin g) as [cat Hcat]; [by left|].
    destruct (sweepCategory_Some now g s out cat Hcat)
      as (s1 & out1 & Hrun1 & Hsids1 & Hap1 & Hdir1 & Hout1).
    destruct (IH s1 out1) as (s' & out' & Hrun & Hsids & Hap & Hdir & Hout);
      [done| |].
    { intros g' Hg'. rewrite Hdir1, decide_False by (intros ->; done).
      apply Hin. by right. }
    exists s', out'. cbn [foldl]. rewrite Hrun1.
    split; [done|]. split; [congruence|]. split; [congruence|]. split.
    + intros k. rewrite Hdir, !Hdir1. destruct (decide (g = k)) as [<-|Hne].
      * rewrite decide_False by done. rewrite decide_True by (by left).
        by rewrite Hcat.
      * destruct (decide (k ∈ gs)) as [Hk|Hk].
        -- by rewrite decide_True by (by right).
        -- rewrite decide_False; [done|]. rewrite not_elem_of_cons. done.
    + intros d. rewrite Hout, Hout1. split.
      * intros [[?|(r & room & Hr & Hi & Hd)]
               |(g' & cat' & r & room & Hg' & Hc & Hr & Hi & Hd)].
        -- by left.
        -- right. exists g, cat, r, room. split; [by left|]. done.
        -- right. exists g', cat', r, room. split; [by right|].
           rewrite Hdir1, decide_False in Hc by (intros ->; done).
           split; [done|]. split; [done|]. split; [done|].
           by rewrite <- (emitAll_sids s1 s).
      * intros [?|(g' & cat' & r & room & [->|Hg']%elem_of_cons & Hc & Hr & Hi & Hd)].
        -- left. by left.
        -- left. right. exists r, room. split; [congruence|]. done.
        -- right. exists g', cat', r, room. split; [done|].
           rewrite Hdir1, decide_False by (intros ->; done).
           split; [done|]. split; [done|]. split; [done|].
           by rewrite (emitAll_sids s1 s).
Qed.

(** The room sweep never fails, keeps the player records and the
    broadcast groups, and sweeps every category. *)
Lemma roomSweep_spec now s :
  ∃ s' out,
    roomSweep now s = Some (s', out) ∧
    sids s' = sids s ∧ activePlayers s' = activePlayers s ∧
    gameRooms s' = omap (sweptCategory now) (gameRooms s) ∧
    (∀ d, d ∈ out ↔ closedNotice now s d).
Proof.
  destruct (sweepCategory_loop now (elements (dom (gameRooms s))) s [])
    as (s' & out & Hrun & Hsids & Hap & Hdir & Hout); [apply NoDup_elements| |].
  { intros g Hg%elem_of_elements. by apply elem_of_dom. }
  exists s', out. split; [done|]. split; [done|]. split; [done|]. split.
  - apply map_eq. intros g. rewrite Hdir, lookup_omap. case_decide as Hg; [done|].
    rewrite elem_of_elements, not_elem_of_dom in Hg. by rewrite Hg.
  - intros d. rewrite Hout. unfold closedNotice. split.
    + intros [[]%elem_of_nil|(g & cat & r & room & _ & Hc & Hr & ?)].
      exists g, r, room. split; [|done]. apply lookupRoom_Some. eauto.
    + intros (g & r & room & (cat & Hc & Hr)%lookupRoom_Some & ?).
      right. exists g, cat, r, room. split; [|done].
      apply elem_of_elements. by apply elem_of_dom_2 in Hc.
Qed.

Lemma sweptCategory_Some now cat cat' :
  sweptCategory now cat = Some cat' ↔
  cat' = filter (λ kv : string * Room.t, ¬ idleRoom now kv.2) cat ∧ cat' ≠ ∅.
Proof.
  unfold sweptCategory. case_decide as Hemp; split.
  - done.
  - intros [-> ?]. done.
  - intros [= <-]. done.
  - intros [-> _]. done.
Qed.

(** A room survives the room sweep exactly when it is not idle. *)
Lemma lookupRoom_roomSweep now s s' out g r :
  roomSweep now s = Some (s', out) →
  lookupRoom s' g r =
  room ← lookupRoom s g r; if decide (idleRoom now room) then None else Some room.
Proof.
  intros Hrun.
  destruct (roomSweep_spec now s) as (s1 & out1 & Hrun1 & _ & _ & Hdir & _).
  assert (s1 = s') as -> by congruence.
  unfold lookupRoom. rewrite Hdir, lookup_omap.
  destruct (gameRooms s !! g) as [cat|]; simpl; [|done].
  unfold sweptCategory. case_decide as Hemp; simpl.
  - pose proof (map_lookup_filter
      (λ kv : string * Room.t, ¬ idleRoom now kv.2) cat r) as Hl.
    rewrite Hemp, lookup_empty in Hl.
    destruct (cat !! r) as [room|]; simpl in *; [|done].
    case_decide; [done|]. by rewrite option_guard_True in Hl.
  - rewrite map_lookup_filter. destruct (cat !! r) as [room|]; simpl; [|done].
    case_decide.
    + by rewrite option_guard_False by tauto.
    + by rewrite option_guard_True.
Qed.

Lemma Inv_roomSweep now s s' out :
  Inv s → roomSweep now s = Some (s', out) → Inv s'.
Proof.
  intros HI Hrun.
  destruct (roomSweep_spec now s) as (s1 & out1 & Hrun1 & Hsids & Hap & Hdir & _).
  assert (s1 = s') as -> by congruence.
  assert (∀ g r room, lookupRoom s' g r = Some room → lookupRoom s g r = Some room)
    as Hsub.
  { intros g r room. rewrite (lookupRoom_roomSweep now s s' out) by done.
    destruct (lookupRoom s g r) as [room'|]; simpl; [|done]. by case_decide. }
  split.
  - intros id. unfold live. rewrite Hap, Hsids. apply (inv_live s HI).
  - intros id p r. rewrite Hap, (members_sids s' s) by done. apply (inv_own s HI).
  - intros g r room id Hroom%Hsub Hin Hl. unfold live in Hl. rewrite Hsids in Hl.
    rewrite (members_sids s' s) by done. by eapply (inv_subs s HI).
  - intros g r room Hroom%Hsub. by eapply (inv_rooms s HI).
  - intros g cat'. rewrite Hdir, lookup_omap.
    destruct (gameRooms s !! g) as [cat|]; simpl; [|done].
    by intros [_ ?]%sweptCategory_Some.
Qed.

(** ** The order of the keys of [activePlayers] *)

Lemma arrival_recordState id g r st now s :
  arrival (recordState id g r st now s) = arrival s.
Proof. unfold recordState. by destruct (lookupRoom s g r). Qed.

Lemma arrival_stateUpdate s id r st now :
  arrival (stateUpdate id r st now s).1 = arrival s.
Proof.
  unfold stateUpdate. simpl. destruct (activePlayers s !! id) as [p|]; [|done].
  destruct (truthy (Player.roomId p)); [|done]. simpl.
  by rewrite arrival_recordState.
Qed.

Lemma arrival_gameEvent s id r ty d now :
  arrival (gameEvent id r ty d now s).1 = arrival s.
Proof.
  unfold gameEvent. simpl. destruct (activePlayers s !! id) as [p|]; [|done].
  by destruct (truthy (Player.roomId p)).
Qed.

Lemma arrival_joinGame id g roomId pd rnd now s s' out :
  joinGame id g roomId pd rnd now s = Some (s', out) → arrival s' = arrival s.
Proof.
  unfold joinGame. simpl. destruct (activePlayers s !! id); [|done].
  by intros [= <- _].
Qed.

Lemma arrival_leaveRoom s id now : arrival (leaveRoom id now s).1 = arrival s.
Proof.
  destruct (leaveRoom_cases s id now) as [->|(g & r & room & cat & Hh & Hcat)];
    [done|]. by rewrite (leaveRoom_held s id now g r room cat).
Qed.

Lemma arrival_disconnect id now s :
  arrival (disconnect id now s).1 = filter (λ k, k ≠ id) (arrival s).
Proof.
  rewrite disconnect_unfold. simpl.
  by rewrite (arrival_leaveRoom (closing id s)).
Qed.

(** A property of the state kept by every iteration is kept by a loop
    that stops at the first failure. *)
Lemma loop_preserves {A} (P : State → Prop)
    (f : option (State * list Delivery) → A → option (State * list Delivery))
    (l : list A) :
  (∀ a, f None a = None) →
  (∀ s out a s' out', P s → f (Some (s, out)) a = Some (s', out') → P s') →
  ∀ s out s' out',
    P s → foldl f (Some (s, out)) l = Some (s', out') → P s'.
Proof.
  intros Hnone Hstep. induction l as [|a l IH]; intros s out s' out' HP; simpl.
  - by intros [= <- _].
  - destruct (f (Some (s, out)) a) as [[s1 out1]|] eqn:Hf.
    + apply IH. by eapply Hstep.
    + assert (foldl f None l = None) as ->; [|done].
      clear -Hnone. induction l as [|b l IH]; simpl; [done|]. by rewrite Hnone.
Qed.

Lemma arrival_sweepRoom now g s out r s' out' :
  sweepRoom now g (Some (s, out)) r = Some (s', out') → arrival s' = arrival s.
Proof.
  unfold sweepRoom. simpl. destruct (lookupRoom s g r) as [room|]; simpl; [|done].
  case_decide; by intros [= <- _].
Qed.

Lemma arrival_sweepCategory now s out g s' out' :
  sweepCategory now (Some (s, out)) g = Some (s', out') → arrival s' = arrival s.
Proof.
  unfold sweepCategory. simpl.
  destruct (gameRooms s !! g) as [cat|]; simpl; [|done].
  destruct (foldl (sweepRoom now g) (Some (s, out)) (elements (dom cat)))
    as [[s1 out1]|] eqn:Hloop; simpl; [|done].
  assert (arrival s1 = arrival s) as Hs1.
  { refine (loop_preserves (λ x, arrival x = arrival s) (sweepRoom now g) _
              (λ _, eq_refl) _ s out s1 out1 eq_refl Hloop).
    intros x o a x' o' Hx Hstep. rewrite <- Hx. by eapply arrival_sweepRoom. }
  destruct (gameRooms s1 !! g) as [cat1|]; simpl; [|done].
  case_decide; intros [= <- _]; done.
Qed.

Lemma arrival_roomSweep now s s' out :
  roomSweep now s = Some (s', out) → arrival s' = arrival s.
Proof.
  unfold roomSweep. intros Hrun.
  refine (loop_preserves (λ x, arrival x = arrival s) (sweepCategory now) _
            (λ _, eq_refl) _ s [] s' out eq_refl Hrun).
  intros x o a x' o' Hx Hstep. rewrite <- Hx. by eapply arrival_sweepCategory.
Qed.

Lemma Ordered_same s s' :
  arrival s' = arrival s →
  (∀ id, is_Some (activePlayers s' !! id) ↔ is_Some (activePlayers s !! id)) →
  Ordered s → Ordered s'.
Proof.
  intros Ha Hp [Hnd Hin]. split; rewrite Ha; [done|].
  intros id. by rewrite Hin, Hp.
Qed.

Lemma Ordered_init start : Ordered (init start).
Proof.
  split; simpl; [constructor|]. intros id. rewrite lookup_empty.
  split; [by intros ?%elem_of_nil|by intros [? ?]].
Qed.

Lemma Ordered_connection s id now :
  Ordered s → activePlayers s !! id = None → Ordered (connection id now s).
Proof.
  intros [Hnd Hin] Hid. unfold connection, Ordered. simpl. rewrite Hid.
  assert (id ∉ arrival s) as Hni.
  { rewrite Hin, Hid. by intros [? ?]. }
  split.
  - apply NoDup_app. split; [done|]. split; [|apply NoDup_singleton].
    intros x Hx ->%list_elem_of_singleton. done.
  - intros id'. rewrite elem_of_app, list_elem_of_singleton, Hin.
    destruct (decide (id = id')) as [<-|Hne].
    + rewrite lookup_insert_eq. split; eauto.
    + rewrite lookup_insert_ne by done. naive_solver.
Qed.

Lemma Ordered_joinGame id g roomId pd rnd now s s' out :
  joinGame id g roomId pd rnd now s = Some (s', out) → Ordered s → Ordered s'.
Proof.
  intros Hjoin. apply Ordered_same; [by eapply arrival_joinGame|].
  destruct (joinGame_record _ _ _ _ _ _ _ _ _ Hjoin) as (p & Hp & ->).
  intros id'. destruct (decide (id = id')) as [<-|Hne].
  - rewrite lookup_insert_eq, Hp. split; eauto.
  - by rewrite lookup_insert_ne.
Qed.

Lemma is_Some_stateUpdate s id r st now id' :
  is_Some (activePlayers (stateUpdate id r st now s).1 !! id') ↔
  is_Some (activePlayers s !! id').
Proof.
  unfold stateUpdate. simpl.
  destruct (activePlayers s !! id) as [p|] eqn:Hp; [|done].
  destruct (truthy (Player.roomId p)); [|done]. simpl.
  rewrite activePlayers_recordState. simpl.
  destruct (decide (id = id')) as [<-|Hne].
  - rewrite lookup_insert_eq, Hp. split; eauto.
  - by rewrite lookup_insert_ne.
Qed.

Lemma is_Some_gameEvent s id r ty d now id' :
  is_Some (activePlayers (gameEvent id r ty d now s).1 !! id') ↔
  is_Some (activePlayers s !! id').
Proof.
  unfold gameEvent. simpl.
  destruct (activePlayers s !! id) as [p|] eqn:Hp; [|done].
  destruct (truthy (Player.roomId p)); [|done]. simpl.
  destruct (decide (id = id')) as [<-|Hne].
  - rewrite lookup_insert_eq, Hp. split; eauto.
  - by rewrite lookup_insert_ne.
Qed.

Lemma Ordered_stateUpdate s id r st now :
  Ordered s → Ordered (stateUpdate id r st now s).1.
Proof.
  apply Ordered_same; [apply arrival_stateUpdate|].
  intros id'. apply is_Some_stateUpdate.
Qed.

Lemma Ordered_gameEvent s id r ty d now :
  Ordered s → Ordered (gameEvent id r ty d now s).1.
Proof.
  apply Ordered_same; [apply arrival_gameEvent|].
  intros id'. apply is_Some_gameEvent.
Qed.

Lemma Ordered_disconnect s id now :
  Ordered s → Ordered (disconnect id now s).1.
Proof.
  intros [Hnd Hin]. split; rewrite arrival_disconnect.
  - by apply NoDup_filter.
  - intros id'. rewrite list_elem_of_filter, activePlayers_disconnect, Hin.
    unfold is_Some. setoid_rewrite lookup_delete_Some. naive_solver.
Qed.

Lemma Ordered_roomSweep now s s' out :
  roomSweep now s = Some (s', out) → Ordered s → Ordered s'.
Proof.
  intros Hrun. apply Ordered_same; [by eapply arrival_roomSweep|].
  destruct (roomSweep_spec now s) as (s1 & out1 & Hrun1 & _ & Hap & _).
  assert (s1 = s') as -> by congruence. intros id. by rewrite Hap.
Qed.

(** ** Where a lookup leaves the directory *)

Lemma inherited_null : inherited "null" = false.
Proof. reflexivity. Qed.

Lemma inherited_empty : inherited "" = false.
Proof. reflexivity. Qed.

Lemma find_lookupRoom s g r room :
  find s g r = FoundRoom room ↔ lookupRoom s g r = Some room.
Proof.
  unfold find, lookupRoom. destruct (gameRooms s !! g) as [cat|]; simpl.
  - destruct (cat !! r); [|destruct (inherited r)]; naive_solver.
  - destruct (inherited g); naive_solver.
Qed.

Lemma find_held s g r room :
  lookupRoom s g r = Some room → strays (find s g r) = false.
Proof. intros H%find_lookupRoom. by rewrite H. Qed.

Lemma find_plain s g r :
  inherited g = false → inherited r = false → strays (find s g r) = false.
Proof.
  intros Hg Hr. unfold find. rewrite Hg, Hr.
  destruct (gameRooms s !! g) as [cat|]; [|done]. by destruct (cat !! r).
Qed.

Lemma findForJoin_plain s g t :
  inherited g = false → inherited t = false →
  strays (findForJoin s g t) = false.
Proof.
  intros Hg Ht. unfold findForJoin. rewrite Hg, Ht.
  destruct (gameRooms s !! g) as [cat|]; [|done]. by apply find_plain.
Qed.

Lemma findForJoin_held s g t room :
  lookupRoom s g t = Some room → strays (findForJoin s g t) = false.
Proof.
  intros H. unfold findForJoin.
  pose proof H as (cat & -> & _)%lookupRoom_Some. by apply (find_held s g t room).
Qed.

Lemma findForJoin_names s g t :
  Plain s → strays (findForJoin s g t) = false →
  inherited g = false ∧ inherited t = false.
Proof.
  intros HP. unfold findForJoin, find.
  destruct (gameRooms s !! g) as [cat|] eqn:Hcat.
  - rewrite (plain_game s HP g cat Hcat).
    destruct (cat !! t) as [room|] eqn:Ht.
    + intros _. split; [done|]. eapply (plain_room s HP g t room).
      apply lookupRoom_Some. eauto.
    + by destruct (inherited t).
  - destruct (inherited g); [done|]. by destruct (inherited t).
Qed.

(** ** The handlers and the bodies *)

Lemma joinGameHandler_Done id data rnd now s s' out :
  joinGameHandler id data rnd now s = Done s' out →
  ∃ g roomId pd,
    data = Some (JoinData.Build (Some g) roomId pd) ∧
    strays (findForJoin s g (chooseRoomId roomId rnd)) = false ∧
    joinGame id g roomId pd rnd now s = Some (s', out).
Proof.
  unfold joinGameHandler. destruct data as [[go roomId pd]|]; [|done]. simpl.
  destruct go as [g|]; [|done].
  destruct (findForJoin s g (chooseRoomId roomId rnd)) eqn:Hf; try done.
  all: destruct (joinGame id g roomId pd rnd now s) as [[s1 o1]|] eqn:Hj;
    [|done].
  all: unfold completes; simpl; intros [= <- <-]; exists g, roomId, pd;
    by rewrite Hf.
Qed.

Lemma joinGameHandler_plain id g roomId pd rnd now s :
  strays (findForJoin s g (chooseRoomId roomId rnd)) = false →
  joinGameHandler id (Some (JoinData.Build (Some g) roomId pd)) rnd now s =
  match joinGame id g roomId pd rnd now s with
  | Some res => completes res
  | None => Throws
  end.
Proof.
  unfold joinGameHandler. simpl.
  by destruct (findForJoin s g (chooseRoomId roomId rnd)).
Qed.

(** A join by a connection that has its record returns whenever the
    lookup of its room stays in the directory. *)
Lemma joinGameHandler_joins id g roomId pd rnd now s p :
  activePlayers s !! id = Some p →
  strays (findForJoin s g (chooseRoomId roomId rnd)) = false →
  ∃ s' out,
    joinGame id g roomId pd rnd now s = Some (s', out) ∧
    joinGameHandler id (Some (JoinData.Build (Some g) roomId pd)) rnd now s
      = Done s' out.
Proof.
  intros Hp Hf.
  destruct (proj2 (joinGame_is_Some id g roomId pd rnd now s))
    as [[s' out] Hjoin]; [eauto|].
  exists s', out. split; [done|].
  rewrite joinGameHandler_plain by done. by rewrite Hjoin.
Qed.

Lemma joinGameHandler_Throws id g roomId pd rnd now s :
  findForJoin s g (chooseRoomId roomId rnd) = FoundMember →
  joinGameHandler id (Some (JoinData.Build (Some g) roomId pd)) rnd now s
    = Throws.
Proof. intros Hf. unfold joinGameHandler. simpl. by rewrite Hf. Qed.

Lemma stateUpdate_dropped s id r st now :
  hasRoom s id = false → stateUpdate id r st now s = (received s, []).
Proof.
  unfold hasRoom, stateUpdate. simpl.
  destruct (activePlayers s !! id) as [p|]; [|done]. by intros ->.
Qed.

Lemma gameEvent_dropped s id r ty d now :
  hasRoom s id = false → gameEvent id r ty d now s = (received s, []).
Proof.
  unfold hasRoom, gameEvent. simpl.
  destruct (activePlayers s !! id) as [p|]; [|done]. by intros ->.
Qed.

Lemma stateUpdateHandler_Done id data now s s' out :
  stateUpdateHandler id data now s = Done s' out →
  ∃ r st, stateUpdate id r st now s = (s', out).
Proof.
  unfold stateUpdateHandler. destruct data as [[r st]|]; [|done]. simpl.
  destruct (activePlayers s !! id) as [p|] eqn:Hp.
  - destruct (truthy (Player.roomId p)) eqn:Ht.
    + destruct r as [r|]; [|done].
      destruct (find s (key_of (Player.gameId p)) r); try done.
      all: unfold completes; intros [= <- <-]; exists r, st;
        by destruct (stateUpdate id r st now s).
    + intros [= <- <-]. exists "", st. apply stateUpdate_dropped.
      unfold hasRoom. by rewrite Hp.
  - intros [= <- <-]. exists "", st. apply stateUpdate_dropped.
    unfold hasRoom. by rewrite Hp.
Qed.

Lemma stateUpdateHandler_Done_named id r st now s s' out :
  stateUpdateHandler id (Some (UpdateData.Build (Some r) st)) now s
    = Done s' out →
  stateUpdate id r st now s = (s', out).
Proof.
  unfold stateUpdateHandler. simpl.
  destruct (activePlayers s !! id) as [p|] eqn:Hp.
  - destruct (truthy (Player.roomId p)) eqn:Ht.
    + destruct (find s (key_of (Player.gameId p)) r); try done.
      all: unfold completes; intros [= <- <-];
        by destruct (stateUpdate id r st now s).
    + intros [= <- <-]. apply stateUpdate_dropped.
      unfold hasRoom. by rewrite Hp.
  - intros [= <- <-]. apply stateUpdate_dropped.
    unfold hasRoom. by rewrite Hp.
Qed.

Lemma stateUpdateHandler_plain id r st now s p :
  activePlayers s !! id = Some p → truthy (Player.roomId p) = true →
  strays (find s (key_of (Player.gameId p)) r) = false →
  stateUpdateHandler id (Some (UpdateData.Build (Some r) st)) now s =
  completes (stateUpdate id r st now s).
Proof.
  intros Hp Ht. unfold stateUpdateHandler. simpl. rewrite Hp, Ht.
  by destruct (find s (key_of (Player.gameId p)) r).
Qed.

Lemma gameEventHandler_Done id data now s s' out :
  gameEventHandler id data now s = Done s' out →
  ∃ r ty d, gameEvent id r ty d now s = (s', out).
Proof.
  unfold gameEventHandler. destruct data as [[r ty d]|]; [|done]. simpl.
  destruct (hasRoom s id) eqn:Hr.
  - destruct r as [r|]; [|done]. unfold completes. intros [= <- <-].
    exists r, ty, d. by destruct (gameEvent id r ty d now s).
  - intros [= <- <-]. exists "", ty, d. by apply gameEvent_dropped.
Qed.

Lemma disconnectHandler_Done id now s s' out :
  disconnectHandler id now s = Done s' out → disconnect id now s = (s', out).
Proof.
  unfold disconnectHandler, completes.
  destruct (activePlayers s !! id) as [p|].
  - destruct (truthy (Player.roomId p) && truthy (Player.gameId p)).
    + destruct (find s _ _); try done.
      all: intros [= <- <-]; by destruct (disconnect id now s).
    + intros [= <- <-]; by destruct (disconnect id now s).
  - intros [= <- <-]; by destruct (disconnect id now s).
Qed.

Lemma disconnectHandler_Plain id now s :
  Plain s → disconnectHandler id now s = completes (disconnect id now s).
Proof.
  intros HP. unfold disconnectHandler.
  destruct (activePlayers s !! id) as [p|] eqn:Hp; [|done].
  destruct (truthy (Player.roomId p) && truthy (Player.gameId p)); [|done].
  destruct (plain_record s HP id p Hp) as (Hg & Hr & _).
  pose proof (find_plain s _ _ Hg Hr) as Hf.
  by destruct (find s _ _).
Qed.

Lemma disconnectHandler_held id now s g r room :
  held s id g r room → disconnectHandler id now s = completes (disconnect id now s).
Proof.
  intros (p & Hp & Hr & Hr' & Hg & Hg' & Hroom). unfold disconnectHandler.
  rewrite Hp, Hr, Hg.
  rewrite (proj2 (truthy_Some r) Hr'), (proj2 (truthy_Some g) Hg'). simpl.
  apply find_lookupRoom in Hroom. by rewrite Hroom.
Qed.

(** ** No directory key names a member of [Object.prototype] *)

Lemma Plain_init start : Plain (init start).
Proof.
  split.
  - intros g cat. simpl. by rewrite lookup_empty.
  - intros g r room. unfold lookupRoom. simpl. by rewrite lookup_empty.
  - intros id p. simpl. by rewrite lookup_empty.
Qed.

Lemma Plain_connection s id now : Plain s → Plain (connection id now s).
Proof.
  intros HP. split.
  - exact (plain_game s HP).
  - exact (plain_room s HP).
  - intros id' p. simpl. destruct (decide (id = id')) as [<-|Hne].
    + rewrite lookup_insert_eq. by intros [= <-].
    + rewrite lookup_insert_ne by done. apply (plain_record s HP).
Qed.

Lemma Plain_joinGame id g roomId pd rnd now s s' out :
  strays (findForJoin s g (chooseRoomId roomId rnd)) = false →
  joinGame id g roomId pd rnd now s = Some (s', out) → Plain s → Plain s'.
Proof.
  intros Hf Hjoin HP.
  destruct (findForJoin_names s g _ HP Hf) as [Hg Ht].
  destruct (joinGame_record _ _ _ _ _ _ _ _ _ Hjoin) as (p & Hp & Hap). split.
  - intros g' cat'. rewrite (joinGame_gameRooms _ _ _ _ _ _ _ _ _ Hjoin).
    case_decide as Heq; [by subst g'|]. apply (plain_game s HP).
  - intros g' r' room'. rewrite (joinGame_lookupRoom _ _ _ _ _ _ _ _ _ Hjoin).
    case_decide as Heq; [by destruct Heq as [_ <-]|]. apply (plain_room s HP).
  - intros id' p'. rewrite Hap. destruct (decide (id = id')) as [<-|Hne].
    + rewrite lookup_insert_eq. intros [= <-]. simpl. done.
    + rewrite lookup_insert_ne by done. apply (plain_record s HP).
Qed.

Lemma Plain_stateUpdate s id r st now :
  Plain s → Plain (stateUpdate id r st now s).1.
Proof.
  intros HP. unfold stateUpdate. simpl.
  destruct (activePlayers s !! id) as [p|] eqn:Hp; [|by destruct HP].
  destruct (truthy (Player.roomId p)); [|by destruct HP]. simpl.
  split.
  - intros g' cat'. simpl. intros (cat & Hcat & _)%gameRooms_recordState.
    by eapply (plain_game s HP).
  - intros g' r' room'. rewrite lookupRoom_stats.
    intros (room & Hroom & _)%lookupRoom_recordState.
    by eapply (plain_room s HP).
  - intros id' p'. simpl. rewrite activePlayers_recordState. simpl.
    destruct (decide (id = id')) as [<-|Hne].
    + rewrite lookup_insert_eq. intros [= <-]. simpl.
      by apply (plain_record s HP id p).
    + rewrite lookup_insert_ne by done. apply (plain_record s HP).
Qed.

Lemma Plain_gameEvent s id r ty d now :
  Plain s → Plain (gameEvent id r ty d now s).1.
Proof.
  intros HP. unfold gameEvent. simpl.
  destruct (activePlayers s !! id) as [p|] eqn:Hp; [|by destruct HP].
  destruct (truthy (Player.roomId p)); [|by destruct HP]. simpl.
  split.
  - exact (plain_game s HP).
  - exact (plain_room s HP).
  - intros id' p'. simpl. destruct (decide (id = id')) as [<-|Hne].
    + rewrite lookup_insert_eq. intros [= <-]. simpl.
      by apply (plain_record s HP id p).
    + rewrite lookup_insert_ne by done. apply (plain_record s HP).
Qed.

Lemma gameRooms_leaveRoom_dom s id now g' cat' :
  gameRooms (leaveRoom id now s).1 !! g' = Some cat' →
  is_Some (gameRooms s !! g').
Proof.
  destruct (leaveRoom_cases s id now) as [->|(g & r & room & cat & Hh & Hcat)];
    [eauto|].
  rewrite (leaveRoom_held s id now g r room cat) by done. simpl.
  rewrite directoryAfterLeave_lookup.
  destruct (decide (g = g')) as [<-|Hne]; simpl; eauto.
Qed.

Lemma Plain_disconnect s id now : Plain s → Plain (disconnect id now s).1.
Proof.
  intros HP. split.
  - intros g cat'. rewrite gameRooms_disconnect.
    intros [cat Hcat]%gameRooms_leaveRoom_dom. by eapply (plain_game s HP).
  - intros g r room'. unfold lookupRoom. rewrite gameRooms_disconnect.
    intros (room & Hroom & _)%lookupRoom_leaveRoom.
    by eapply (plain_room s HP).
  - intros id' p. rewrite activePlayers_disconnect.
    intros [_ Hp]%lookup_delete_Some. by eapply (plain_record s HP).
Qed.

Lemma Plain_roomSweep now s s' out :
  roomSweep now s = Some (s', out) → Plain s → Plain s'.
Proof.
  intros Hrun HP.
  destruct (roomSweep_spec now s) as (s1 & out1 & Hrun1 & _ & Hap & Hdir & _).
  assert (s1 = s') as -> by congruence. split.
  - intros g cat'. rewrite Hdir, lookup_omap.
    destruct (gameRooms s !! g) as [cat|] eqn:Hcat; simpl; [|done].
    intros _. by eapply (plain_game s HP).
  - intros g r room. rewrite (lookupRoom_roomSweep now s s' out) by done.
    destruct (lookupRoom s g r) as [room'|] eqn:Hroom; simpl; [|done].
    intros _. by eapply (plain_room s HP).
  - intros id p. rewrite Hap. apply (plain_record s HP).
Qed.

(** ** The player sweep *)

Lemma sweepPlayer_stuck now l o :
  (∀ s out, o ≠ Done s out) → foldl (sweepPlayer now) o l = o.
Proof.
  intros Ho. induction l as [|id l IH]; [done|]. cbn [foldl].
  destruct o as [s out| |]; [by destruct (Ho s out)|done..].
Qed.

Lemma closeIdle_stuck now l o :
  (∀ s out, o ≠ Done s out) → foldl (closeIdle now) o l = o.
Proof.
  intros Ho. induction l as [|id l IH]; [done|]. cbn [foldl].
  destruct o as [s out| |]; [by destruct (Ho s out)|done..].
Qed.

Lemma sweepPlayer_live now s out id p :
  activePlayers s !! id = Some p → live s id →
  sweepPlayer now (Done s out) id =
  if decide (now - Player.lastActivity p > INACTIVITY_TIMEOUT)
  then closeIdle now (Done s out) id else Done s out.
Proof.
  intros Hp Hl. unfold sweepPlayer. rewrite Hp.
  case_decide; [|done]. by rewrite decide_True by (by apply elem_of_dom).
Qed.

(** The loop of the player sweep closes the idle connections one after
    the other, each through the ['disconnect'] handler. *)
Lemma sweepPlayers_loop now s0 l : ∀ s out,
  NoDup l →
  (∀ id, id ∈ l → live s id ∧ is_Some (activePlayers s !! id) ∧
                  activePlayers s !! id = activePlayers s0 !! id) →
  foldl (sweepPlayer now) (Done s out) l =
  foldl (closeIdle now) (Done s out) (filter (idlePlayer now s0) l).
Proof.
  induction l as [|id l IH]; intros s out Hnd Hl; [done|].
  apply NoDup_cons in Hnd as [Hid Hnd].
  destruct (Hl id) as (Hlive & [p Hp] & Hp0); [by left|].
  cbn [foldl]. rewrite (sweepPlayer_live now s out id p Hp Hlive).
  assert (idlePlayer now s0 id ↔
          now - Player.lastActivity p > INACTIVITY_TIMEOUT) as Hidle
    by (unfold idlePlayer; by rewrite <- Hp0, Hp).
  rewrite filter_cons.
  destruct (decide (now - Player.lastActivity p > INACTIVITY_TIMEOUT));
    destruct (decide (idlePlayer now s0 id)); try tauto.
  - cbn [foldl]. unfold closeIdle at 1 3.
    destruct (disconnectHandler id now s) as [s1 o| |] eqn:Hd.
    + apply disconnectHandler_Done in Hd.
      apply IH; [done|]. intros id' Hid'.
      assert (id' ≠ id) as Hne by (intros ->; done).
      destruct (Hl id') as (Hl' & Hs' & He'); [by right|].
      pose proof (live_disconnect id now s id') as Hlv.
      pose proof (activePlayers_disconnect id now s) as Hap.
      rewrite Hd in Hlv, Hap. simpl in Hlv, Hap.
      rewrite Hap, lookup_delete_ne by done. split; [by apply Hlv|done].
    + by rewrite sweepPlayer_stuck, closeIdle_stuck.
    + by rewrite sweepPlayer_stuck, closeIdle_stuck.
  - apply IH; [done|]. intros id' Hid'. apply Hl. by right.
Qed.

Lemma sweepPlayers_closeIdle now s :
  Ordered s → (∀ id, is_Some (activePlayers s !! id) → live s id) →
  sweepPlayers now s =
  foldl (closeIdle now) (Done s []) (filter (idlePlayer now s) (arrival s)).
Proof.
  intros [Hnd Hin] Hlive. unfold sweepPlayers. apply sweepPlayers_loop; [done|].
  intros id Hid%Hin. split; [by apply Hlive|done].
Qed.

Lemma Sound_disconnect s id now : Sound s → Sound (disconnect id now s).1.
Proof.
  intros (HI & HO & HP). split; [by apply Inv_disconnect|].
  split; [by apply Ordered_disconnect|by apply Plain_disconnect].
Qed.

Lemma closeConnection_Sound now l : ∀ acc,
  Sound acc.1 → Sound (foldl (closeConnection now) acc l).1.
Proof.
  induction l as [|id l IH]; intros acc HI; [done|].
  simpl. apply IH. simpl. by apply Sound_disconnect.
Qed.

(** On a state of a run every one of these handlers returns. *)
Lemma closeIdle_Plain now l : ∀ acc,
  Plain acc.1 →
  foldl (closeIdle now) (Done acc.1 acc.2) l =
  completes (foldl (closeConnection now) acc l).
Proof.
  induction l as [|id l IH]; intros [s out] HP; [done|].
  cbn [foldl]. simpl in *. rewrite (disconnectHandler_Plain id now s HP).
  unfold completes at 1. unfold closeConnection at 2. simpl.
  apply (IH (_, _)). simpl. by apply Plain_disconnect.
Qed.

Lemma sweepPlayers_Sound now s :
  Sound s →
  sweepPlayers now s =
  completes (foldl (closeConnection now) (s, [])
               (filter (idlePlayer now s) (arrival s))).
Proof.
  intros (HI & HO & HP). rewrite sweepPlayers_closeIdle; [|done|].
  - by apply (closeIdle_Plain now _ (s, [])).
  - intros id. apply (inv_live s HI).
Qed.

Lemma playerSweep_Sound now s :
  Sound s →
  playerSweep now s =
  Some (foldl (closeConnection now) (s, [])
          (filter (idlePlayer now s) (arrival s))).
Proof.
  intros HS. unfold playerSweep. rewrite sweepPlayers_Sound by done.
  unfold completes. simpl. by destruct (foldl _ _ _).
Qed.

Lemma Sound_playerSweep now s s' out :
  Sound s → playerSweep now s = Some (s', out) → Sound s'.
Proof.
  intros HS. rewrite playerSweep_Sound by done. intros [= Heq].
  pose proof (closeConnection_Sound now
    (filter (idlePlayer now s) (arrival s)) (s, []) HS) as HS'.
  by rewrite Heq in HS'.
Qed.

Lemma Sound_roomSweep now s s' out :
  Sound s → roomSweep now s = Some (s', out) → Sound s'.
Proof.
  intros (HI & HO & HP) Hrun. split; [by eapply Inv_roomSweep|].
  split; [by eapply Ordered_roomSweep|by eapply Plain_roomSweep].
Qed.

Lemma cleanup_handler now s : cleanup now s = toOption (cleanupHandler now s).
Proof.
  unfold cleanup, cleanupHandler, playerSweep.
  destruct (sweepPlayers now s) as [s1 out1| |]; simpl; [|done..].
  by destruct (roomSweep now s1) as [[s2 out2]|].
Qed.

Lemma cleanupHandler_Done now s s' out :
  cleanupHandler now s = Done s' out ↔ cleanup now s = Some (s', out).
Proof.
  rewrite cleanup_handler. destruct (cleanupHandler now s); simpl; naive_solver.
Qed.

Lemma Sound_cleanup now s s' out :
  Sound s → cleanup now s = Some (s', out) → Sound s'.
Proof.
  intros HS. unfold cleanup.
  destruct (playerSweep now s) as [[s1 out1]|] eqn:H1; simpl; [|done].
  destruct (roomSweep now s1) as [[s2 out2]|] eqn:H2; simpl; [|done].
  intros [= <- _]. eapply Sound_roomSweep; [|done]. by eapply Sound_playerSweep.
Qed.

Lemma Sound_init start : Sound (init start).
Proof.
  split; [apply Inv_init|]. split; [apply Ordered_init|apply Plain_init].
Qed.

Lemma Sound_connection s id now :
  Sound s → unused s id → Sound (connection id now s).
Proof.
  intros (HI & HO & HP) Hun. split; [by apply Inv_connection|].
  split; [|by apply Plain_connection]. apply Ordered_connection; [done|].
  destruct Hun as (_ & Hsid & _).
  destruct (activePlayers s !! id) as [p|] eqn:Hp; [|done].
  assert (live s id) as [rs Hrs] by (apply (inv_live s HI); eauto). congruence.
Qed.

Lemma Sound_joinGame id g roomId pd rnd now s s' out :
  strays (findForJoin s g (chooseRoomId roomId rnd)) = false →
  joinGame id g roomId pd rnd now s = Some (s', out) → Sound s → Sound s'.
Proof.
  intros Hf Hjoin (HI & HO & HP). split; [by eapply Inv_joinGame|].
  split; [by eapply Ordered_joinGame|by eapply Plain_joinGame].
Qed.

Lemma Sound_stateUpdate s id r st now :
  Sound s → Sound (stateUpdate id r st now s).1.
Proof.
  intros (HI & HO & HP). split; [by apply Inv_stateUpdate|].
  split; [by apply Ordered_stateUpdate|by apply Plain_stateUpdate].
Qed.

Lemma Sound_gameEvent s id r ty d now :
  Sound s → Sound (gameEvent id r ty d now s).1.
Proof.
  intros (HI & HO & HP). split; [by apply Inv_gameEvent|].
  split; [by apply Ordered_gameEvent|by apply Plain_gameEvent].
Qed.

Lemma Sound_handle i now s s' out :
  Sound s → enabled i s → handle i now s = Done s' out → Sound s'.
Proof.
  intros HS Hen. destruct i; simpl in *.
  - intros [= <- _]. by apply Sound_connection.
  - intros (g & roomId & pd & _ & Hf & Hjoin)%joinGameHandler_Done.
    by eapply Sound_joinGame.
  - intros (r & st & Heq)%stateUpdateHandler_Done.
    pose proof (Sound_stateUpdate s id r st now HS) as H.
    by rewrite Heq in H.
  - intros (r & ty & d & Heq)%gameEventHandler_Done.
    pose proof (Sound_gameEvent s id r ty d now HS) as H.
    by rewrite Heq in H.
  - intros Heq%disconnectHandler_Done.
    pose proof (Sound_disconnect s id now HS) as H.
    by rewrite Heq in H.
  - intros Heq%cleanupHandler_Done. by eapply Sound_cleanup.
Qed.

(** Every state of a run satisfies the invariants. *)
Lemma reachable_Sound s : reachable s → Sound s.
Proof.
  induction 1 as [start|s i now s' out _ IH Hen Hrun].
  - apply Sound_init.
  - by eapply Sound_handle.
Qed.

Lemma reachable_Inv s : reachable s → Inv s.
Proof. by intros (? & _)%reachable_Sound. Qed.

(** The clean-up never throws on a state of a run. *)
Lemma cleanup_total now s : Sound s → is_Some (cleanup now s).
Proof.
  intros HS. unfold cleanup. rewrite playerSweep_Sound by done. simpl.
  destruct (foldl _ _ _) as [s1 out1].
  destruct (roomSweep_spec now s1) as (s2 & out2 & -> & _). simpl. eauto.
Qed.

(** ** Scripts reach reachable states *)

Lemma run_reachable script : ∀ s s',
  reachable s → run script s = Some s' → reachable s'.
Proof.
  induction script as [|[i now] rest IH]; intros s s' Hs; simpl.
  - by intros [= <-].
  - case_decide as Hen; [|done].
    destruct (handle i now s) as [s1 out| |] eqn:Hrun; simpl; [|done..].
    apply IH. by eapply reachable_step.
Qed.

Lemma lobby_run : run session (init 0) = Some lobby.
Proof. vm_compute. reflexivity. Qed.

Lemma lobby_reachable : reachable lobby.
Proof. eapply run_reachable; [apply (reachable_init 0)|apply lobby_run]. Qed.


(** * The relay *)



Lemma stateUpdateHandler_member_Throws s id r p st now :
  activePlayers s !! id = Some p → truthy (Player.roomId p) = true →
  find s (key_of (Player.gameId p)) r = FoundMember →
  stateUpdateHandler id (Some (UpdateData.Build (Some r) st)) now s = Throws.
Proof.
  intros Hp Ht Hf. unfold stateUpdateHandler. simpl. by rewrite Hp, Ht, Hf.
Qed.




(** C7 as stated fails: a [stateUpdate] or a [gameEvent] without payload
    from a connection without a recorded room is not dropped, the
    handler throws at line 178 or 212, before the guard. *)
Lemma bare_message_not_dropped :
  let s := connection "z" 30 lobby in
  hasRoom s "z" = false ∧
  stateUpdateHandler "z" None 31 s = Throws ∧
  gameEventHandler "z" None 31 s = Throws ∧
  stateUpdateHandler "z" None 31 s ≠ Done (received s) [] ∧
  gameEventHandler "z" None 31 s ≠ Done (received s) [].
Proof. intros s. repeat split; try (vm_compute; reflexivity); discriminate. Qed.

(** C7, amended.  A [stateUpdate] or a [gameEvent] that carries a
    payload, whatever is in it, from a connection without a recorded
    room is dropped: the handler returns, the directory, the player
    records and the broadcast groups are unchanged and nothing is sent
    to anyone, the sender included.  Only the counter of received
    messages moves. *)
Theorem dropped_without_room (s : State) (id : string) (upd : UpdateData.t)
    (evt : EventData.t) (now : Z) :
  hasRoom s id = false →
  stateUpdateHandler id (Some upd) now s = Done (received s) [] ∧
  gameEventHandler id (Some evt) now s = Done (received s) [] ∧
  gameRooms (received s) = gameRooms s ∧
  activePlayers (received s) = activePlayers s ∧
  sids (received s) = sids s ∧
  arrival (received s) = arrival s ∧
  serverStats (received s) = Stats.received (serverStats s).
Proof.
  unfold hasRoom, stateUpdateHandler, gameEventHandler, hasRoom. intros Hno.
  destruct (activePlayers s !! id) as [p|]; [|done].
  by rewrite Hno.
Qed.

Lemma dropped_without_room_witness :
  let s := connection "z" 30 lobby in
  hasRoom s "z" = false ∧
  stateUpdateHandler "z"
    (Some (UpdateData.Build (Some "4FZYO8") {["x" := JNum 9]})) 31 s
    = Done (received s) [] ∧
  gameEventHandler "z" (Some (EventData.Build None "hit" JNull)) 31 s
    = Done (received s) [].
Proof.
  intros s.
  assert (hasRoom s "z" = false) as Hno by (vm_compute; reflexivity).
  split; [exact Hno|].
  destruct (dropped_without_room s "z"
              (UpdateData.Build (Some "4FZYO8") {["x" := JNum 9]})
              (EventData.Build None "hit" JNull) 31 Hno)
    as (Hu & He & _).
  split; [exact Hu|exact He].
Defined.



(** * Joining *)

Lemma openRoom_tracked s g t now : Room.players (openRoom s g t now) = tracked s g t.
Proof.
  unfold openRoom, tracked, lookupRoom.
  destruct (gameRooms s !! g) as [cat|]; simpl.
  - by destruct (cat !! t).
  - by rewrite lookup_empty.
Qed.

Lemma filter_all {A} (P : A → Prop) `{∀ x, Decision (P x)} (l : list A) :
  Forall P l → filter P l = l.
Proof.
  induction 1 as [|x l Hx _ IH]; [done|].
  by rewrite filter_cons_True, IH.
Qed.

Lemma filter_none {A} (P : A → Prop) `{∀ x, Decision (P x)} (l : list A) :
  Forall (λ x, ¬ P x) l → filter P l = [].
Proof.
  induction 1 as [|x l Hx _ IH]; [done|].
  by rewrite filter_cons_False, IH.
Qed.

(** The loop visits the players tracked before the join, the joiner
    apart, once each. *)
Lemma backfill_insert id snap (ps : gmap string Attrs) :
  backfill id (<[id := snap]> ps) ≡ₚ
  (λ kv : string * Attrs, (id, PlayerJoined kv.1 kv.2))
    <$> map_to_list (delete id ps).
Proof.
  unfold backfill. rewrite <- insert_delete_eq.
  rewrite map_to_list_insert by apply lookup_delete_eq.
  rewrite filter_cons_False by (simpl; tauto).
  rewrite filter_all; [done|].
  apply Forall_forall. intros [i x] [Hne _]%elem_of_map_to_list%lookup_delete_Some.
  simpl. congruence.
Qed.

Lemma playerJoinedFor_backfill id ps : playerJoinedFor id (backfill id ps) = backfill id ps.
Proof.
  unfold playerJoinedFor. apply filter_all, Forall_forall.
  intros d (kv & -> & _)%list_elem_of_fmap. done.
Qed.

Lemma playerJoinedFor_emitOthers s id r m : playerJoinedFor id (emitOthers s id r m) = [].
Proof.
  unfold playerJoinedFor. apply filter_none, Forall_forall.
  intros [to m'] (_ & _ & Hne)%elem_of_emitOthers [Heq _]. done.
Qed.

(** C2.  The [playerJoined] messages that a join sends to the joiner
    are, up to order, one for each player the room tracked before the
    join other than the joiner, carrying that player's stored snapshot:
    as many messages as such players, no message twice, none missing,
    none about the joiner.  The join handler returns whenever the lookup
    of the room stays in the directory; where the room id names a member
    inherited from [Object.prototype] it throws before any message is
    sent, and no player was tracked under that id. *)
Theorem joiner_backfill (s : State) (id g : string) (roomId : option string)
    (pd : Attrs) (rnd : string) (now : Z) (p : Player.t) :
  activePlayers s !! id = Some p →
  let t := chooseRoomId roomId rnd in
  let pre := delete id (tracked s g t) in
  let join :=
    joinGameHandler id (Some (JoinData.Build (Some g) roomId pd)) rnd now s in
  (strays (findForJoin s g t) = false → ∃ s' out, join = Done s' out) ∧
  (findForJoin s g t = FoundMember → join = Throws ∧ pre = ∅) ∧
  ∀ s' out,
    join = Done s' out →
    playerJoinedFor id out ≡ₚ
      (λ kv : string * Attrs, (id, PlayerJoined kv.1 kv.2)) <$> map_to_list pre ∧
    length (playerJoinedFor id out) = size pre ∧
    NoDup (playerJoinedFor id out) ∧
    (∀ i snap, (id, PlayerJoined i snap) ∈ out ↔ pre !! i = Some snap) ∧
    (∀ snap, (id, PlayerJoined id snap) ∉ out).
Proof.
  intros Hp t pre join. subst join. split; [|split].
  - intros Hf. rewrite joinGameHandler_plain by done.
    destruct (proj2 (joinGame_is_Some id g roomId pd rnd now s))
      as [[s' out] Hjoin]; [eauto|].
    rewrite Hjoin. by exists s', out.
  - intros Hf. split.
    + unfold joinGameHandler. simpl. fold t. by rewrite Hf.
    + subst pre. unfold tracked, lookupRoom.
      revert Hf. unfold findForJoin, find.
      destruct (gameRooms s !! g) as [cat|]; simpl.
      * destruct (cat !! t); [done|]. intros _. apply delete_empty.
      * intros _. apply delete_empty.
  - intros s' out (g0 & roomId0 & pd0 & [= <- <- <-] & _ & Hjoin)%joinGameHandler_Done.
    pose proof (joinGame_out id g roomId pd rnd now s s' out Hjoin) as Hout.
    rewrite openRoom_tracked in Hout. fold t in Hout.
    set (ps := <[id := joinSnapshot id now pd]> (tracked s g t)) in Hout.
    assert (playerJoinedFor id out = backfill id ps) as Hfor.
    { rewrite Hout. unfold playerJoinedFor at 1. rewrite !filter_app.
      fold (playerJoinedFor id (emitOthers s' id t (PlayerJoined id pd))).
      fold (playerJoinedFor id (backfill id ps)).
      rewrite playerJoinedFor_emitOthers, playerJoinedFor_backfill.
      by rewrite filter_cons_False by (simpl; intros [_ ?]; done). }
    assert (playerJoinedFor id out ≡ₚ
              (λ kv : string * Attrs, (id, PlayerJoined kv.1 kv.2))
                <$> map_to_list pre) as Hperm
      by (rewrite Hfor; apply backfill_insert).
    assert (∀ i snap, (id, PlayerJoined i snap) ∈ playerJoinedFor id out ↔
                      pre !! i = Some snap) as Hmem.
    { intros i snap. rewrite Hperm, list_elem_of_fmap. split.
      - intros ([i' x] & [= -> ->] & Hin). by apply elem_of_map_to_list.
      - intros Hin. exists (i, snap). split; [done|].
        by apply elem_of_map_to_list. }
    assert (∀ i snap, (id, PlayerJoined i snap) ∈ out ↔
                      (id, PlayerJoined i snap) ∈ playerJoinedFor id out) as Hsame.
    { intros i snap. unfold playerJoinedFor. rewrite list_elem_of_filter.
      naive_solver. }
    split; [done|]. split; [|split; [|split]].
    + by rewrite Hperm, length_fmap, length_map_to_list.
    + rewrite Hperm. apply NoDup_fmap_2; [|apply NoDup_map_to_list].
      intros [i x] [j y] [= -> ->]. done.
    + intros i snap. by rewrite Hsame, Hmem.
    + intros snap. rewrite Hsame, Hmem. subst pre. by rewrite lookup_delete_eq.
Qed.

Lemma joiner_backfill_witness :
  let s := connection "d" 16 lobby in
  let p := Player.Build "d" None None 16 16 in
  let join :=
    joinGameHandler "d" (Some (JoinData.Build (Some "demo") (Some "4FZYO8") ∅))
                    "" 17 s in
  activePlayers s !! "d" = Some p ∧
  strays (findForJoin s "demo" "4FZYO8") = false ∧
  size (delete "d" (tracked s "demo" "4FZYO8")) = 2%nat ∧
  ∃ s' out,
    join = Done s' out ∧
    length (playerJoinedFor "d" out) = 2%nat ∧
    NoDup (playerJoinedFor "d" out).
Proof.
  intros s p join.
  assert (activePlayers s !! "d" = Some p) as Hp by (vm_compute; reflexivity).
  assert (strays (findForJoin s "demo" "4FZYO8") = false) as Hf
    by (vm_compute; reflexivity).
  split; [exact Hp|]. split; [exact Hf|]. split; [vm_compute; reflexivity|].
  destruct (joiner_backfill s "d" "demo" (Some "4FZYO8") ∅ "" 17 p Hp)
    as (Hdone & _ & Hall).
  destruct (Hdone Hf) as (s' & out & Hjoin).
  destruct (Hall s' out Hjoin) as (_ & Hlen & Hnd & _).
  exists s', out. split; [exact Hjoin|]. split; [|exact Hnd].
  etrans; [exact Hlen|]. vm_compute. reflexivity.
Defined.

(** * Leaving *)

Lemma disconnect_held s id now g r room cat :
  held s id g r room → gameRooms s !! g = Some cat →
  disconnect id now s =
  (removePlayer id
     (setGameRooms (directoryAfterLeave id g r cat room (gameRooms s))
        (setStats (Stats.sent 1 (serverStats (closing id s))) (closing id s))),
   emitOthers (closing id s) id r (PlayerLeft id now)).
Proof.
  intros Hh Hcat. rewrite disconnect_unfold.
  by rewrite (leaveRoom_held (closing id s) id now g r room cat).
Qed.

Lemma members_closing s id r to :
  to ∈ members (closing id s) r ↔ to ∈ members s r ∧ to ≠ id.
Proof.
  rewrite !elem_of_members. simpl. split.
  - intros (rs & [Hne Hrs]%lookup_delete_Some & Hr). eauto.
  - intros [(rs & Hrs & Hr) Hne]. exists rs. by rewrite lookup_delete_ne.
Qed.

(** C3.  When a connection whose record names the room [(g, r)] of the
    directory disconnects: its record is removed; it is removed from the
    players of the room; the subscribers of the room's group other than
    itself, and so in a reachable state every remaining player of the
    room that is still connected, get [playerLeft]; the room is deleted
    exactly when no player is left in it; the category is deleted
    exactly when no room is left in it; no other room changes.  Rooms
    that track a player and categories that hold a room stay so. *)
Theorem disconnect_cascade (s : State) (id g r : string) (room : Room.t)
    (cat : gmap string Room.t) (now : Z) :
  held s id g r room → gameRooms s !! g = Some cat →
  let s' := (disconnect id now s).1 in
  let out := (disconnect id now s).2 in
  let ps := delete id (Room.players room) in
  let cat' :=
    if decide (ps = ∅) then delete r cat
    else <[r := Room.setPlayers ps room]> cat in
  activePlayers s' !! id = None ∧
  lookupRoom s' g r =
    (if decide (ps = ∅) then None else Some (Room.setPlayers ps room)) ∧
  gameRooms s' !! g = (if decide (cat' = ∅) then None else Some cat') ∧
  (∀ to m, (to, m) ∈ out ↔ m = PlayerLeft id now ∧ to ∈ members s r ∧ to ≠ id) ∧
  (reachable s → ∀ to, to ∈ dom ps → live s to → (to, PlayerLeft id now) ∈ out) ∧
  (∀ g' r', (g', r') ≠ (g, r) → lookupRoom s' g' r' = lookupRoom s g' r') ∧
  (roomsNonEmpty s → roomsNonEmpty s') ∧
  (categoriesNonEmpty s → categoriesNonEmpty s').
Proof.
  intros Hh Hcat s' out ps cat'.
  destruct (held_category s id g r room Hh) as (cat0 & Hcat0 & Hr).
  assert (cat0 = cat) as -> by congruence.
  assert (gameRooms s' !! g = (if decide (cat' = ∅) then None else Some cat'))
    as Hg.
  { subst s'. rewrite (disconnect_held s id now g r room cat Hh Hcat). simpl.
    rewrite directoryAfterLeave_lookup. by rewrite decide_True. }
  assert (∀ to m, (to, m) ∈ out ↔
            m = PlayerLeft id now ∧ to ∈ members s r ∧ to ≠ id) as Hout.
  { intros to m. subst out.
    rewrite (disconnect_held s id now g r room cat Hh Hcat). simpl.
    rewrite elem_of_emitOthers, members_closing. naive_solver. }
  split; [|split; [|split; [done|split; [done|split; [|split; [|split]]]]]].
  - subst s'. rewrite activePlayers_disconnect. apply lookup_delete_eq.
  - unfold lookupRoom. rewrite Hg. subst cat'.
    destruct (decide (ps = ∅)) as [Hps|Hps].
    + case_decide; simpl; [done|]. apply lookup_delete_eq.
    + rewrite decide_False by apply insert_non_empty. simpl.
      apply lookup_insert_eq.
  - intros Hreach to Hto Hlive. apply Hout. subst ps.
    apply elem_of_dom in Hto as [x [Hne Hx]%lookup_delete_Some].
    split; [done|]. split; [|done].
    eapply (inv_subs s (reachable_Inv s Hreach) g r room); eauto.
    apply lookupRoom_Some. eauto.
  - intros g' r' Hne. subst s'. unfold lookupRoom.
    rewrite (disconnect_held s id now g r room cat Hh Hcat). simpl.
    rewrite directoryAfterLeave_lookup.
    destruct (decide (g = g')) as [<-|Hg']; simpl; [|done].
    assert (r ≠ r') as Hr' by congruence. rewrite Hcat. simpl.
    destruct (decide (delete id (Room.players room) = ∅)).
    + destruct (decide (delete r cat = ∅)) as [Hemp|Hemp]; simpl.
      * rewrite <- (lookup_delete_ne cat r r') by done.
        by rewrite Hemp, lookup_empty.
      * by rewrite lookup_delete_ne.
    + rewrite decide_False by apply insert_non_empty. simpl.
      by rewrite lookup_insert_ne.
  - intros Hne g' r' room'. subst s'. unfold lookupRoom.
    rewrite gameRooms_disconnect.
    by apply (roomsNonEmpty_leaveRoom (closing id s)).
  - intros Hne g' cat''. subst s'. rewrite gameRooms_disconnect.
    by apply (categoriesNonEmpty_leaveRoom (closing id s)).
Qed.

Lemma disconnect_cascade_witness :
  let room := Room.Build "LOBBY2" "demo"
                {["c" := joinSnapshot "c" 15 ∅]} 15 15 in
  let cat := default ∅ (gameRooms lobby !! "demo") in
  held lobby "c" "demo" "LOBBY2" room ∧
  gameRooms lobby !! "demo" = Some cat ∧
  activePlayers (disconnect "c" 50 lobby).1 !! "c" = None ∧
  lookupRoom (disconnect "c" 50 lobby).1 "demo" "LOBBY2" = None ∧
  is_Some (lookupRoom (disconnect "c" 50 lobby).1 "demo" "4FZYO8").
Proof.
  intros room cat.
  assert (held lobby "c" "demo" "LOBBY2" room) as Hh.
  { exists (Player.Build "c" (Some "LOBBY2") (Some "demo") 12 12).
    split; [vm_compute; reflexivity|]. split; [reflexivity|].
    split; [discriminate|]. split; [reflexivity|]. split; [discriminate|].
    vm_compute. reflexivity. }
  assert (gameRooms lobby !! "demo" = Some cat) as Hcat by (vm_compute; reflexivity).
  destruct (disconnect_cascade lobby "c" "demo" "LOBBY2" room cat 50 Hh Hcat)
    as (Hgone & Hroom & _ & _ & _ & Hother & _).
  split; [exact Hh|]. split; [exact Hcat|]. split; [exact Hgone|].
  split.
  - etrans; [exact Hroom|]. vm_compute. reflexivity.
  - rewrite (Hother "demo" "4FZYO8") by discriminate.
    vm_compute. eauto.
Defined.

(** * Snapshots *)

Lemma snapshotOf_Some s g r id snap :
  snapshotOf s g r id = Some snap ↔
  ∃ room, lookupRoom s g r = Some room ∧ Room.players room !! id = Some snap.
Proof.
  unfold snapshotOf. destruct (lookupRoom s g r) as [room|]; simpl.
  - split; [eauto|]. by intros (? & [= <-] & ?).
  - split; [done|]. by intros (? & ? & ?).
Qed.

(** One update of a member, addressed to the room that stores its
    snapshot under the game of its record. *)
Lemma stateUpdate_snapshot s id g r p snap st now :
  activePlayers s !! id = Some p → truthy (Player.roomId p) = true →
  Player.gameId p = Some g → snapshotOf s g r id = Some snap →
  activePlayers (stateUpdate id r st now s).1 !! id = Some (Player.touch now p) ∧
  snapshotOf (stateUpdate id r st now s).1 g r id = Some (mergeState now st snap).
Proof.
  intros Hp Ht Hg (room & Hroom & Hsnap)%snapshotOf_Some.
  unfold stateUpdate. simpl. rewrite Hp, Ht. simpl. rewrite Hg. simpl. split.
  - rewrite activePlayers_recordState. simpl. apply lookup_insert_eq.
  - unfold snapshotOf. rewrite lookupRoom_stats. unfold recordState.
    change (lookupRoom (setActivePlayers ?a (setStats ?b s)) g r)
      with (lookupRoom s g r).
    rewrite Hroom. simpl. rewrite Hsnap. rewrite lookupRoom_setRoom.
    rewrite decide_True by done. simpl. apply lookup_insert_eq.
Qed.

Lemma applyUpdates_snapshot id g r us : ∀ s p snap,
  activePlayers s !! id = Some p → truthy (Player.roomId p) = true →
  Player.gameId p = Some g → snapshotOf s g r id = Some snap →
  snapshotOf (applyUpdates id r us s) g r id =
  Some (foldl (λ acc u, mergeState u.2 u.1 acc) snap us).
Proof.
  induction us as [|[st now] us IH]; intros s p snap Hp Ht Hg Hsnap; [done|].
  destruct (stateUpdate_snapshot s id g r p snap st now Hp Ht Hg Hsnap)
    as [Hp' Hsnap'].
  unfold applyUpdates. cbn [foldl]. fold (applyUpdates id r us).
  by apply (IH _ (Player.touch now p)).
Qed.

Lemma mergeState_lookup now st snap k :
  mergeState now st snap !! k =
  if decide ("lastActivity" = k) then Some (JNum now)
  else from_option Some (snap !! k) (st !! k).
Proof.
  unfold mergeState. rewrite lookup_insert. case_decide; [done|].
  rewrite lookup_union. by destruct (st !! k), (snap !! k).
Qed.

Lemma merged_lastWrite k us : ∀ snap,
  k ≠ "lastActivity" →
  foldl (λ acc u, mergeState u.2 u.1 acc) snap us !! k =
  from_option Some (snap !! k) (lastWrite k us).
Proof.
  induction us as [|[st now] us IH]; intros snap Hk; [done|].
  cbn [foldl lastWrite]. rewrite IH by done.
  destruct (lastWrite k us) as [v|]; [done|]. simpl.
  rewrite mergeState_lookup. by rewrite decide_False by done.
Qed.

Lemma merged_lastActivity us : ∀ snap,
  foldl (λ acc u, mergeState u.2 u.1 acc) snap us !! "lastActivity" =
  from_option (λ u : Attrs * Z, Some (JNum u.2)) (snap !! "lastActivity") (last us).
Proof.
  induction us as [|[st now] us IH]; intros snap; [done|].
  cbn [foldl]. rewrite IH, last_cons. destruct (last us) as [u|]; [done|].
  simpl. rewrite mergeState_lookup. by rewrite decide_True.
Qed.

Lemma joinSnapshot_lookup id now pd k :
  joinSnapshot id now pd !! k =
  from_option Some
    (({["id" := JStr id; "joinedAt" := JNum now; "lastActivity" := JNum now]}
        : Attrs) !! k)
    (pd !! k).
Proof.
  unfold joinSnapshot. rewrite lookup_union.
  destruct (pd !! k) as [v|]; simpl.
  - by destruct (_ !! k).
  - by rewrite (left_id None _).
Qed.

(** The handler returns on every update that a member addresses to the
    room storing its snapshot, and does what its body does. *)
Lemma relayUpdates_snapshot id g r us : ∀ s p snap,
  activePlayers s !! id = Some p → truthy (Player.roomId p) = true →
  Player.gameId p = Some g → snapshotOf s g r id = Some snap →
  relayUpdates id r us s = Some (applyUpdates id r us s).
Proof.
  induction us as [|[st now] us IH]; intros s p snap Hp Ht Hg Hsnap; [done|].
  destruct (stateUpdate_snapshot s id g r p snap st now Hp Ht Hg Hsnap)
    as [Hp' Hsnap'].
  pose proof Hsnap as (room & Hroom & _)%snapshotOf_Some.
  cbn [relayUpdates fst snd].
  rewrite (stateUpdateHandler_plain id r st now s p Hp Ht)
    by (rewrite Hg; simpl; by apply (find_held s g r room)).
  unfold completes, applyUpdates. cbn [foldl]. fold (applyUpdates id r us).
  by apply (IH _ (Player.touch now p) (mergeState now st snap)).
Qed.

(** C6, amended.  A member joins and then sends successive state updates
    addressed to the room it joined.  Every one of them is handled, and
    the stored snapshot is then the shallow merge of the snapshot stored
    at join time (the join payload laid over the server's [id],
    [joinedAt] and [lastActivity] stamps) with the update payloads, last
    write winning on every key other than [lastActivity]: such a key
    carries the value of the most recent update that set it, and keeps
    its prior value if none did.  The key [lastActivity] holds the time
    at which the most recent update was handled. *)
Theorem snapshot_last_write_wins (s : State) (id g : string)
    (roomId : option string) (pd : Attrs) (rnd : string) (t0 : Z)
    (s1 : State) (out : list Delivery) (us : list (Attrs * Z)) :
  joinGameHandler id (Some (JoinData.Build (Some g) roomId pd)) rnd t0 s
    = Done s1 out →
  chooseRoomId roomId rnd ≠ "" →
  let r := chooseRoomId roomId rnd in
  let joined := joinSnapshot id t0 pd in
  snapshotOf s1 g r id = Some joined ∧
  (∀ k, joined !! k =
        from_option Some
          (({["id" := JStr id; "joinedAt" := JNum t0;
              "lastActivity" := JNum t0]} : Attrs) !! k)
          (pd !! k)) ∧
  ∃ s2 snap,
    relayUpdates id r us s1 = Some s2 ∧
    snapshotOf s2 g r id = Some snap ∧
    mergedLastWriteBut joined us snap ∧
    snap !! "lastActivity" =
      from_option (λ u : Attrs * Z, Some (JNum u.2))
                  (joined !! "lastActivity") (last us).
Proof.
  intros (g0 & roomId0 & pd0 & [= <- <- <-] & _ & Hjoin)%joinGameHandler_Done
    Hr r joined.
  destruct (joinGame_record id g roomId pd rnd t0 s s1 out Hjoin)
    as (p0 & Hp0 & Hap).
  assert (snapshotOf s1 g r id = Some joined) as Hsnap.
  { apply snapshotOf_Some. eexists. split.
    - rewrite (joinGame_lookupRoom id g roomId pd rnd t0 s s1 out Hjoin).
      by rewrite decide_True.
    - simpl. apply lookup_insert_eq. }
  assert (activePlayers s1 !! id = Some (Player.setMembership r g p0)) as Hp1
    by (rewrite Hap; apply lookup_insert_eq).
  assert (truthy (Player.roomId (Player.setMembership r g p0)) = true) as Ht
    by (simpl; by apply truthy_Some).
  split; [done|]. split; [apply joinSnapshot_lookup|].
  exists (applyUpdates id r us s1),
         (foldl (λ acc u, mergeState u.2 u.1 acc) joined us).
  split; [|split; [|split]].
  - by eapply (relayUpdates_snapshot id g r us s1).
  - by eapply (applyUpdates_snapshot id g r us s1).
  - intros k Hk. by apply merged_lastWrite.
  - apply merged_lastActivity.
Qed.

Lemma snapshot_last_write_wins_witness :
  let s := connection "d" 16 lobby in
  let us := [({["x" := JNum 1; "y" := JNum 1]}, 20); ({["x" := JNum 2]}, 21)] in
  let join :=
    joinGameHandler "d"
      (Some (JoinData.Build (Some "demo") (Some "4FZYO8")
               {["name" := JStr "dee"]})) "" 17 s in
  ∃ s1 out s2 snap,
    join = Done s1 out ∧
    chooseRoomId (Some "4FZYO8") "" ≠ "" ∧
    relayUpdates "d" "4FZYO8" us s1 = Some s2 ∧
    snapshotOf s2 "demo" "4FZYO8" "d" = Some snap ∧
    snap !! "x" = Some (JNum 2) ∧ snap !! "y" = Some (JNum 1) ∧
    snap !! "name" = Some (JStr "dee") ∧ snap !! "id" = Some (JStr "d") ∧
    snap !! "lastActivity" = Some (JNum 21).
Proof.
  intros s us join.
  assert (∃ s1 out, join = Done s1 out) as (s1 & out & Hjoin).
  { subst join. rewrite joinGameHandler_plain by (vm_compute; reflexivity).
    destruct (proj2 (joinGame_is_Some "d" "demo" (Some "4FZYO8")
                       {["name" := JStr "dee"]} "" 17 s))
      as [[s1 out] ->]; [vm_compute; eauto|]. by exists s1, out. }
  assert (chooseRoomId (Some "4FZYO8") "" ≠ "") as Hr by discriminate.
  destruct (snapshot_last_write_wins s "d" "demo" (Some "4FZYO8")
              {["name" := JStr "dee"]} "" 17 s1 out us Hjoin Hr)
    as (_ & _ & s2 & snap & Hrun & Hsnap & Hkeys & Hact).
  exists s1, out, s2, snap. split; [exact Hjoin|]. split; [exact Hr|].
  split; [exact Hrun|]. split; [exact Hsnap|].
  split; [exact (Hkeys "x" ltac:(discriminate))|].
  split; [exact (Hkeys "y" ltac:(discriminate))|].
  split; [exact (Hkeys "name" ltac:(discriminate))|].
  split; [exact (Hkeys "id" ltac:(discriminate))|].
  exact Hact.
Defined.

(** C6 as stated fails in two ways.  On the key [lastActivity]: an
    update that does not set it changes it, and an update that sets it
    does not keep the value it gave.  And on an update that the member
    addresses to another room: it is relayed there, and the stored
    snapshot of the member keeps the value the update overwrote.
    [stored r us] is the snapshot of [a] in its room after it has sent
    the updates [us] addressed to the room [r]. *)
Lemma snapshot_not_last_write :
  let prior := joinSnapshot "a" 13 {["x" := JNum 1]} in
  let quiet := [(({["x" := JNum 2]} : Attrs), 100)] in
  let loud := [(({["lastActivity" := JNum 7]} : Attrs), 100)] in
  let stored r us :=
    relayUpdates "a" r us lobby ≫= λ s', snapshotOf s' "demo" "4FZYO8" "a" in
  snapshotOf lobby "demo" "4FZYO8" "a" = Some prior ∧
  prior !! "lastActivity" = Some (JNum 13) ∧
  prior !! "x" = Some (JNum 1) ∧
  (lastWrite "lastActivity" quiet = None ∧
   (stored "4FZYO8" quiet ≫= λ snap, snap !! "lastActivity") = Some (JNum 100) ∧
   ∀ snap, stored "4FZYO8" quiet = Some snap →
           ¬ mergedLastWrite prior quiet snap) ∧
  (lastWrite "lastActivity" loud = Some (JNum 7) ∧
   (stored "4FZYO8" loud ≫= λ snap, snap !! "lastActivity") = Some (JNum 100) ∧
   ∀ snap, stored "4FZYO8" loud = Some snap →
           ¬ mergedLastWrite prior loud snap) ∧
  (lastWrite "x" quiet = Some (JNum 2) ∧
   (toOption (stateUpdateHandler "a"
                (Some (UpdateData.Build (Some "LOBBY2") {["x" := JNum 2]}))
                100 lobby) ≫= λ res, Some res.2)
     = Some [("c", StateUpdateMsg "a" {["x" := JNum 2]} 100)] ∧
   (stored "LOBBY2" quiet ≫= λ snap, snap !! "x") = Some (JNum 1) ∧
   ∀ snap, stored "LOBBY2" quiet = Some snap →
           ¬ mergedLastWriteBut prior quiet snap).
Proof.
  intros prior quiet loud stored.
  assert ((stored "4FZYO8" quiet ≫= λ snap, snap !! "lastActivity")
          = Some (JNum 100)) as Hquiet by (vm_compute; reflexivity).
  assert ((stored "4FZYO8" loud ≫= λ snap, snap !! "lastActivity")
          = Some (JNum 100)) as Hloud by (vm_compute; reflexivity).
  assert ((stored "LOBBY2" quiet ≫= λ snap, snap !! "x") = Some (JNum 1))
    as Haway by (vm_compute; reflexivity).
  assert (prior !! "lastActivity" = Some (JNum 13)) as Hstamp
    by (vm_compute; reflexivity).
  assert (prior !! "x" = Some (JNum 1)) as Hx by (vm_compute; reflexivity).
  split; [vm_compute; reflexivity|]. split; [exact Hstamp|]. split; [exact Hx|].
  split; [|split].
  - split; [reflexivity|]. split; [exact Hquiet|].
    intros snap Hsnap Hmerged. rewrite Hsnap in Hquiet. simpl in Hquiet.
    specialize (Hmerged "lastActivity"). rewrite Hquiet, Hstamp in Hmerged.
    discriminate Hmerged.
  - split; [reflexivity|]. split; [exact Hloud|].
    intros snap Hsnap Hmerged. rewrite Hsnap in Hloud. simpl in Hloud.
    specialize (Hmerged "lastActivity"). rewrite Hloud in Hmerged.
    discriminate Hmerged.
  - split; [reflexivity|]. split; [vm_compute; reflexivity|].
    split; [exact Haway|].
    intros snap Hsnap Hmerged. rewrite Hsnap in Haway. simpl in Haway.
    specialize (Hmerged "x" ltac:(discriminate)). rewrite Haway in Hmerged.
    discriminate Hmerged.
Qed.

(** * The activity monitor *)

Lemma closeConnection_gone now l : ∀ acc id,
  id ∈ l ∨ (activePlayers acc.1 !! id = None ∧ ¬ live acc.1 id) →
  activePlayers (foldl (closeConnection now) acc l).1 !! id = None ∧
  ¬ live (foldl (closeConnection now) acc l).1 id.
Proof.
  induction l as [|x l IH]; intros acc id Hid.
  - destruct Hid as [[]%elem_of_nil|?]. done.
  - cbn [foldl]. apply IH. unfold closeConnection. simpl.
    rewrite activePlayers_disconnect, live_disconnect.
    destruct (decide (id = x)) as [->|Hne].
    + right. rewrite lookup_delete_eq. naive_solver.
    + destruct Hid as [[->|?]%elem_of_cons|[Hnone Hdead]]; [done|by left|].
      right. rewrite lookup_delete_ne by done. naive_solver.
Qed.

(** C8.  The player sweep walks the keys of [activePlayers] in the order
    they were set.  Where every record belongs to a live socket, as in
    every state of a run, it is the run of the ['disconnect'] handler,
    the one a transport close triggers, over the connections whose
    record has been idle for longer than the timeout, in that order; no
    record is deleted on the side.  In a state of a run every one of
    these handlers returns: the sweep is the disconnect cascade over the
    idle connections, and afterwards none of them has a record or a live
    connection. *)
Theorem sweep_disconnects_idle (s : State) (now : Z) :
  Ordered s → (∀ id, is_Some (activePlayers s !! id) → live s id) →
  let idle := filter (idlePlayer now s) (arrival s) in
  let closed := foldl (closeConnection now) (s, []) idle in
  sweepPlayers now s = foldl (closeIdle now) (Done s []) idle ∧
  (∀ id, idlePlayer now s id ↔ id ∈ idle) ∧
  (reachable s →
   sweepPlayers now s = Done closed.1 closed.2 ∧
   ∀ id, idlePlayer now s id →
         activePlayers closed.1 !! id = None ∧ ¬ live closed.1 id).
Proof.
  intros HO Hlive idle closed.
  assert (∀ id, idlePlayer now s id ↔ id ∈ idle) as Hidle.
  { intros id. subst idle. rewrite list_elem_of_filter, (proj2 HO id).
    split; [|tauto]. intros Hid. split; [done|]. unfold idlePlayer in Hid.
    by destruct (activePlayers s !! id). }
  split; [by apply sweepPlayers_closeIdle|]. split; [done|].
  intros Hreach. split.
  - by apply sweepPlayers_Sound, reachable_Sound.
  - intros id Hid%Hidle. apply closeConnection_gone. by left.
Qed.

Lemma sweep_disconnects_idle_witness :
  let now := 10 + INACTIVITY_TIMEOUT + 5 in
  let s := (stateUpdate "b" "4FZYO8" ∅ now lobby).1 in
  reachable s ∧
  Ordered s ∧ (∀ id, is_Some (activePlayers s !! id) → live s id) ∧
  arrival s = ["a"; "b"; "c"] ∧
  sweepPlayers now s = foldl (closeIdle now) (Done s []) ["a"; "c"] ∧
  (∃ s' out,
     sweepPlayers now s = Done s' out ∧
     out = [("b", PlayerLeft "a" now)] ∧
     arrival s' = ["b"] ∧
     dom (activePlayers s') = {["b"]} ∧
     lookupRoom s' "demo" "LOBBY2" = None).
Proof.
  intros now s.
  assert (reachable s) as Hreach.
  { apply (reachable_step lobby
             (InStateUpdate "b" (Some (UpdateData.Build (Some "4FZYO8") ∅)))
             now s (stateUpdate "b" "4FZYO8" ∅ now lobby).2 lobby_reachable).
    - vm_compute. eauto.
    - change (stateUpdateHandler "b" (Some (UpdateData.Build (Some "4FZYO8") ∅))
                now lobby = Done s (stateUpdate "b" "4FZYO8" ∅ now lobby).2).
      rewrite (stateUpdateHandler_plain "b" "4FZYO8" ∅ now lobby
                 (Player.Build "b" (Some "4FZYO8") (Some "demo") 11 11))
        by (vm_compute; reflexivity).
      reflexivity. }
  destruct (reachable_Sound s Hreach) as (HI & HO & _).
  assert (∀ id, is_Some (activePlayers s !! id) → live s id) as Hlive
    by (intros id; apply (inv_live s HI)).
  split; [exact Hreach|]. split; [exact HO|]. split; [exact Hlive|].
  split; [vm_compute; reflexivity|].
  destruct (sweep_disconnects_idle s now HO Hlive) as (Hrun & _ & Hdone).
  assert (filter (idlePlayer now s) (arrival s) = ["a"; "c"]) as Hidle
    by (vm_compute; reflexivity).
  rewrite Hidle in Hrun. split; [exact Hrun|].
  destruct (Hdone Hreach) as [Hclosed _].
  eexists _, _. split; [exact Hclosed|].
  rewrite Hidle.
  split; [vm_compute; reflexivity|]. split; [vm_compute; reflexivity|].
  split; vm_compute; reflexivity.
Defined.

Lemma recordState_missing id g r st now s :
  lookupRoom s g r = None → recordState id g r st now s = s.
Proof. unfold recordState. by intros ->. Qed.

Lemma stateUpdate_missing_room s id r p st now :
  activePlayers s !! id = Some p → truthy (Player.roomId p) = true →
  lookupRoom s (key_of (Player.gameId p)) r = None →
  gameRooms (stateUpdate id r st now s).1 = gameRooms s.
Proof.
  intros Hp Ht Hroom. unfold stateUpdate. simpl. rewrite Hp, Ht. simpl.
  by rewrite recordState_missing.
Qed.

(** C10.  The room sweep closes an idle room: every subscriber of its
    group is sent [roomClosed] and the room leaves the directory.  The
    player records and the broadcast groups are left as they were, so a
    member whose record names the closed room still passes the guard of
    the relay handlers: its next [stateUpdate] or [gameEvent] addressed
    to that room is broadcast as before, and the directory is not
    written, no snapshot being there to merge into. *)
Theorem room_sweep_keeps_records (s : State) (now : Z) (id g r : string)
    (p : Player.t) (room : Room.t) (st : Attrs) (ty : string) (d : jsval)
    (later : Z) :
  activePlayers s !! id = Some p →
  Player.roomId p = Some r → r ≠ "" → Player.gameId p = Some g →
  lookupRoom s g r = Some room → idleRoom now room →
  ∃ s' out,
    roomSweep now s = Some (s', out) ∧
    (∀ to, to ∈ members s r → (to, RoomClosed "inactivity" r) ∈ out) ∧
    lookupRoom s' g r = None ∧
    activePlayers s' = activePlayers s ∧
    sids s' = sids s ∧
    hasRoom s' id = true ∧
    (stateUpdate id r st later s').2
      = emitOthers s id r (StateUpdateMsg id st later) ∧
    gameRooms (stateUpdate id r st later s').1 = gameRooms s' ∧
    (gameEvent id r ty d later s').2
      = emitAll s r (GameEventMsg id ty d later) ∧
    gameRooms (gameEvent id r ty d later s').1 = gameRooms s'.
Proof.
  intros Hp Hr Hr' Hg Hroom Hidle.
  destruct (roomSweep_spec now s) as (s' & out & Hrun & Hsids & Hap & Hdir & Hout).
  assert (truthy (Player.roomId p) = true) as Ht
    by (rewrite Hr; by apply truthy_Some).
  assert (activePlayers s' !! id = Some p) as Hp' by (by rewrite Hap).
  assert (lookupRoom s' g r = None) as Hgone.
  { rewrite (lookupRoom_roomSweep now s s' out g r Hrun), Hroom. simpl.
    by rewrite decide_True. }
  exists s', out. split; [done|]. split.
  { intros to Hto. apply Hout. exists g, r, room.
    split; [done|]. split; [done|]. by apply elem_of_emitAll. }
  split; [done|]. split; [done|]. split; [done|]. split.
  { unfold hasRoom. by rewrite Hp'. }
  split.
  { rewrite (stateUpdate_member s' id r p st later Hp' Ht).
    by apply emitOthers_sids. }
  split.
  { apply (stateUpdate_missing_room s' id r p st later Hp' Ht).
    by rewrite Hg. }
  split.
  { rewrite (gameEvent_member s' id r p ty d later Hp' Ht).
    by apply emitAll_sids. }
  apply gameEvent_gameRooms.
Qed.

Lemma room_sweep_keeps_records_witness :
  let now := 15 + INACTIVITY_TIMEOUT + 1 in
  let p := Player.Build "a" (Some "4FZYO8") (Some "demo") 10 10 in
  let room := Room.Build "4FZYO8" "demo"
                (<["b" := joinSnapshot "b" 14 ∅]>
                   {["a" := joinSnapshot "a" 13 {["x" := JNum 1]}]}) 13 13 in
  activePlayers lobby !! "a" = Some p ∧
  Player.roomId p = Some "4FZYO8" ∧ "4FZYO8" ≠ "" ∧
  Player.gameId p = Some "demo" ∧
  lookupRoom lobby "demo" "4FZYO8" = Some room ∧ idleRoom now room ∧
  ∃ s' out,
    roomSweep now lobby = Some (s', out) ∧
    ("b", RoomClosed "inactivity" "4FZYO8") ∈ out ∧
    gameRooms s' = ∅ ∧
    (stateUpdate "a" "4FZYO8" {["x" := JNum 5]} (now + 1) s').2
      = [("b", StateUpdateMsg "a" {["x" := JNum 5]} (now + 1))] ∧
    gameRooms (stateUpdate "a" "4FZYO8" {["x" := JNum 5]} (now + 1) s').1 = ∅.
Proof.
  intros now p room.
  assert (activePlayers lobby !! "a" = Some p) as Hp by (vm_compute; reflexivity).
  assert (lookupRoom lobby "demo" "4FZYO8" = Some room) as Hroom
    by (vm_compute; reflexivity).
  assert (idleRoom now room) as Hidle by (vm_compute; reflexivity).
  assert ("4FZYO8" ≠ "") as Hne by discriminate.
  split; [exact Hp|]. split; [reflexivity|]. split; [exact Hne|].
  split; [reflexivity|]. split; [exact Hroom|]. split; [exact Hidle|].
  destruct (room_sweep_keeps_records lobby now "a" "demo" "4FZYO8" p room
              {["x" := JNum 5]} "hit" JNull (now + 1)
              Hp eq_refl Hne eq_refl Hroom Hidle)
    as (s' & out & Hrun & Hnotice & _ & _ & _ & _ & Hupd & Hdir & _).
  exists s', out. split; [exact Hrun|]. split.
  { apply Hnotice. apply elem_of_members. eexists.
    split; vm_compute; reflexivity. }
  assert (roomSweep now lobby ≫= (λ r, Some (gameRooms r.1)) = Some ∅) as Hempty
    by (vm_compute; reflexivity).
  rewrite Hrun in Hempty. simpl in Hempty. injection Hempty as Hempty.
  split; [exact Hempty|]. split.
  - etrans; [exact Hupd|]. vm_compute. reflexivity.
  - etrans; [exact Hdir|]. exact Hempty.
Defined.

(** C4.  What the handlers do to the activity stamps, on the session
    above.  [b] joined the existing room at time 14: the room kept the
    stamp 13 of its creation and the record of [b] the stamp 11 of its
    connection.  Then [a] and [b] each send a [gameEvent] at time [t]:
    their records are stamped [t], the room keeps 13, and the clean-up
    one millisecond later closes the room as idle under two members
    that were active a millisecond before. *)
Theorem gameEvent_leaves_room_stamp :
  let t := 13 + INACTIVITY_TIMEOUT in
  let s1 := (gameEvent "a" "4FZYO8" "hit" JNull t lobby).1 in
  let s2 := (gameEvent "b" "4FZYO8" "hit" JNull t s1).1 in
  Room.lastActivity <$> lookupRoom lobby "demo" "4FZYO8" = Some 13 ∧
  Player.lastActivity <$> activePlayers lobby !! "b" = Some 11 ∧
  Player.lastActivity <$> activePlayers s2 !! "a" = Some t ∧
  Player.lastActivity <$> activePlayers s2 !! "b" = Some t ∧
  Room.lastActivity <$> lookupRoom s2 "demo" "4FZYO8" = Some 13 ∧
  (cleanup (t + 1) s2 ≫= λ res,
     Some (res.2, dom (activePlayers res.1), lookupRoom res.1 "demo" "4FZYO8"))
  = Some ([("a", RoomClosed "inactivity" "4FZYO8");
           ("b", RoomClosed "inactivity" "4FZYO8")],
          {["a"; "b"]}, None).
Proof. repeat split; vm_compute; reflexivity. Qed.

(** * Room ids *)

Lemma length_toUpperCase s : String.length (toUpperCase s) = String.length s.
Proof. induction s as [|c s IH]; simpl; congruence. Qed.

Lemma length_substring0 n : ∀ s,
  String.length (String.substring 0 n s) = Nat.min n (String.length s).
Proof.
  induction n as [|n IH]; intros [|c s]; simpl; try done.
  by rewrite IH.
Qed.

Lemma length_substring a n : ∀ s,
  String.length (String.substring a n s) = Nat.min n (String.length s - a).
Proof.
  induction a as [|a IH]; intros s.
  - rewrite length_substring0. f_equal. lia.
  - destruct s as [|c s]; simpl.
    + by destruct n.
    + apply IH.
Qed.

(** The generated token is never longer than six characters, and is
    shorter when the rendering of the random number has fewer than six
    digits after the point. *)
Lemma generateRoomId_length r :
  String.length (generateRoomId r) = Nat.min 6 (String.length r - 2).
Proof.
  unfold generateRoomId, js_substring.
  by rewrite length_toUpperCase, length_substring.
Qed.

Lemma upper_ascii_base36 c :
  is_base36_lower c = true → is_base36_upper (upper_ascii c) = true.
Proof.
  destruct c as [[] [] [] [] [] [] [] []]; vm_compute; congruence.
Qed.

Lemma string_forall_substring0 p n : ∀ s,
  string_forall p s = true → string_forall p (String.substring 0 n s) = true.
Proof.
  induction n as [|n IH]; intros [|c s]; simpl; try done.
  intros [Hc Hs]%andb_true_iff. by rewrite Hc, IH.
Qed.

Lemma toUpperCase_base36 s :
  string_forall is_base36_lower s = true →
  string_forall is_base36_upper (toUpperCase s) = true.
Proof.
  induction s as [|c s IH]; simpl; [done|].
  intros [Hc Hs]%andb_true_iff. by rewrite upper_ascii_base36, IH.
Qed.

(** On a rendering ["0." digits] the token is drawn from the uppercase
    base-36 alphabet, and has six characters when there are at least six
    digits. *)
Lemma generateRoomId_digits ds :
  string_forall is_base36_lower ds = true →
  string_forall is_base36_upper (generateRoomId ("0." +:+ ds)) = true ∧
  ((6 ≤ String.length ds)%nat → String.length (generateRoomId ("0." +:+ ds)) = 6%nat).
Proof.
  intros Hds. split.
  - unfold generateRoomId, js_substring. simpl.
    by apply toUpperCase_base36, string_forall_substring0.
  - intros Hlen. rewrite generateRoomId_length.
    change (String.length ("0." +:+ ds)) with (S (S (String.length ds))). lia.
Qed.

(** C5.  When [Math.random()] returns one half, whose rendering in base
    36 is "0.i", the generated room id is the one-character token "I",
    and a join without a room id lands in the room "I".  When it returns
    zero, rendered "0", the generated id is the empty string: the join
    is acknowledged for the room "" and the connection then has no
    recorded room for the relay handlers. *)
Theorem generateRoomId_short :
  let s := connection "d" 16 lobby in
  toString36 1 2 = "0.i" ∧
  generateRoomId (toString36 1 2) = "I" ∧
  String.length (generateRoomId (toString36 1 2)) = 1%nat ∧
  (joinGame "d" "demo" None ∅ (toString36 1 2) 17 s ≫= λ res, Some res.2)
    = Some [("d", RoomJoined "I" "demo" "d" 1)] ∧
  generateRoomId (toString36 0 1) = "" ∧
  (joinGame "d" "demo" None ∅ (toString36 0 1) 17 s ≫= λ res,
     Some (res.2, hasRoom res.1 "d"))
    = Some ([("d", RoomJoined "" "demo" "d" 1)], false).
Proof. repeat split; vm_compute; reflexivity. Qed.



(** * Consistency of the records along every run *)

Lemma gauges_stats st s :
  Stats.connections st = Stats.connections (serverStats s) →
  Stats.peakConcurrentPlayers st = Stats.peakConcurrentPlayers (serverStats s) →
  gauges (setStats st s) = gauges s.
Proof. unfold gauges. simpl. by intros -> ->. Qed.

Lemma gauges_recordState id g r st now s :
  gauges (recordState id g r st now s) = gauges s.
Proof. unfold recordState. by destruct (lookupRoom s g r). Qed.

Lemma gauges_stateUpdate s id r st now :
  gauges (stateUpdate id r st now s).1 = gauges s.
Proof.
  unfold stateUpdate. simpl. destruct (activePlayers s !! id) as [p|]; [|done].
  destruct (truthy (Player.roomId p)); [|done]. simpl.
  unfold gauges. simpl.
  change (serverStats (recordState ?a ?b ?c ?d ?e ?f))
    with (serverStats (recordState a b c d e f)).
  pose proof (gauges_recordState id (key_of (Player.gameId p)) r st now
    (setActivePlayers (<[id:=Player.touch now p]> (activePlayers s))
       (setStats (Stats.received (serverStats s)) s))) as H.
  unfold gauges in H. simpl in H. by injection H as -> ->.
Qed.

Lemma gauges_gameEvent s id r ty d now :
  gauges (gameEvent id r ty d now s).1 = gauges s.
Proof.
  unfold gameEvent. simpl. destruct (activePlayers s !! id) as [p|]; [|done].
  by destruct (truthy (Player.roomId p)).
Qed.

Lemma gauges_joinGame id g roomId pd rnd now s s' out :
  joinGame id g roomId pd rnd now s = Some (s', out) → gauges s' = gauges s.
Proof.
  unfold joinGame. simpl. destruct (activePlayers s !! id); [|done].
  by intros [= <- _].
Qed.

Lemma gauges_leaveRoom s id now : gauges (leaveRoom id now s).1 = gauges s.
Proof.
  destruct (leaveRoom_cases s id now) as [->|(g & r & room & cat & Hh & Hcat)];
    [done|]. by rewrite (leaveRoom_held s id now g r room cat).
Qed.

Lemma gauges_disconnect id now s : gauges (disconnect id now s).1 = gauges s.
Proof.
  rewrite disconnect_unfold. unfold gauges. simpl.
  pose proof (gauges_leaveRoom (closing id s) id now) as H.
  unfold gauges in H. simpl in H. by injection H as -> ->.
Qed.

Lemma gauges_sweepRoom now g s out r s' out' :
  sweepRoom now g (Some (s, out)) r = Some (s', out') → gauges s' = gauges s.
Proof.
  unfold sweepRoom. simpl. destruct (lookupRoom s g r) as [room|]; simpl; [|done].
  case_decide; by intros [= <- _].
Qed.

Lemma gauges_sweepCategory now s out g s' out' :
  sweepCategory now (Some (s, out)) g = Some (s', out') → gauges s' = gauges s.
Proof.
  unfold sweepCategory. simpl.
  destruct (gameRooms s !! g) as [cat|]; simpl; [|done].
  destruct (foldl (sweepRoom now g) (Some (s, out)) (elements (dom cat)))
    as [[s1 out1]|] eqn:Hloop; simpl; [|done].
  assert (gauges s1 = gauges s) as Hs1.
  { refine (loop_preserves (λ x, gauges x = gauges s) (sweepRoom now g) _
              (λ _, eq_refl) _ s out s1 out1 eq_refl Hloop).
    intros x o a x' o' Hx Hstep. rewrite <- Hx. by eapply gauges_sweepRoom. }
  destruct (gameRooms s1 !! g) as [cat1|]; simpl; [|done].
  case_decide; intros [= <- _]; done.
Qed.

Lemma gauges_roomSweep now s s' out :
  roomSweep now s = Some (s', out) → gauges s' = gauges s.
Proof.
  unfold roomSweep. intros Hrun.
  refine (loop_preserves (λ x, gauges x = gauges s) (sweepCategory now) _
            (λ _, eq_refl) _ s [] s' out eq_refl Hrun).
  intros x o a x' o' Hx Hstep. rewrite <- Hx. by eapply gauges_sweepCategory.
Qed.

Lemma gauges_closeConnection now l : ∀ acc,
  gauges (foldl (closeConnection now) acc l).1 = gauges acc.1.
Proof.
  induction l as [|id l IH]; intros acc; [done|].
  cbn [foldl]. rewrite IH. apply gauges_disconnect.
Qed.

Lemma size_closeConnection now l : ∀ acc,
  (size (activePlayers (foldl (closeConnection now) acc l).1)
   ≤ size (activePlayers acc.1))%nat.
Proof.
  induction l as [|id l IH]; intros acc; [done|].
  cbn [foldl]. etrans; [apply IH|]. simpl. rewrite activePlayers_disconnect.
  apply map_subseteq_size, delete_subseteq.
Qed.

Lemma Consistent_init start : Consistent (init start).
Proof.
  split.
  - intros g r room. unfold lookupRoom. simpl. by rewrite lookup_empty.
  - intros id p. simpl. by rewrite lookup_empty.
  - intros id p. simpl. by rewrite lookup_empty.
  - simpl. by rewrite map_size_empty.
Qed.

Lemma Consistent_connection s id now :
  Inv s → unused s id → Consistent s → Consistent (connection id now s).
Proof.
  intros HI (_ & Hsid & _) HC.
  assert (activePlayers s !! id = None) as Hfresh.
  { apply eq_None_not_Some. rewrite (inv_live s HI). unfold live.
    rewrite Hsid. by intros [? ?]. }
  split.
  - exact (cons_room s HC).
  - intros id' p. simpl. destruct (decide (id = id')) as [<-|Hne].
    + rewrite lookup_insert_eq. by intros [= <-].
    + rewrite lookup_insert_ne by done. apply (cons_id s HC).
  - intros id' p. simpl. destruct (decide (id = id')) as [<-|Hne].
    + rewrite lookup_insert_eq. intros [= <-]. simpl. split; by intros [? ?].
    + rewrite lookup_insert_ne by done. apply (cons_pair s HC).
  - destruct (cons_peak s HC) as [Hsize Hpeak]. simpl.
    rewrite map_size_insert_None by done.
    destruct (Nat.ltb_spec (Stats.peakConcurrentPlayers (serverStats s))
                           (S (size (activePlayers s)))); lia.
Qed.

Lemma Consistent_joinGame id g roomId pd rnd now s s' out :
  joinGame id g roomId pd rnd now s = Some (s', out) →
  Consistent s → Consistent s'.
Proof.
  intros Hjoin HC.
  destruct (joinGame_record id g roomId pd rnd now s s' out Hjoin)
    as (p & Hp & Hap).
  split.
  - intros g' r' room'.
    rewrite (joinGame_lookupRoom id g roomId pd rnd now s s' out Hjoin).
    case_decide as Heq; [|apply (cons_room s HC)].
    destruct Heq as [<- <-]. intros [= <-]. simpl.
    unfold openRoom.
    destruct (default ∅ (gameRooms s !! g) !! chooseRoomId roomId rnd)
      as [room|] eqn:Hroom; simpl; [|done].
    apply (cons_room s HC). apply lookupRoom_Some.
    destruct (gameRooms s !! g) as [cat|]; simpl in Hroom; [eauto|].
    by rewrite lookup_empty in Hroom.
  - intros id' p'. rewrite Hap. destruct (decide (id = id')) as [<-|Hne].
    + rewrite lookup_insert_eq. intros [= <-]. simpl. by apply (cons_id s HC).
    + rewrite lookup_insert_ne by done. apply (cons_id s HC).
  - intros id' p'. rewrite Hap. destruct (decide (id = id')) as [<-|Hne].
    + rewrite lookup_insert_eq. intros [= <-]. simpl. split; eauto.
    + rewrite lookup_insert_ne by done. apply (cons_pair s HC).
  - pose proof (gauges_joinGame id g roomId pd rnd now s s' out Hjoin) as Hg.
    unfold gauges in Hg. injection Hg as -> ->. rewrite Hap.
    rewrite map_size_insert_Some by done. apply (cons_peak s HC).
Qed.

Lemma lookupRoom_recordState_ids id g r st now s g' r' room' :
  lookupRoom (recordState id g r st now s) g' r' = Some room' →
  ∃ room, lookupRoom s g' r' = Some room ∧
          Room.roomId room' = Room.roomId room ∧
          Room.gameId room' = Room.gameId room ∧
          Room.createdAt room' = Room.createdAt room.
Proof.
  unfold recordState. destruct (lookupRoom s g r) as [room|] eqn:Hroom; [|eauto].
  rewrite lookupRoom_setRoom. case_decide as Heq; [|eauto].
  destruct Heq as [<- <-]. intros [= <-]. exists room. split; [done|].
  simpl. by destruct (Room.players room !! id).
Qed.

Lemma activePlayers_stateUpdate s id r st now :
  activePlayers (stateUpdate id r st now s).1 =
  match activePlayers s !! id with
  | Some p =>
      if truthy (Player.roomId p)
      then <[id := Player.touch now p]> (activePlayers s)
      else activePlayers s
  | None => activePlayers s
  end.
Proof.
  unfold stateUpdate. simpl. destruct (activePlayers s !! id) as [p|]; [|done].
  destruct (truthy (Player.roomId p)); [|done]. simpl.
  by rewrite activePlayers_recordState.
Qed.

Lemma lookupRoom_stateUpdate_ids s id r st now g' r' room' :
  lookupRoom (stateUpdate id r st now s).1 g' r' = Some room' →
  ∃ room, lookupRoom s g' r' = Some room ∧
          Room.roomId room' = Room.roomId room ∧
          Room.gameId room' = Room.gameId room ∧
          Room.createdAt room' = Room.createdAt room.
Proof.
  unfold stateUpdate. simpl. destruct (activePlayers s !! id) as [p|]; [|eauto].
  destruct (truthy (Player.roomId p)); [|eauto]. simpl.
  rewrite lookupRoom_stats. intros H.
  apply lookupRoom_recordState_ids in H. exact H.
Qed.

Lemma Consistent_stateUpdate s id r st now :
  Consistent s → Consistent (stateUpdate id r st now s).1.
Proof.
  intros HC. split.
  - intros g' r' room'.
    intros (room & Hroom & -> & -> & _)%lookupRoom_stateUpdate_ids.
    by apply (cons_room s HC).
  - intros id' p'. rewrite activePlayers_stateUpdate.
    destruct (activePlayers s !! id) as [p|] eqn:Hp; [|apply (cons_id s HC)].
    destruct (truthy (Player.roomId p)); [|apply (cons_id s HC)].
    destruct (decide (id = id')) as [<-|Hne].
    + rewrite lookup_insert_eq. intros [= <-]. simpl. by apply (cons_id s HC).
    + rewrite lookup_insert_ne by done. apply (cons_id s HC).
  - intros id' p'. rewrite activePlayers_stateUpdate.
    destruct (activePlayers s !! id) as [p|] eqn:Hp; [|apply (cons_pair s HC)].
    destruct (truthy (Player.roomId p)); [|apply (cons_pair s HC)].
    destruct (decide (id = id')) as [<-|Hne].
    + rewrite lookup_insert_eq. intros [= <-]. simpl. by apply (cons_pair s HC id).
    + rewrite lookup_insert_ne by done. apply (cons_pair s HC).
  - pose proof (gauges_stateUpdate s id r st now) as Hg. unfold gauges in Hg.
    injection Hg as -> ->. rewrite activePlayers_stateUpdate.
    destruct (activePlayers s !! id) as [p|] eqn:Hp; [|apply (cons_peak s HC)].
    destruct (truthy (Player.roomId p)); [|apply (cons_peak s HC)].
    rewrite map_size_insert_Some by done. apply (cons_peak s HC).
Qed.

Lemma Consistent_gameEvent s id r ty d now :
  Consistent s → Consistent (gameEvent id r ty d now s).1.
Proof.
  intros HC. unfold gameEvent. simpl.
  destruct (activePlayers s !! id) as [p|] eqn:Hp; [|by destruct HC].
  destruct (truthy (Player.roomId p)); [|by destruct HC]. simpl. split.
  - exact (cons_room s HC).
  - intros id' p'. simpl. destruct (decide (id = id')) as [<-|Hne].
    + rewrite lookup_insert_eq. intros [= <-]. simpl. by apply (cons_id s HC).
    + rewrite lookup_insert_ne by done. apply (cons_id s HC).
  - intros id' p'. simpl. destruct (decide (id = id')) as [<-|Hne].
    + rewrite lookup_insert_eq. intros [= <-]. simpl. by apply (cons_pair s HC id).
    + rewrite lookup_insert_ne by done. apply (cons_pair s HC).
  - simpl. rewrite map_size_insert_Some by done. apply (cons_peak s HC).
Qed.

Lemma Consistent_disconnect s id now :
  Consistent s → Consistent (disconnect id now s).1.
Proof.
  intros HC. split.
  - intros g r room'. unfold lookupRoom. rewrite gameRooms_disconnect.
    intros (room & Hroom & [->|[-> _]])%lookupRoom_leaveRoom;
      exact (cons_room s HC g r room Hroom).
  - intros id' p. rewrite activePlayers_disconnect.
    intros [_ Hp]%lookup_delete_Some. by apply (cons_id s HC).
  - intros id' p. rewrite activePlayers_disconnect.
    intros [_ Hp]%lookup_delete_Some. by apply (cons_pair s HC id').
  - pose proof (gauges_disconnect id now s) as Hg. unfold gauges in Hg.
    injection Hg as -> ->. rewrite activePlayers_disconnect.
    destruct (cons_peak s HC) as [Hsize Hpeak]. split; [|done].
    etrans; [|exact Hsize]. apply map_subseteq_size, delete_subseteq.
Qed.

Lemma Consistent_closeConnection now l : ∀ acc,
  Consistent acc.1 → Consistent (foldl (closeConnection now) acc l).1.
Proof.
  induction l as [|id l IH]; intros acc HC; [done|].
  cbn [foldl]. apply IH. simpl. by apply Consistent_disconnect.
Qed.

Lemma Consistent_roomSweep now s s' out :
  roomSweep now s = Some (s', out) → Consistent s → Consistent s'.
Proof.
  intros Hrun HC.
  destruct (roomSweep_spec now s) as (s1 & out1 & Hrun1 & Hsids & Hap & Hdir & _).
  assert (s1 = s') as -> by congruence.
  pose proof (gauges_roomSweep now s s' out Hrun) as Hg. unfold gauges in Hg.
  split.
  - intros g r room. rewrite (lookupRoom_roomSweep now s s' out g r Hrun).
    destruct (lookupRoom s g r) as [room'|] eqn:Hroom; simpl; [|done].
    case_decide; [done|]. intros [= <-]. by apply (cons_room s HC).
  - rewrite Hap. apply (cons_id s HC).
  - rewrite Hap. apply (cons_pair s HC).
  - injection Hg as -> ->. rewrite Hap. apply (cons_peak s HC).
Qed.

Lemma Consistent_handle i now s s' out :
  Sound s → enabled i s → handle i now s = Done s' out →
  Consistent s → Consistent s'.
Proof.
  intros HS Hen Hrun HC. pose proof HS as (HI & _). destruct i; simpl in *.
  - injection Hrun as <- _. by apply Consistent_connection.
  - apply joinGameHandler_Done in Hrun as (g & roomId & pd & _ & _ & Hjoin).
    by eapply Consistent_joinGame.
  - apply stateUpdateHandler_Done in Hrun as (r & st & Hrun).
    pose proof (Consistent_stateUpdate s id r st now HC) as H.
    by rewrite Hrun in H.
  - apply gameEventHandler_Done in Hrun as (r & ty & d & Hrun).
    pose proof (Consistent_gameEvent s id r ty d now HC) as H.
    by rewrite Hrun in H.
  - apply disconnectHandler_Done in Hrun.
    pose proof (Consistent_disconnect s id now HC) as H.
    by rewrite Hrun in H.
  - apply cleanupHandler_Done in Hrun.
    revert Hrun. unfold cleanup. rewrite playerSweep_Sound by done. simpl.
    destruct (foldl _ _ _) as [s1 out1] eqn:Hsweep.
    destruct (roomSweep now s1) as [[s2 out2]|] eqn:Hrooms; simpl; [|done].
    intros [= <- _]. eapply Consistent_roomSweep; [done|].
    pose proof (Consistent_closeConnection now
      (filter (idlePlayer now s) (arrival s)) (s, []) HC) as H.
    by rewrite Hsweep in H.
Qed.

Lemma reachable_Consistent s : reachable s → Consistent s.
Proof.
  induction 1 as [start|s i now s' out Hreach IH Hen Hrun].
  - apply Consistent_init.
  - eapply Consistent_handle; eauto. by apply reachable_Sound.
Qed.

(** * What holds in every state of a run

    A run is a sequence of handlers each of which has returned: none has
    thrown, and none has left the directory for an object of the runtime
    (every join has named its game, and no game id has named a member of
    [Object.prototype]). *)

(** X1.  In every state of a run, every room of the directory tracks at
    least one player, every game category holds at least one room, a
    room is stored under the room id and the game id written in it, and
    no key of the directory names a member of [Object.prototype]. *)
Theorem reachable_directory (s : State) :
  reachable s →
  roomsNonEmpty s ∧ categoriesNonEmpty s ∧
  (∀ g r room, lookupRoom s g r = Some room →
               Room.roomId room = r ∧ Room.gameId room = g ∧
               inherited g = false ∧ inherited r = false).
Proof.
  intros Hreach. destruct (reachable_Sound s Hreach) as (HI & _ & HP).
  split; [exact (inv_rooms s HI)|]. split; [exact (inv_cats s HI)|].
  intros g r room Hroom.
  destruct (cons_room s (reachable_Consistent s Hreach) g r room Hroom)
    as [Hr Hg].
  split; [done|]. split; [done|]. split.
  - apply lookupRoom_Some in Hroom as (cat & Hcat & _).
    by apply (plain_game s HP g cat).
  - by apply (plain_room s HP g r room).
Qed.

Lemma reachable_directory_witness :
  reachable lobby ∧ roomsNonEmpty lobby ∧ categoriesNonEmpty lobby.
Proof.
  split; [exact lobby_reachable|].
  destruct (reachable_directory lobby lobby_reachable) as (Hr & Hc & _).
  split; [exact Hr|exact Hc].
Defined.

(** X2.  In every state of a run, the records of [activePlayers] are
    those of the live sockets, listed once each by [Object.keys]; a
    record is stored under the id written in it, its room and its game
    are either both set or both unset, and a socket whose record names a
    room is subscribed to the broadcast group of that room. *)
Theorem reachable_records (s : State) :
  reachable s →
  (∀ id, is_Some (activePlayers s !! id) ↔ live s id) ∧
  NoDup (arrival s) ∧
  (∀ id, id ∈ arrival s ↔ live s id) ∧
  (∀ id p, activePlayers s !! id = Some p →
           Player.id p = id ∧
           (is_Some (Player.roomId p) ↔ is_Some (Player.gameId p))) ∧
  (∀ id p r, activePlayers s !! id = Some p → Player.roomId p = Some r →
             id ∈ members s r).
Proof.
  intros Hreach. destruct (reachable_Sound s Hreach) as (HI & [Hnd Hin] & _).
  pose proof (reachable_Consistent s Hreach) as HC.
  split; [exact (inv_live s HI)|]. split; [exact Hnd|].
  split; [intros id; by rewrite Hin, (inv_live s HI)|].
  split; [|exact (inv_own s HI)].
  intros id p Hp. split; [by apply (cons_id s HC)|by apply (cons_pair s HC id)].
Qed.

Lemma reachable_records_witness :
  reachable lobby ∧
  (∀ id, is_Some (activePlayers lobby !! id) ↔ live lobby id) ∧
  arrival lobby = ["a"; "b"; "c"] ∧
  "a" ∈ members lobby "4FZYO8".
Proof.
  split; [exact lobby_reachable|].
  destruct (reachable_records lobby lobby_reachable) as (Hl & _ & _ & _ & Hown).
  split; [exact Hl|]. split; [vm_compute; reflexivity|].
  apply (Hown "a" (Player.Build "a" (Some "4FZYO8") (Some "demo") 10 10));
    [vm_compute; reflexivity|reflexivity].
Defined.

(** * The status endpoint *)

Lemma countRooms_loop (dir : gmap string (gmap string Room.t)) l : ∀ n,
  (∀ g, g ∈ l → ∃ cat, dir !! g = Some cat ∧ cat ≠ ∅) →
  (n + length l ≤
   foldl (λ count g, (count + size (default ∅ (dir !! g)))%nat) n l)%nat.
Proof.
  induction l as [|g l IH]; intros n Hl; simpl; [lia|].
  destruct (Hl g) as (cat & Hcat & Hne); [by left|].
  etrans; [|apply IH; intros g' Hg'; apply Hl; by right].
  rewrite Hcat. simpl.
  assert (size cat ≠ 0%nat) by (by intros ?%map_size_empty_inv). lia.
Qed.

(** X3.  In every state of a run, the status endpoint reports at least
    as many rooms as games and no room when there is no game, the active
    players are the live sockets and are at most the peak, and the peak
    is at most the number of connections accepted. *)
Theorem status_ordered (s : State) (now : Z) :
  reachable s →
  let r := statusReport now s in
  (Status.games r ≤ Status.rooms r)%nat ∧
  (Status.games r = 0%nat → Status.rooms r = 0%nat) ∧
  Status.active r = size (dom (sids s)) ∧
  (Status.active r ≤ Status.peak r)%nat ∧
  (Status.peak r ≤ Status.total r)%nat.
Proof.
  intros Hreach. pose proof (reachable_Inv s Hreach) as HI.
  pose proof (reachable_Consistent s Hreach) as HC. simpl.
  split; [|split; [|split; [|exact (cons_peak s HC)]]].
  - unfold countRooms.
    pose proof (countRooms_loop (gameRooms s) (elements (dom (gameRooms s))) 0)
      as Hloop.
    rewrite <- size_dom. unfold size at 1, set_size. simpl.
    apply Hloop. intros g [cat Hcat]%elem_of_elements%elem_of_dom.
    exists cat. split; [done|]. by apply (inv_cats s HI g).
  - intros Hz%map_size_empty_inv. rewrite Hz. unfold countRooms.
    by rewrite dom_empty_L, elements_empty.
  - rewrite <- size_dom. f_equal. apply set_eq. intros id.
    rewrite !elem_of_dom. apply (inv_live s HI).
Qed.

Lemma status_ordered_witness :
  reachable lobby ∧
  Status.games (statusReport 2500 lobby) = 1%nat ∧
  Status.rooms (statusReport 2500 lobby) = 2%nat ∧
  Status.uptime (statusReport 2500 lobby) = 2 ∧
  (Status.active (statusReport 2500 lobby)
   ≤ Status.peak (statusReport 2500 lobby))%nat.
Proof.
  split; [exact lobby_reachable|]. split; [vm_compute; reflexivity|].
  split; [vm_compute; reflexivity|]. split; [vm_compute; reflexivity|].
  by destruct (status_ordered lobby 2500 lobby_reachable) as (_ & _ & _ & H & _).
Defined.

(** * The clean-up as a whole *)

Lemma activePlayers_closeConnection now l : ∀ acc id,
  activePlayers (foldl (closeConnection now) acc l).1 !! id =
  if decide (id ∈ l) then None else activePlayers acc.1 !! id.
Proof.
  induction l as [|x l IH]; intros acc id.
  - rewrite decide_False by apply not_elem_of_nil. done.
  - cbn [foldl]. rewrite IH. simpl. rewrite activePlayers_disconnect.
    destruct (decide (id ∈ l)) as [Hin|Hnin].
    + rewrite decide_True by (by right). done.
    + destruct (decide (id = x)) as [->|Hne].
      * rewrite decide_True by (by left). apply lookup_delete_eq.
      * rewrite decide_False by (rewrite not_elem_of_cons; done).
        by apply lookup_delete_ne.
Qed.

(** X4.  On every state of a run, the periodic clean-up returns: it
    reads no missing entry and no ['disconnect'] handler it triggers
    throws.  It leaves a state of a run in which no player record and no
    room is idle at the time of the sweep; the records it keeps are kept
    as they were. *)
Theorem cleanup_reaps_idle (s : State) (now : Z) :
  reachable s →
  ∃ s' out,
    cleanupHandler now s = Done s' out ∧
    reachable s' ∧
    (∀ id, ¬ idlePlayer now s' id) ∧
    (∀ g r room, lookupRoom s' g r = Some room → ¬ idleRoom now room) ∧
    (∀ id p, activePlayers s' !! id = Some p ↔
             activePlayers s !! id = Some p ∧ ¬ idlePlayer now s id).
Proof.
  intros Hreach. pose proof (reachable_Sound s Hreach) as HS.
  pose proof HS as (HI & [_ Hin] & _).
  destruct (cleanup_total now s HS) as [[s' out] Hrun].
  exists s', out. split; [by apply cleanupHandler_Done|]. split.
  { apply (reachable_step s InCleanup now s' out); [done..|].
    by apply cleanupHandler_Done. }
  revert Hrun. unfold cleanup. rewrite playerSweep_Sound by done. simpl.
  set (idle := filter (idlePlayer now s) (arrival s)).
  pose proof (activePlayers_closeConnection now idle (s, [])) as Hap.
  destruct (foldl (closeConnection now) (s, []) idle) as [s1 out1].
  destruct (roomSweep now s1) as [[s2 out2]|] eqn:Hrooms; simpl; [|done].
  intros [= <- _].
  destruct (roomSweep_spec now s1) as (s3 & out3 & Hrun3 & _ & Hap3 & _).
  assert (s3 = s2) as -> by congruence. simpl in Hap.
  assert (∀ id p, activePlayers s2 !! id = Some p ↔
                  activePlayers s !! id = Some p ∧ ¬ idlePlayer now s id) as Hkeep.
  { intros id p. rewrite Hap3, Hap. subst idle.
    case_decide as Hidle.
    - apply list_elem_of_filter in Hidle as [Hidle _]. naive_solver.
    - rewrite list_elem_of_filter, Hin in Hidle.
      split; [|naive_solver]. intros Hp. split; [done|]. intros Hi.
      apply Hidle. split; [done|]. eauto. }
  split; [|split; [|done]].
  - intros id Hidle. unfold idlePlayer in Hidle.
    destruct (activePlayers s2 !! id) as [p|] eqn:Hp; [|done].
    apply Hkeep in Hp as [Hp Hnot]. apply Hnot. unfold idlePlayer. by rewrite Hp.
  - intros g r room. rewrite (lookupRoom_roomSweep now s1 s2 out2 g r Hrooms).
    destruct (lookupRoom s1 g r) as [room'|]; simpl; [|done].
    case_decide; [done|]. by intros [= <-].
Qed.

Lemma cleanup_reaps_idle_witness :
  let now := 15 + INACTIVITY_TIMEOUT + 1 in
  reachable lobby ∧
  ∃ s' out, cleanupHandler now lobby = Done s' out ∧
            activePlayers s' = ∅ ∧ gameRooms s' = ∅ ∧ arrival s' = [].
Proof.
  intros now. split; [exact lobby_reachable|].
  destruct (cleanup_reaps_idle lobby now lobby_reachable)
    as (s' & out & Hrun & _).
  exists s', out. split; [exact Hrun|].
  assert (toOption (cleanupHandler now lobby)
            ≫= (λ r, Some (activePlayers r.1, gameRooms r.1, arrival r.1))
          = Some (∅, ∅, [])) as Hempty by (vm_compute; reflexivity).
  rewrite Hrun in Hempty. simpl in Hempty. injection Hempty as H1 H2 H3.
  split; [exact H1|]. split; [exact H2|exact H3].
Defined.

(** X5.  On any state the room sweep runs to its end.  It leaves the
    player records and the broadcast groups as they were; a room is kept,
    unchanged, exactly when it is not idle; a category is removed exactly
    when none of its rooms is kept; and the messages sent are the
    [roomClosed] notices to the subscribers of the groups of the idle
    rooms, nothing else. *)
Theorem roomSweep_characterised (s : State) (now : Z) :
  ∃ s' out,
    roomSweep now s = Some (s', out) ∧
    activePlayers s' = activePlayers s ∧
    sids s' = sids s ∧
    (∀ g r, lookupRoom s' g r =
            room ← lookupRoom s g r;
            if decide (idleRoom now room) then None else Some room) ∧
    (∀ g, is_Some (gameRooms s' !! g) ↔
          ∃ r room, lookupRoom s g r = Some room ∧ ¬ idleRoom now room) ∧
    (∀ d, d ∈ out ↔ closedNotice now s d).
Proof.
  destruct (roomSweep_spec now s) as (s' & out & Hrun & Hsids & Hap & Hdir & Hout).
  exists s', out. split; [done|]. split; [done|]. split; [done|].
  split; [intros g r; by apply (lookupRoom_roomSweep now s s' out)|].
  split; [|done].
  intros g. rewrite Hdir, lookup_omap. unfold lookupRoom.
  destruct (gameRooms s !! g) as [cat|]; simpl.
  - unfold sweptCategory. case_decide as Hemp; split.
    + by intros [? ?].
    + intros (r & room & Hr & Hidle). exfalso.
      assert (filter (λ kv : string * Room.t, ¬ idleRoom now kv.2) cat !! r
              = Some room) as Hin by (by apply map_lookup_filter_Some).
      by rewrite Hemp, lookup_empty in Hin.
    + intros _. apply map_choose in Hemp as (r & room & Hin).
      apply map_lookup_filter_Some in Hin as [Hr Hidle]. eauto.
    + eauto.
  - split; [by intros [? ?]|]. by intros (? & ? & ? & _).
Qed.



(** * Connecting and joining *)

(** X6.  A connection accepted under a new identity is the last key of
    [activePlayers], has a record without room or game, so that its
    state updates and game events are dropped, and is subscribed to the
    group of its own id and to no other.  If it closes without having
    joined, the handler returns, nobody is told, and the directory, the
    player records, their order and the broadcast groups are again what
    they were before it connected. *)
Theorem connect_then_close (s : State) (id : string) (t1 t2 : Z) :
  reachable s → unused s id →
  let s1 := connection id t1 s in
  hasRoom s1 id = false ∧
  activePlayers s1 !! id = Some (Player.Build id None None t1 t1) ∧
  arrival s1 = arrival s ++ [id] ∧
  sids s1 !! id = Some {[id]} ∧
  (∀ r, id ∈ members s1 r ↔ r = id) ∧
  (∀ i r, i ≠ id → i ∈ members s1 r ↔ i ∈ members s r) ∧
  ∃ s2,
    disconnectHandler id t2 s1 = Done s2 [] ∧
    gameRooms s2 = gameRooms s ∧
    activePlayers s2 = activePlayers s ∧
    arrival s2 = arrival s ∧
    sids s2 = sids s.
Proof.
  intros Hreach Hun s1. destruct (reachable_Sound s Hreach) as (HI & [Hnd Hin] & _).
  pose proof Hun as (_ & Hsid & _).
  assert (activePlayers s !! id = None) as Hfresh.
  { apply eq_None_not_Some. rewrite (inv_live s HI). unfold live.
    rewrite Hsid. by intros [? ?]. }
  assert (id ∉ arrival s) as Hnew.
  { rewrite Hin, Hfresh. by intros [? ?]. }
  assert (activePlayers s1 !! id = Some (Player.Build id None None t1 t1)) as Hp
    by (subst s1; simpl; apply lookup_insert_eq).
  assert (sids s1 !! id = Some {[id]}) as Hsid1
    by (subst s1; simpl; apply lookup_insert_eq).
  assert (leaveRoom id t2 (closing id s1) = (closing id s1, [])) as Hleave.
  { unfold leaveRoom. simpl. by rewrite lookup_insert_eq. }
  split; [unfold hasRoom; by rewrite Hp|]. split; [done|].
  split; [subst s1; simpl; by rewrite Hfresh|]. split; [done|].
  split; [|split].
  { intros r. rewrite elem_of_members, Hsid1. split.
    - by intros (rs & [= <-] & ->%elem_of_singleton).
    - intros ->. exists {[id]}. split; [done|]. by apply elem_of_singleton. }
  { intros i r Hne. rewrite !elem_of_members. subst s1. simpl.
    by rewrite lookup_insert_ne. }
  exists (disconnect id t2 s1).1. split.
  { unfold disconnectHandler. rewrite Hp. simpl. unfold completes. f_equal.
    by rewrite disconnect_unfold, Hleave. }
  rewrite disconnect_unfold, Hleave. subst s1. simpl. rewrite Hfresh.
  split; [done|]. split; [by rewrite delete_insert_eq, delete_id|].
  split; [|by rewrite delete_insert_eq, delete_id].
  rewrite filter_app, filter_cons_False, filter_nil, app_nil_r by tauto.
  apply filter_all, Forall_forall. intros k Hk ->. done.
Qed.

Lemma connect_then_close_witness :
  reachable lobby ∧ unused lobby "z" ∧
  hasRoom (connection "z" 30 lobby) "z" = false ∧
  sids (connection "z" 30 lobby) !! "z" = Some {["z"]} ∧
  ∃ s2,
    disconnectHandler "z" 31 (connection "z" 30 lobby) = Done s2 [] ∧
    gameRooms s2 = gameRooms lobby ∧
    activePlayers s2 = activePlayers lobby ∧
    arrival s2 = ["a"; "b"; "c"].
Proof.
  assert (unused lobby "z") as Hun
    by (apply (bool_decide_unpack _); vm_compute; exact I).
  split; [exact lobby_reachable|]. split; [exact Hun|].
  destruct (connect_then_close lobby "z" 30 31 lobby_reachable Hun)
    as (Hno & _ & _ & Hsid & _ & _ & s2 & Hclose & Hdir & Hap & Harr & _).
  split; [exact Hno|]. split; [exact Hsid|].
  exists s2. split; [exact Hclose|]. split; [exact Hdir|].
  split; [exact Hap|]. etrans; [exact Harr|]. vm_compute. reflexivity.
Defined.

Lemma tracked_joinGame id g roomId pd rnd now s s' out :
  joinGame id g roomId pd rnd now s = Some (s', out) →
  tracked s' g (chooseRoomId roomId rnd) =
  <[id := joinSnapshot id now pd]> (tracked s g (chooseRoomId roomId rnd)).
Proof.
  intros Hjoin. unfold tracked at 1.
  rewrite (joinGame_lookupRoom id g roomId pd rnd now s s' out Hjoin).
  rewrite decide_True by done. simpl. by rewrite openRoom_tracked.
Qed.

Lemma members_joinGame_other id g roomId pd rnd now s s' out to r :
  joinGame id g roomId pd rnd now s = Some (s', out) → to ≠ id →
  to ∈ members s' r ↔ to ∈ members s r.
Proof.
  intros Hjoin Hne. rewrite !elem_of_members.
  rewrite (joinGame_sids id g roomId pd rnd now s s' out Hjoin).
  by rewrite lookup_alter_ne.
Qed.

Lemma snapshotOf_tracked s g r id : snapshotOf s g r id = tracked s g r !! id.
Proof.
  unfold snapshotOf, tracked. destruct (lookupRoom s g r); simpl; [done|].
  by rewrite lookup_empty.
Qed.

(** X7.  A join by a live connection that has its record, under a game
    id and a room id whose lookup stays in the directory, returns.  The
    first message sent is the acknowledgement to the joiner, carrying
    the room, the game, its own id and the number of players the room
    then tracks; the joiner's record names the room and the game and is
    otherwise unchanged; the joiner is subscribed to the group of the
    room; and the room tracks the joiner under the snapshot built from
    its payload, next to the players it tracked before.  Where the room
    id names a member inherited from [Object.prototype], the handler
    throws; without payload it throws. *)
Theorem join_places_joiner (s : State) (id g : string)
    (roomId : option string) (pd : Attrs) (rnd : string) (now : Z)
    (p : Player.t) :
  activePlayers s !! id = Some p → live s id →
  let t := chooseRoomId roomId rnd in
  let data := Some (JoinData.Build (Some g) roomId pd) in
  joinGameHandler id None rnd now s = Throws ∧
  (findForJoin s g t = FoundMember →
   joinGameHandler id data rnd now s = Throws) ∧
  (strays (findForJoin s g t) = false →
   ∃ s' out,
     joinGameHandler id data rnd now s = Done s' out ∧
     head out
       = Some (id, RoomJoined t g id (S (size (delete id (tracked s g t))))) ∧
     activePlayers s' !! id = Some (Player.setMembership t g p) ∧
     arrival s' = arrival s ∧
     id ∈ members s' t ∧
     tracked s' g t = <[id := joinSnapshot id now pd]> (tracked s g t) ∧
     snapshotOf s' g t id = Some (joinSnapshot id now pd)).
Proof.
  intros Hp [rs Hrs] t data. split; [done|].
  split; [by apply joinGameHandler_Throws|]. intros Hf.
  destruct (joinGameHandler_joins id g roomId pd rnd now s p Hp Hf)
    as (s' & out & Hjoin & Hdone).
  exists s', out. split; [done|].
  pose proof (tracked_joinGame id g roomId pd rnd now s s' out Hjoin) as Htr.
  split; [|split; [|split; [|split; [|split; [done|]]]]].
  - rewrite (joinGame_out id g roomId pd rnd now s s' out Hjoin). simpl.
    rewrite openRoom_tracked. do 3 f_equal.
    rewrite <- insert_delete_eq.
    by rewrite map_size_insert_None by apply lookup_delete_eq.
  - destruct (joinGame_record id g roomId pd rnd now s s' out Hjoin)
      as (p0 & Hp0 & ->).
    assert (p0 = p) as -> by congruence. apply lookup_insert_eq.
  - by eapply arrival_joinGame.
  - apply elem_of_members. exists (rs ∪ {[t]}).
    rewrite (joinGame_sids id g roomId pd rnd now s s' out Hjoin).
    rewrite lookup_alter_eq, Hrs. split; [done|set_solver].
  - rewrite snapshotOf_tracked. fold t in Htr. rewrite Htr.
    apply lookup_insert_eq.
Qed.

Lemma join_places_joiner_witness :
  let s := connection "d" 16 lobby in
  let p := Player.Build "d" None None 16 16 in
  activePlayers s !! "d" = Some p ∧ live s "d" ∧
  strays (findForJoin s "demo" "4FZYO8") = false ∧
  findForJoin s "demo" "constructor" = FoundMember ∧
  joinGameHandler "d" (Some (JoinData.Build (Some "demo") (Some "constructor") ∅))
                  "" 17 s = Throws ∧
  ∃ s' out,
    joinGameHandler "d" (Some (JoinData.Build (Some "demo") (Some "4FZYO8") ∅))
                    "" 17 s = Done s' out ∧
    head out = Some ("d", RoomJoined "4FZYO8" "demo" "d" 3) ∧
    "d" ∈ members s' "4FZYO8".
Proof.
  intros s p.
  assert (activePlayers s !! "d" = Some p) as Hp by (vm_compute; reflexivity).
  assert (live s "d") as Hl by (vm_compute; eauto).
  assert (strays (findForJoin s "demo" "4FZYO8") = false) as Hf
    by (vm_compute; reflexivity).
  assert (findForJoin s "demo" "constructor" = FoundMember) as Hm
    by (vm_compute; reflexivity).
  split; [exact Hp|]. split; [exact Hl|]. split; [exact Hf|]. split; [exact Hm|].
  split.
  { destruct (join_places_joiner s "d" "demo" (Some "constructor") ∅ "" 17 p
                Hp Hl) as (_ & Hthrows & _). exact (Hthrows Hm). }
  destruct (join_places_joiner s "d" "demo" (Some "4FZYO8") ∅ "" 17 p Hp Hl)
    as (_ & _ & Hjoins).
  destruct (Hjoins Hf) as (s' & out & Hjoin & Hhead & _ & _ & Hmem & _).
  exists s', out. split; [exact Hjoin|]. split; [|exact Hmem].
  etrans; [exact Hhead|]. vm_compute. reflexivity.
Defined.

(** X8.  A join that returns writes one room only.  Every other room,
    every other player record and every other socket's subscriptions
    are untouched, and no group but the joined one gains a member.  A
    room that existed keeps the times of its creation and of its last
    activity; a room that did not is created with both set to the time
    of the join and the joiner as its only player. *)
Theorem join_frame (s : State) (id g : string) (roomId : option string)
    (pd : Attrs) (rnd : string) (now : Z) (s' : State) (out : list Delivery) :
  joinGameHandler id (Some (JoinData.Build (Some g) roomId pd)) rnd now s
    = Done s' out →
  let t := chooseRoomId roomId rnd in
  (∀ g' r', (g', r') ≠ (g, t) → lookupRoom s' g' r' = lookupRoom s g' r') ∧
  (∀ i, i ≠ id → activePlayers s' !! i = activePlayers s !! i) ∧
  (∀ i, i ≠ id → sids s' !! i = sids s !! i) ∧
  (∀ r', r' ≠ t → members s' r' = members s r') ∧
  lookupRoom s' g t =
    Some match lookupRoom s g t with
         | Some room =>
             Room.Build (Room.roomId room) (Room.gameId room)
               (<[id := joinSnapshot id now pd]> (Room.players room))
               (Room.createdAt room) (Room.lastActivity room)
         | None =>
             Room.Build t g {[id := joinSnapshot id now pd]} now now
         end.
Proof.
  intros (g0 & roomId0 & pd0 & [= <- <- <-] & _ & Hjoin)%joinGameHandler_Done t.
  pose proof (joinGame_sids id g roomId pd rnd now s s' out Hjoin) as Hsids.
  split; [|split; [|split; [|split]]].
  - intros g' r' Hne.
    rewrite (joinGame_lookupRoom id g roomId pd rnd now s s' out Hjoin).
    rewrite decide_False; [done|]. intros [<- <-]. by apply Hne.
  - intros i Hne.
    destruct (joinGame_record id g roomId pd rnd now s s' out Hjoin)
      as (p0 & _ & ->).
    by rewrite lookup_insert_ne.
  - intros i Hne. rewrite Hsids. by rewrite lookup_alter_ne.
  - intros r' Hne. apply set_eq. intros x. rewrite !elem_of_members, Hsids.
    destruct (decide (id = x)) as [<-|Hx]; [|by rewrite lookup_alter_ne].
    rewrite lookup_alter_eq. destruct (sids s !! id) as [rs|]; simpl.
    + split.
      * intros (? & [= <-] & Hin). exists rs. split; [done|]. set_solver.
      * intros (? & [= <-] & Hin). eexists. split; [done|]. set_solver.
    + naive_solver.
  - rewrite (joinGame_lookupRoom id g roomId pd rnd now s s' out Hjoin).
    rewrite decide_True by done. f_equal. unfold openRoom, lookupRoom.
    destruct (gameRooms s !! g) as [cat|]; simpl.
    + fold t. by destruct (cat !! t) as [room|].
    + by rewrite lookup_empty.
Qed.

Lemma join_frame_witness :
  let s := connection "d" 16 lobby in
  ∃ s' out,
    joinGameHandler "d" (Some (JoinData.Build (Some "demo") (Some "4FZYO8") ∅))
                    "" 17 s = Done s' out ∧
    lookupRoom s' "demo" "LOBBY2" = lookupRoom lobby "demo" "LOBBY2" ∧
    Room.createdAt <$> lookupRoom s' "demo" "4FZYO8" = Some 13 ∧
    Room.lastActivity <$> lookupRoom s' "demo" "4FZYO8" = Some 13.
Proof.
  intros s.
  destruct (joinGameHandler_joins "d" "demo" (Some "4FZYO8") ∅ "" 17 s
              (Player.Build "d" None None 16 16))
    as (s' & out & _ & Hjoin); [vm_compute; reflexivity..|].
  destruct (join_frame s "d" "demo" (Some "4FZYO8") ∅ "" 17 s' out Hjoin)
    as (Hother & _ & _ & _ & Hroom).
  exists s', out. split; [exact Hjoin|]. split.
  - etrans; [apply Hother; discriminate|]. reflexivity.
  - assert (lookupRoom s "demo" "4FZYO8"
            = Some (Room.Build "4FZYO8" "demo"
                      (<["b" := joinSnapshot "b" 14 ∅]>
                         {["a" := joinSnapshot "a" 13 {["x" := JNum 1]}]})
                      13 13)) as Hbefore by (vm_compute; reflexivity).
    change (chooseRoomId (Some "4FZYO8") "") with "4FZYO8" in Hroom.
    rewrite Hbefore in Hroom. rewrite Hroom. split; reflexivity.
Defined.

Lemma elem_of_backfill id ps to m :
  (to, m) ∈ backfill id ps ↔
  to = id ∧ ∃ i snap, m = PlayerJoined i snap ∧ i ≠ id ∧ ps !! i = Some snap.
Proof.
  unfold backfill. rewrite list_elem_of_fmap. split.
  - intros ([i snap] & [= -> ->] & [Hne Hin%elem_of_map_to_list]%list_elem_of_filter).
    split; [done|]. by exists i, snap.
  - intros (-> & i & snap & -> & Hne & Hin). exists (i, snap). split; [done|].
    apply list_elem_of_filter. split; [done|]. by apply elem_of_map_to_list.
Qed.

(** X9.  Of a join that returns, a connection other than the joiner
    receives one thing only: the [playerJoined] carrying the joiner's id
    and the payload as it was sent, and it receives it exactly when it
    is subscribed to the group of the room.  In a state of a run that
    covers every player the room tracks that is still connected. *)
Theorem join_notifies_others (s : State) (id g : string)
    (roomId : option string) (pd : Attrs) (rnd : string) (now : Z)
    (s' : State) (out : list Delivery) :
  joinGameHandler id (Some (JoinData.Build (Some g) roomId pd)) rnd now s
    = Done s' out →
  let t := chooseRoomId roomId rnd in
  (∀ to m, to ≠ id →
           (to, m) ∈ out ↔ m = PlayerJoined id pd ∧ to ∈ members s t) ∧
  (reachable s → ∀ to, to ≠ id → is_Some (tracked s g t !! to) →
                       live s to → (to, PlayerJoined id pd) ∈ out).
Proof.
  intros (g0 & roomId0 & pd0 & [= <- <- <-] & _ & Hjoin)%joinGameHandler_Done t.
  assert (∀ to m, to ≠ id →
            (to, m) ∈ out ↔ m = PlayerJoined id pd ∧ to ∈ members s t) as Hout.
  { intros to m Hne.
    rewrite (joinGame_out id g roomId pd rnd now s s' out Hjoin).
    rewrite !elem_of_app, list_elem_of_singleton.
    rewrite elem_of_emitOthers, elem_of_backfill.
    rewrite (members_joinGame_other id g roomId pd rnd now s s' out to _ Hjoin Hne).
    split; [|naive_solver].
    intros [[= -> _]|[(-> & Hin & _)|[-> _]]]; done. }
  split; [done|]. intros Hreach to Hne Hin Hlive. apply Hout; [done|].
  split; [done|]. unfold tracked in Hin.
  destruct (lookupRoom s g t) as [room|] eqn:Hroom; simpl in Hin.
  - by apply (inv_subs s (reachable_Inv s Hreach) g t room).
  - rewrite lookup_empty in Hin. by destruct Hin.
Qed.

Lemma join_notifies_others_witness :
  let s := connection "d" 16 lobby in
  ∃ s' out,
    joinGameHandler "d"
      (Some (JoinData.Build (Some "demo") (Some "4FZYO8") {["n" := JNum 4]}))
      "" 17 s = Done s' out ∧
    ("a", PlayerJoined "d" {["n" := JNum 4]}) ∈ out ∧
    ∀ m, ("c", m) ∉ out.
Proof.
  intros s.
  destruct (joinGameHandler_joins "d" "demo" (Some "4FZYO8") {["n" := JNum 4]}
              "" 17 s (Player.Build "d" None None 16 16))
    as (s' & out & _ & Hjoin); [vm_compute; reflexivity..|].
  destruct (join_notifies_others s "d" "demo" (Some "4FZYO8")
              {["n" := JNum 4]} "" 17 s' out Hjoin) as (Hout & _).
  exists s', out. split; [exact Hjoin|]. split.
  - apply Hout; [discriminate|]. split; [reflexivity|].
    apply elem_of_members. eexists. split; vm_compute; reflexivity.
  - intros m Hin. apply Hout in Hin as [_ Hin]; [|discriminate].
    apply elem_of_members in Hin as (rs & Hrs & Hin).
    vm_compute in Hrs. injection Hrs as <-.
    revert Hin. apply (bool_decide_unpack _). vm_compute. exact I.
Defined.

(** X10.  Two connections that join under the same game id and the same
    supplied room id, neither naming a member of [Object.prototype],
    land in the same room: both joins return; after them the room tracks
    both connections, each under the snapshot of its own join; the
    second joiner is sent the snapshot of the first, and the first, when
    live, is sent the payload of the second. *)
Theorem joins_share_room (s : State) (a b g r : string) (pda pdb : Attrs)
    (rnda rndb : string) (ta tb : Z) (pa pb : Player.t) :
  activePlayers s !! a = Some pa → activePlayers s !! b = Some pb →
  live s a → a ≠ b → r ≠ "" → inherited g = false → inherited r = false →
  ∃ s1 out1 s2 out2,
    joinGameHandler a (Some (JoinData.Build (Some g) (Some r) pda)) rnda ta s
      = Done s1 out1 ∧
    joinGameHandler b (Some (JoinData.Build (Some g) (Some r) pdb)) rndb tb s1
      = Done s2 out2 ∧
    snapshotOf s2 g r a = Some (joinSnapshot a ta pda) ∧
    snapshotOf s2 g r b = Some (joinSnapshot b tb pdb) ∧
    Player.roomId <$> activePlayers s2 !! a = Some (Some r) ∧
    Player.roomId <$> activePlayers s2 !! b = Some (Some r) ∧
    (b, PlayerJoined a (joinSnapshot a ta pda)) ∈ out2 ∧
    (a, PlayerJoined b pdb) ∈ out2.
Proof.
  intros Hpa Hpb [rs Hrs] Hab Hr Hig Hir.
  assert (chooseRoomId (Some r) rnda = r) as Hta
    by (unfold chooseRoomId; by rewrite (proj2 (truthy_Some r) Hr)).
  assert (chooseRoomId (Some r) rndb = r) as Htb
    by (unfold chooseRoomId; by rewrite (proj2 (truthy_Some r) Hr)).
  destruct (joinGameHandler_joins a g (Some r) pda rnda ta s pa Hpa)
    as (s1 & out1 & Hj1 & Hd1); [rewrite Hta; by apply findForJoin_plain|].
  destruct (joinGame_record a g (Some r) pda rnda ta s s1 out1 Hj1)
    as (pa0 & Hpa0 & Hap1).
  assert (activePlayers s1 !! b = Some pb) as Hpb1
    by (rewrite Hap1, lookup_insert_ne; done).
  destruct (joinGameHandler_joins b g (Some r) pdb rndb tb s1 pb Hpb1)
    as (s2 & out2 & Hj2 & Hd2); [rewrite Htb; by apply findForJoin_plain|].
  destruct (joinGame_record b g (Some r) pdb rndb tb s1 s2 out2 Hj2)
    as (pb0 & Hpb0 & Hap2).
  pose proof (tracked_joinGame a g (Some r) pda rnda ta s s1 out1 Hj1) as Htr1.
  pose proof (tracked_joinGame b g (Some r) pdb rndb tb s1 s2 out2 Hj2) as Htr2.
  rewrite Hta in Htr1. rewrite Htb in Htr2.
  exists s1, out1, s2, out2. split; [done|]. split; [done|].
  split; [|split; [|split; [|split; [|split]]]].
  - rewrite snapshotOf_tracked, Htr2, lookup_insert_ne by done.
    rewrite Htr1. apply lookup_insert_eq.
  - rewrite snapshotOf_tracked, Htr2. apply lookup_insert_eq.
  - rewrite Hap2, lookup_insert_ne by done. rewrite Hap1, lookup_insert_eq.
    simpl. by rewrite Hta.
  - rewrite Hap2, lookup_insert_eq. simpl. by rewrite Htb.
  - rewrite (joinGame_out b g (Some r) pdb rndb tb s1 s2 out2 Hj2).
    rewrite Htb, openRoom_tracked. apply elem_of_app. right.
    apply elem_of_app. right. apply elem_of_backfill. split; [done|].
    exists a, (joinSnapshot a ta pda). split; [done|]. split; [done|].
    rewrite lookup_insert_ne by done. rewrite Htr1. apply lookup_insert_eq.
  - rewrite (joinGame_out b g (Some r) pdb rndb tb s1 s2 out2 Hj2).
    rewrite Htb. apply elem_of_app. right. apply elem_of_app. left.
    apply elem_of_emitOthers. split; [done|]. split; [|done].
    apply (joinGame_members b g (Some r) pdb rndb tb s1 s2 out2 Hj2).
    apply elem_of_members. exists (rs ∪ {[r]}).
    rewrite (joinGame_sids a g (Some r) pda rnda ta s s1 out1 Hj1).
    rewrite lookup_alter_eq, Hrs, Hta. split; [done|set_solver].
Qed.

Lemma joins_share_room_witness :
  let s := connection "e" 17 (connection "d" 16 lobby) in
  let pd := Player.Build "d" None None 16 16 in
  let pe := Player.Build "e" None None 17 17 in
  activePlayers s !! "d" = Some pd ∧ activePlayers s !! "e" = Some pe ∧
  live s "d" ∧ "d" ≠ "e" ∧ "ROOM42" ≠ "" ∧
  inherited "chess" = false ∧ inherited "ROOM42" = false ∧
  ∃ s1 out1 s2 out2,
    joinGameHandler "d" (Some (JoinData.Build (Some "chess") (Some "ROOM42") ∅))
                    "" 18 s = Done s1 out1 ∧
    joinGameHandler "e" (Some (JoinData.Build (Some "chess") (Some "ROOM42") ∅))
                    "" 19 s1 = Done s2 out2 ∧
    is_Some (snapshotOf s2 "chess" "ROOM42" "d") ∧
    is_Some (snapshotOf s2 "chess" "ROOM42" "e").
Proof.
  intros s pd pe.
  assert (activePlayers s !! "d" = Some pd) as Hd by (vm_compute; reflexivity).
  assert (activePlayers s !! "e" = Some pe) as He by (vm_compute; reflexivity).
  assert (live s "d") as Hl by (vm_compute; eauto).
  assert ("d" ≠ "e") as Hne by discriminate.
  assert ("ROOM42" ≠ "") as Hr by discriminate.
  split; [exact Hd|]. split; [exact He|]. split; [exact Hl|].
  split; [exact Hne|]. split; [exact Hr|].
  split; [reflexivity|]. split; [reflexivity|].
  destruct (joins_share_room s "d" "e" "chess" "ROOM42" ∅ ∅ "" "" 18 19 pd pe
              Hd He Hl Hne Hr eq_refl eq_refl)
    as (s1 & out1 & s2 & out2 & Hj1 & Hj2 & Hsd & Hse & _).
  exists s1, out1, s2, out2. split; [exact Hj1|]. split; [exact Hj2|].
  split; eauto.
Defined.



(** * Joining and leaving again *)

Lemma lookupRoom_disconnect_held s id now g r room :
  held s id g r room →
  lookupRoom (disconnect id now s).1 g r =
    (if decide (delete id (Room.players room) = ∅) then None
     else Some (Room.setPlayers (delete id (Room.players room)) room)) ∧
  ∀ g' r', (g', r') ≠ (g, r) →
           lookupRoom (disconnect id now s).1 g' r' = lookupRoom s g' r'.
Proof.
  intros Hh. destruct (held_category s id g r room Hh) as (cat & Hcat & Hr).
  rewrite (disconnect_held s id now g r room cat Hh Hcat).
  unfold lookupRoom. simpl. split.
  - rewrite directoryAfterLeave_lookup, decide_True by done. simpl.
    destruct (decide (delete id (Room.players room) = ∅)).
    + destruct (decide (delete r cat = ∅)); simpl; [done|].
      apply lookup_delete_eq.
    + rewrite decide_False by apply insert_non_empty. simpl.
      apply lookup_insert_eq.
  - intros g' r' Hne. rewrite directoryAfterLeave_lookup.
    destruct (decide (g = g')) as [<-|Hg]; simpl; [|done].
    assert (r ≠ r') as Hr' by congruence. rewrite Hcat. simpl.
    destruct (decide (delete id (Room.players room) = ∅)).
    + destruct (decide (delete r cat = ∅)) as [Hemp|Hemp]; simpl.
      * rewrite <- (lookup_delete_ne cat r r') by done.
        by rewrite Hemp, lookup_empty.
      * by rewrite lookup_delete_ne.
    + rewrite decide_False by apply insert_non_empty. simpl.
      by rewrite lookup_insert_ne.
Qed.

Lemma directoryAfterLeave_last id g r cat room dir :
  delete id (Room.players room) = ∅ →
  directoryAfterLeave id g r cat room dir =
  if decide (delete r cat = ∅) then delete g dir else <[g := delete r cat]> dir.
Proof. intros Hemp. unfold directoryAfterLeave. by rewrite decide_True. Qed.

(** X11.  Opening a room and leaving it undoes itself.  When, in a
    state of a run, a connection joins a room that does not exist, under
    non-empty game and room ids whose lookup stays in the directory, the
    join returns and the room is created with the joiner alone in it;
    when that connection then closes, the handler returns and the
    directory is again the one before the join, the category included
    if the join had created it. *)
Theorem join_then_close (s : State) (id g : string) (roomId : option string)
    (pd : Attrs) (rnd : string) (t1 t2 : Z) (p : Player.t) :
  reachable s → activePlayers s !! id = Some p →
  chooseRoomId roomId rnd ≠ "" → g ≠ "" →
  lookupRoom s g (chooseRoomId roomId rnd) = None →
  strays (findForJoin s g (chooseRoomId roomId rnd)) = false →
  let t := chooseRoomId roomId rnd in
  ∃ s1 out1 s2 out2,
    joinGameHandler id (Some (JoinData.Build (Some g) roomId pd)) rnd t1 s
      = Done s1 out1 ∧
    lookupRoom s1 g t
      = Some (Room.Build t g {[id := joinSnapshot id t1 pd]} t1 t1) ∧
    disconnectHandler id t2 s1 = Done s2 out2 ∧
    gameRooms s2 = gameRooms s ∧
    activePlayers s2 = delete id (activePlayers s) ∧
    sids s2 = delete id (sids s).
Proof.
  intros Hreach Hp Ht Hg Hnone Hf. cbv zeta.
  set (t := chooseRoomId roomId rnd) in *.
  pose proof (inv_cats s (reachable_Inv s Hreach)) as Hcats.
  destruct (joinGameHandler_joins id g roomId pd rnd t1 s p Hp Hf)
    as (s1 & out1 & Hjoin & Hdone).
  exists s1, out1, (disconnect id t2 s1).1, (disconnect id t2 s1).2.
  split; [done|].
  destruct (joinGame_record id g roomId pd rnd t1 s s1 out1 Hjoin)
    as (p0 & Hp0 & Hap).
  pose proof (joinGame_lookupRoom id g roomId pd rnd t1 s s1 out1 Hjoin g t) as Hl.
  fold t in Hl. rewrite decide_True in Hl by done.
  set (cat0 := default ∅ (gameRooms s !! g)).
  assert (cat0 !! t = None) as Hfree.
  { subst cat0. unfold lookupRoom in Hnone.
    destruct (gameRooms s !! g) as [cat|]; simpl in *; [done|].
    apply lookup_empty. }
  assert (openRoom s g t t1 = Room.Build t g ∅ t1 t1) as Hopen
    by (unfold openRoom; fold cat0; by rewrite Hfree).
  rewrite Hopen in Hl. simpl in Hl.
  set (room1 := Room.Build t g {[id := joinSnapshot id t1 pd]} t1 t1).
  assert (lookupRoom s1 g t = Some room1) as Hroom1 by exact Hl.
  split; [done|].
  assert (held s1 id g t room1) as Hh.
  { exists (Player.setMembership t g p0). rewrite Hap, lookup_insert_eq. done. }
  split; [by apply (disconnectHandler_held id t2 s1 g t room1)|].
  pose proof (joinGame_gameRooms id g roomId pd rnd t1 s s1 out1 Hjoin) as Hdir.
  fold t in Hdir.
  assert (gameRooms s1 !! g = Some (<[t := room1]> cat0)) as Hcat1.
  { rewrite Hdir, decide_True by done. by rewrite Hopen. }
  rewrite (disconnect_held s1 id t2 g t room1 _ Hh Hcat1). simpl.
  split; [|split].
  - rewrite directoryAfterLeave_last by apply delete_singleton_eq.
    rewrite delete_insert_eq, delete_id by done.
    apply map_eq. intros g'. subst cat0.
    destruct (gameRooms s !! g) as [cat|] eqn:Hcat; simpl.
    + rewrite decide_False by (by apply (Hcats g)).
      rewrite lookup_insert, Hdir. by case_decide; subst.
    + rewrite decide_True by done. rewrite lookup_delete, Hdir.
      by case_decide; subst.
  - by rewrite Hap, delete_insert_eq.
  - rewrite (joinGame_sids id g roomId pd rnd t1 s s1 out1 Hjoin).
    apply map_eq. intros i. destruct (decide (id = i)) as [<-|Hne].
    + by rewrite !lookup_delete_eq.
    + by rewrite !lookup_delete_ne, lookup_alter_ne.
Qed.

Lemma join_then_close_witness :
  let s := connection "d" 16 lobby in
  let p := Player.Build "d" None None 16 16 in
  reachable s ∧ activePlayers s !! "d" = Some p ∧
  chooseRoomId (Some "SOLO01") "" ≠ "" ∧ "chess" ≠ "" ∧
  lookupRoom s "chess" "SOLO01" = None ∧
  strays (findForJoin s "chess" (chooseRoomId (Some "SOLO01") "")) = false ∧
  ∃ s1 out1 s2 out2,
    joinGameHandler "d" (Some (JoinData.Build (Some "chess") (Some "SOLO01") ∅))
                    "" 17 s = Done s1 out1 ∧
    is_Some (gameRooms s1 !! "chess") ∧
    disconnectHandler "d" 18 s1 = Done s2 out2 ∧
    gameRooms s2 = gameRooms lobby.
Proof.
  intros s p.
  assert (reachable s) as Hreach.
  { apply (reachable_step lobby (InConnection "d") 16 s [] lobby_reachable).
    - apply (bool_decide_unpack _). vm_compute. exact I.
    - reflexivity. }
  assert (activePlayers s !! "d" = Some p) as Hp by (vm_compute; reflexivity).
  assert (chooseRoomId (Some "SOLO01") "" ≠ "") as Ht by discriminate.
  assert ("chess" ≠ "") as Hg by discriminate.
  assert (lookupRoom s "chess" "SOLO01" = None) as Hnone
    by (vm_compute; reflexivity).
  assert (strays (findForJoin s "chess" (chooseRoomId (Some "SOLO01") ""))
          = false) as Hf by (vm_compute; reflexivity).
  split; [exact Hreach|]. split; [exact Hp|]. split; [exact Ht|].
  split; [exact Hg|]. split; [exact Hnone|]. split; [exact Hf|].
  destruct (join_then_close s "d" "chess" (Some "SOLO01") ∅ "" 17 18 p
              Hreach Hp Ht Hg Hnone Hf)
    as (s1 & out1 & s2 & out2 & Hjoin & Hroom & Hclose & Hdir & _).
  exists s1, out1, s2, out2. split; [exact Hjoin|]. split; [|split].
  - unfold lookupRoom in Hroom.
    destruct (gameRooms s1 !! "chess"); [eauto|discriminate Hroom].
  - exact Hclose.
  - exact Hdir.
Defined.

(** X12.  Nothing stops a connection from joining twice.  After a join
    into one room and a join into another, under ids none of which names
    a member of [Object.prototype], the record names the second room
    only, the first room still tracks the connection, and the socket is
    subscribed to both groups.  When the connection closes, the handler
    returns, the connection is removed from the second room, and the
    first room keeps tracking a player that has no connection any
    more. *)
Theorem second_join_leaves_ghost (s : State) (id gA gB : string)
    (roomA roomB : option string) (pdA pdB : Attrs) (rndA rndB : string)
    (t1 t2 t3 : Z) (p : Player.t) :
  activePlayers s !! id = Some p → live s id →
  (gA, chooseRoomId roomA rndA) ≠ (gB, chooseRoomId roomB rndB) →
  chooseRoomId roomB rndB ≠ "" → gB ≠ "" →
  inherited gA = false → inherited (chooseRoomId roomA rndA) = false →
  inherited gB = false → inherited (chooseRoomId roomB rndB) = false →
  let rA := chooseRoomId roomA rndA in
  let rB := chooseRoomId roomB rndB in
  ∃ s1 out1 s2 out2 s3 out3,
    joinGameHandler id (Some (JoinData.Build (Some gA) roomA pdA)) rndA t1 s
      = Done s1 out1 ∧
    joinGameHandler id (Some (JoinData.Build (Some gB) roomB pdB)) rndB t2 s1
      = Done s2 out2 ∧
    Player.roomId <$> activePlayers s2 !! id = Some (Some rB) ∧
    snapshotOf s2 gA rA id = Some (joinSnapshot id t1 pdA) ∧
    id ∈ members s2 rA ∧ id ∈ members s2 rB ∧
    disconnectHandler id t3 s2 = Done s3 out3 ∧
    snapshotOf s3 gB rB id = None ∧
    snapshotOf s3 gA rA id = Some (joinSnapshot id t1 pdA) ∧
    ¬ live s3 id.
Proof.
  intros Hp [rs Hrs] Hne HrB HgB HigA HirA HigB HirB. cbv zeta.
  set (rA := chooseRoomId roomA rndA) in *.
  set (rB := chooseRoomId roomB rndB) in *.
  destruct (joinGameHandler_joins id gA roomA pdA rndA t1 s p Hp)
    as (s1 & out1 & Hj1 & Hd1); [by apply findForJoin_plain|].
  destruct (joinGame_record id gA roomA pdA rndA t1 s s1 out1 Hj1)
    as (p0 & Hp0 & Hap1).
  assert (activePlayers s1 !! id = Some (Player.setMembership rA gA p0)) as Hsome1
    by (rewrite Hap1; apply lookup_insert_eq).
  destruct (joinGameHandler_joins id gB roomB pdB rndB t2 s1 _ Hsome1)
    as (s2 & out2 & Hj2 & Hd2); [by apply findForJoin_plain|].
  destruct (joinGame_record id gB roomB pdB rndB t2 s1 s2 out2 Hj2)
    as (p1 & Hp1 & Hap2).
  fold rA in Hap1. fold rB in Hap2.
  pose proof (tracked_joinGame id gA roomA pdA rndA t1 s s1 out1 Hj1) as Htr1.
  fold rA in Htr1.
  pose proof (joinGame_lookupRoom id gB roomB pdB rndB t2 s1 s2 out2 Hj2) as Hl2.
  fold rB in Hl2.
  assert (snapshotOf s2 gA rA id = Some (joinSnapshot id t1 pdA)) as HsnapA.
  { unfold snapshotOf. rewrite Hl2, decide_False by (intros [-> Heq]; congruence).
    fold (snapshotOf s1 gA rA id). rewrite snapshotOf_tracked, Htr1.
    apply lookup_insert_eq. }
  assert (sids s1 !! id = Some (rs ∪ {[rA]})) as Hsid1.
  { rewrite (joinGame_sids id gA roomA pdA rndA t1 s s1 out1 Hj1).
    by rewrite lookup_alter_eq, Hrs. }
  assert (sids s2 !! id = Some (rs ∪ {[rA]} ∪ {[rB]})) as Hsid2.
  { rewrite (joinGame_sids id gB roomB pdB rndB t2 s1 s2 out2 Hj2).
    by rewrite lookup_alter_eq, Hsid1. }
  set (roomB' := Room.setPlayers
                   (<[id := joinSnapshot id t2 pdB]>
                      (Room.players (openRoom s1 gB rB t2)))
                   (openRoom s1 gB rB t2)).
  assert (lookupRoom s2 gB rB = Some roomB') as HroomB
    by (rewrite Hl2; by rewrite decide_True).
  assert (held s2 id gB rB roomB') as Hh.
  { exists (Player.setMembership rB gB p1). rewrite Hap2, lookup_insert_eq. done. }
  destruct (lookupRoom_disconnect_held s2 id t3 gB rB roomB' Hh) as [HB Hother].
  exists s1, out1, s2, out2, (disconnect id t3 s2).1, (disconnect id t3 s2).2.
  split; [done|]. split; [done|].
  split; [by rewrite Hap2, lookup_insert_eq|]. split; [done|].
  split; [apply elem_of_members; eexists; split; [done|set_solver]|].
  split; [apply elem_of_members; eexists; split; [done|set_solver]|].
  split; [by apply (disconnectHandler_held id t3 s2 gB rB roomB')|].
  split; [|split].
  - unfold snapshotOf. rewrite HB. case_decide; simpl; [done|].
    apply lookup_delete_eq.
  - unfold snapshotOf. rewrite Hother by done. exact HsnapA.
  - rewrite live_disconnect. by intros [_ ?].
Qed.

Lemma second_join_leaves_ghost_witness :
  let s := connection "d" 16 lobby in
  let p := Player.Build "d" None None 16 16 in
  activePlayers s !! "d" = Some p ∧ live s "d" ∧
  ("demo", chooseRoomId (Some "4FZYO8") "")
    ≠ ("demo", chooseRoomId (Some "LOBBY2") "") ∧
  chooseRoomId (Some "LOBBY2") "" ≠ "" ∧ "demo" ≠ "" ∧
  inherited "demo" = false ∧
  inherited (chooseRoomId (Some "4FZYO8") "") = false ∧
  inherited (chooseRoomId (Some "LOBBY2") "") = false ∧
  ∃ s1 out1 s2 out2 s3 out3,
    joinGameHandler "d" (Some (JoinData.Build (Some "demo") (Some "4FZYO8") ∅))
                    "" 17 s = Done s1 out1 ∧
    joinGameHandler "d" (Some (JoinData.Build (Some "demo") (Some "LOBBY2") ∅))
                    "" 18 s1 = Done s2 out2 ∧
    disconnectHandler "d" 19 s2 = Done s3 out3 ∧
    is_Some (snapshotOf s3 "demo" "4FZYO8" "d") ∧
    ¬ live s3 "d".
Proof.
  intros s p.
  assert (activePlayers s !! "d" = Some p) as Hp by (vm_compute; reflexivity).
  assert (live s "d") as Hl by (vm_compute; eauto).
  assert (("demo", chooseRoomId (Some "4FZYO8") "")
            ≠ ("demo", chooseRoomId (Some "LOBBY2") "")) as Hne by discriminate.
  assert (chooseRoomId (Some "LOBBY2") "" ≠ "") as Hr by discriminate.
  assert ("demo" ≠ "") as Hg by discriminate.
  split; [exact Hp|]. split; [exact Hl|]. split; [exact Hne|].
  split; [exact Hr|]. split; [exact Hg|].
  split; [reflexivity|]. split; [reflexivity|]. split; [reflexivity|].
  destruct (second_join_leaves_ghost s "d" "demo" "demo" (Some "4FZYO8")
              (Some "LOBBY2") ∅ ∅ "" "" 17 18 19 p Hp Hl Hne Hr Hg
              eq_refl eq_refl eq_refl eq_refl)
    as (s1 & out1 & s2 & out2 & s3 & out3 & Hj1 & Hj2 & _ & _ & _ & _
        & Hclose & _ & Hghost & Hdead).
  exists s1, out1, s2, out2, s3, out3. split; [exact Hj1|]. split; [exact Hj2|].
  split; [exact Hclose|]. split; [|exact Hdead]. eexists. exact Hghost.
Defined.

(** * State updates *)

Lemma lookupRoom_recordState_eq id g r st now s g' r' :
  lookupRoom (recordState id g r st now s) g' r' =
  if decide (g = g' ∧ r = r') then
    room ← lookupRoom s g r;
    Some (Room.Build (Room.roomId room) (Room.gameId room)
            (match Room.players room !! id with
             | Some snap => <[id := mergeState now st snap]> (Room.players room)
             | None => Room.players room
             end)
            (Room.createdAt room) now)
  else lookupRoom s g' r'.
Proof.
  unfold recordState. destruct (lookupRoom s g r) as [room|] eqn:Hroom.
  - rewrite lookupRoom_setRoom. case_decide; [|done]. simpl.
    by destruct (Room.players room !! id).
  - case_decide as Heq; [|done]. by destruct Heq as [<- <-].
Qed.

(** X13.  A state update with a payload naming the room [r], from a
    connection with a recorded room, looks [r] up under the game of the
    sender's record.  Where the lookup stays in the directory the
    handler returns and the sender's record is stamped with the time of
    the update: if the room is there it is stamped too, whether or not
    it tracks the sender; the sender's snapshot is merged only if the
    room tracks it, and a player is never added; if it is not there
    nothing is created and the directory is unchanged.  Where [r] names
    a member inherited from [Object.prototype] in the sender's category,
    the handler throws. *)
Theorem stateUpdate_stamps (s : State) (id r : string) (st : Attrs) (now : Z)
    (p : Player.t) :
  activePlayers s !! id = Some p → truthy (Player.roomId p) = true →
  let g := key_of (Player.gameId p) in
  let update :=
    stateUpdateHandler id (Some (UpdateData.Build (Some r) st)) now s in
  (find s g r = FoundMember → update = Throws) ∧
  (strays (find s g r) = false →
   ∃ s' out,
     update = Done s' out ∧
     activePlayers s' !! id = Some (Player.touch now p) ∧
     (∀ room, lookupRoom s g r = Some room →
        ∃ room', lookupRoom s' g r = Some room' ∧
          Room.lastActivity room' = now ∧
          Room.createdAt room' = Room.createdAt room ∧
          dom (Room.players room') = dom (Room.players room) ∧
          (Room.players room !! id = None →
           Room.players room' = Room.players room)) ∧
     (lookupRoom s g r = None → gameRooms s' = gameRooms s)).
Proof.
  intros Hp Ht. cbv zeta. set (g := key_of (Player.gameId p)).
  split; [by apply stateUpdateHandler_member_Throws|]. intros Hf.
  exists (stateUpdate id r st now s).1, (stateUpdate id r st now s).2.
  split; [by apply (stateUpdateHandler_plain id r st now s p)|].
  split; [|split].
  - rewrite activePlayers_stateUpdate, Hp, Ht. apply lookup_insert_eq.
  - intros room Hroom. unfold stateUpdate. simpl. rewrite Hp, Ht. simpl.
    rewrite lookupRoom_stats, lookupRoom_recordState_eq.
    rewrite decide_True by done. fold g.
    change (lookupRoom (setActivePlayers ?a (setStats ?b s)) g r)
      with (lookupRoom s g r).
    rewrite Hroom. simpl. eexists. split; [done|]. simpl.
    split; [done|]. split; [done|].
    destruct (Room.players room !! id) as [snap|] eqn:Hsnap; [|done].
    split; [|done]. rewrite dom_insert_L. apply elem_of_dom_2 in Hsnap.
    set_solver.
  - intros Hnone. by apply (stateUpdate_missing_room s id r p st now).
Qed.

Lemma stateUpdate_stamps_witness :
  let p := Player.Build "c" (Some "LOBBY2") (Some "demo") 12 12 in
  activePlayers lobby !! "c" = Some p ∧ truthy (Player.roomId p) = true ∧
  strays (find lobby "demo" "4FZYO8") = false ∧
  find lobby "demo" "valueOf" = FoundMember ∧
  stateUpdateHandler "c" (Some (UpdateData.Build (Some "valueOf") ∅)) 900 lobby
    = Throws ∧
  ∃ s' out,
    stateUpdateHandler "c" (Some (UpdateData.Build (Some "4FZYO8") ∅)) 900 lobby
      = Done s' out ∧
    Room.lastActivity <$> lookupRoom s' "demo" "4FZYO8" = Some 900 ∧
    snapshotOf s' "demo" "4FZYO8" "c" = None.
Proof.
  intros p.
  assert (activePlayers lobby !! "c" = Some p) as Hp by (vm_compute; reflexivity).
  assert (truthy (Player.roomId p) = true) as Ht by reflexivity.
  assert (strays (find lobby "demo" "4FZYO8") = false) as Hf
    by (vm_compute; reflexivity).
  assert (find lobby "demo" "valueOf" = FoundMember) as Hm
    by (vm_compute; reflexivity).
  split; [exact Hp|]. split; [exact Ht|]. split; [exact Hf|]. split; [exact Hm|].
  split.
  { destruct (stateUpdate_stamps lobby "c" "valueOf" ∅ 900 p Hp Ht)
      as (Hthrows & _). exact (Hthrows Hm). }
  destruct (stateUpdate_stamps lobby "c" "4FZYO8" ∅ 900 p Hp Ht)
    as (_ & Hdone).
  destruct (Hdone Hf) as (s' & out & Hupd & _ & Hroom & _).
  exists s', out. split; [exact Hupd|].
  destruct (lookupRoom lobby "demo" "4FZYO8") as [room|] eqn:Hl;
    [|vm_compute in Hl; discriminate Hl].
  destruct (Hroom room Hl) as (room' & Hl' & Hstamp & _ & Hdom & _).
  simpl in Hl'. split.
  - etrans; [exact (f_equal (fmap Room.lastActivity) Hl')|].
    simpl. f_equal. exact Hstamp.
  - unfold snapshotOf. etrans; [exact (f_equal (λ o, o ≫= _) Hl')|]. simpl.
    apply not_elem_of_dom. rewrite Hdom. apply not_elem_of_dom.
    vm_compute in Hl. injection Hl as <-. vm_compute. reflexivity.
Defined.

(** X14.  A state update that returns has written nothing but the
    sender's record, the one room it names under the sender's game, and
    in that room the sender's own snapshot: every other record, every
    other room and the snapshot of every other player are unchanged, no
    room or category has appeared or disappeared, and the order of the
    records and the broadcast groups are unchanged. *)
Theorem stateUpdate_frame (s : State) (id r : string) (st : Attrs) (now : Z)
    (s' : State) (out : list Delivery) :
  stateUpdateHandler id (Some (UpdateData.Build (Some r) st)) now s
    = Done s' out →
  (∀ i, i ≠ id → activePlayers s' !! i = activePlayers s !! i) ∧
  (∀ g' r' i, i ≠ id → snapshotOf s' g' r' i = snapshotOf s g' r' i) ∧
  (∀ g' r', is_Some (lookupRoom s' g' r') ↔ is_Some (lookupRoom s g' r')) ∧
  (∀ g' r' p, activePlayers s !! id = Some p →
              (g', r') ≠ (key_of (Player.gameId p), r) →
              lookupRoom s' g' r' = lookupRoom s g' r') ∧
  arrival s' = arrival s ∧
  sids s' = sids s.
Proof.
  intros Hdone%stateUpdateHandler_Done_named.
  assert (s' = (stateUpdate id r st now s).1) as -> by (by rewrite Hdone).
  clear Hdone.
  assert (∀ g' r',
    lookupRoom (stateUpdate id r st now s).1 g' r' = lookupRoom s g' r' ∨
    ∃ p, activePlayers s !! id = Some p ∧
         (key_of (Player.gameId p), r) = (g', r') ∧
         lookupRoom (stateUpdate id r st now s).1 g' r' =
           (room ← lookupRoom s g' r';
            Some (Room.Build (Room.roomId room) (Room.gameId room)
                    (match Room.players room !! id with
                     | Some snap =>
                         <[id := mergeState now st snap]> (Room.players room)
                     | None => Room.players room
                     end)
                    (Room.createdAt room) now))) as Hcases.
  { intros g' r'. unfold stateUpdate. simpl.
    destruct (activePlayers s !! id) as [p|] eqn:Hp; [|by left].
    destruct (truthy (Player.roomId p)); [|by left]. simpl.
    rewrite lookupRoom_stats, lookupRoom_recordState_eq.
    case_decide as Heq; [|by left]. destruct Heq as [<- <-].
    right. exists p. split; [done|]. split; [done|]. done. }
  split; [|split; [|split; [|split; [|split]]]].
  - intros i Hne. rewrite activePlayers_stateUpdate.
    destruct (activePlayers s !! id) as [p|]; [|done].
    destruct (truthy (Player.roomId p)); [|done]. by rewrite lookup_insert_ne.
  - intros g' r' i Hne. unfold snapshotOf.
    destruct (Hcases g' r') as [->|(p & _ & _ & ->)]; [done|].
    destruct (lookupRoom s g' r') as [room|]; simpl; [|done].
    destruct (Room.players room !! id); [|done]. by rewrite lookup_insert_ne.
  - intros g' r'. destruct (Hcases g' r') as [->|(p & _ & _ & ->)]; [done|].
    destruct (lookupRoom s g' r'); simpl; split; eauto; by intros [? ?].
  - intros g' r' p Hp Hne.
    destruct (Hcases g' r') as [->|(p' & Hp' & Heq & _)]; [done|].
    congruence.
  - apply arrival_stateUpdate.
  - unfold stateUpdate. simpl. destruct (activePlayers s !! id) as [p|]; [|done].
    destruct (truthy (Player.roomId p)); [|done]. simpl.
    by rewrite sids_recordState.
Qed.

Lemma stateUpdate_frame_witness :
  ∃ s' out,
    stateUpdateHandler "a"
      (Some (UpdateData.Build (Some "4FZYO8") {["x" := JNum 2]})) 20 lobby
      = Done s' out ∧
    snapshotOf s' "demo" "4FZYO8" "b" = Some (joinSnapshot "b" 14 ∅) ∧
    lookupRoom s' "demo" "LOBBY2" = lookupRoom lobby "demo" "LOBBY2" ∧
    arrival s' = ["a"; "b"; "c"].
Proof.
  assert (∃ s' out,
            stateUpdateHandler "a"
              (Some (UpdateData.Build (Some "4FZYO8") {["x" := JNum 2]})) 20 lobby
            = Done s' out) as (s' & out & Hupd).
  { eexists _, _.
    apply (stateUpdateHandler_plain "a" "4FZYO8" {["x" := JNum 2]} 20 lobby
             (Player.Build "a" (Some "4FZYO8") (Some "demo") 10 10));
      vm_compute; reflexivity. }
  destruct (stateUpdate_frame lobby "a" "4FZYO8" {["x" := JNum 2]} 20 s' out Hupd)
    as (_ & Hsnap & _ & Hother & Harr & _).
  exists s', out. split; [exact Hupd|]. split; [|split].
  - rewrite Hsnap by discriminate. vm_compute. reflexivity.
  - apply (Hother "demo" "LOBBY2"
             (Player.Build "a" (Some "4FZYO8") (Some "demo") 10 10));
      [vm_compute; reflexivity|discriminate].
  - rewrite Harr. vm_compute. reflexivity.
Defined.

(** * The shape of a generated room id *)

(** X15.  Whatever the runtime renders, the generated room id has at
    most six characters: as many as the rendering has after its second
    character, up to six.  On a rendering of the form "0." followed by
    digits of base 36 it is made of digits and capital letters only,
    and has six of them when there are at least six digits. *)
Theorem generateRoomId_shape (r ds : string) :
  string_forall is_base36_lower ds = true →
  String.length (generateRoomId r) = Nat.min 6 (String.length r - 2) ∧
  (String.length (generateRoomId r) ≤ 6)%nat ∧
  string_forall is_base36_upper (generateRoomId ("0." +:+ ds)) = true ∧
  String.length (generateRoomId ("0." +:+ ds)) = Nat.min 6 (String.length ds).
Proof.
  intros Hds. pose proof (generateRoomId_length r) as Hlen.
  split; [done|]. split; [lia|]. split.
  - unfold generateRoomId, js_substring. simpl.
    by apply toUpperCase_base36, string_forall_substring0.
  - rewrite generateRoomId_length.
    change (String.length ("0." +:+ ds)) with (S (S (String.length ds))).
    f_equal. lia.
Qed.

Lemma generateRoomId_shape_witness :
  string_forall is_base36_lower "4fzyo82mvyr" = true ∧
  generateRoomId "0.4fzyo82mvyr" = "4FZYO8" ∧
  string_forall is_base36_upper (generateRoomId ("0." +:+ "4fzyo82mvyr")) = true ∧
  String.length (generateRoomId ("0." +:+ "4fzyo82mvyr")) = 6%nat.
Proof.
  assert (string_forall is_base36_lower "4fzyo82mvyr" = true) as Hds
    by reflexivity.
  split; [exact Hds|]. split; [reflexivity|].
  destruct (generateRoomId_shape "0.4fzyo82mvyr" "4fzyo82mvyr" Hds)
    as (_ & _ & Hup & Hlen).
  split; [exact Hup|exact Hlen].
Defined.


(** * The client library *)

Lemma triggerEvent_own name data c cbs :
  Client.eventListeners c !! name = Some cbs →
  triggerEvent name data c = (λ cb, Invoke cb data) <$> cbs.
Proof. unfold triggerEvent. by intros ->. Qed.

Lemma triggerEvent_none name data c :
  Client.eventListeners c !! name = None →
  triggerEvent name data c = if inherited name then [Raise] else [].
Proof. unfold triggerEvent. by intros ->. Qed.

Lemma on_own name cb c cbs :
  Client.eventListeners c !! name = Some cbs →
  on name cb c =
  Some (Client.setListeners (<[name := cbs ++ [cb]]> (Client.eventListeners c)) c).
Proof. unfold on. by intros ->. Qed.

Lemma on_none name cb c :
  Client.eventListeners c !! name = None → inherited name = false →
  on name cb c =
  Some (Client.setListeners (<[name := [cb]]> (Client.eventListeners c)) c).
Proof. unfold on. by intros -> ->. Qed.

Lemma onEach_cons name cb cbs c c1 :
  on name cb c = Some c1 → onEach name (cb :: cbs) c = onEach name cbs c1.
Proof. unfold onEach. cbn [foldl]. simpl. by intros ->. Qed.

Lemma onEach_own name cbs : ∀ c old,
  Client.eventListeners c !! name = Some old →
  onEach name cbs c =
  Some (Client.setListeners
          (<[name := old ++ cbs]> (Client.eventListeners c)) c).
Proof.
  induction cbs as [|cb cbs IH]; intros c old Hold.
  - unfold onEach. simpl. rewrite app_nil_r, insert_id by done. by destruct c.
  - rewrite (onEach_cons name cb cbs c _ (on_own name cb c old Hold)).
    rewrite (IH _ (old ++ [cb])) by (simpl; apply lookup_insert_eq).
    simpl. by rewrite insert_insert_eq, <- app_assoc.
Qed.

(** X16.  Listeners registered with [on] under a name that the client
    already listens to, or that names no member inherited from
    [Object.prototype], are called by [triggerEvent] in the order of
    their registration, after those registered before, once per
    registration and each with the data of the event; registering under
    one name changes nothing for another name nor the rest of the
    client; an event nobody listens to calls nothing.  Under a name
    inherited from [Object.prototype] that has no listener, [on] throws
    and so does [triggerEvent]. *)
Theorem listeners_called_in_order (c : Client.t) (name : string)
    (cbs : list nat) (data : Payload) :
  (Client.eventListeners c !! name = None → inherited name = true →
   (∀ cb, on name cb c = None) ∧ triggerEvent name data c = [Raise]) ∧
  (is_Some (Client.eventListeners c !! name) ∨ inherited name = false →
   ∃ c',
     onEach name cbs c = Some c' ∧
     triggerEvent name data c'
       = triggerEvent name data c ++ ((λ cb, Invoke cb data) <$> cbs) ∧
     (∀ other, other ≠ name →
               triggerEvent other data c' = triggerEvent other data c) ∧
     Client.players c' = Client.players c ∧
     Client.roomId c' = Client.roomId c ∧
     Client.lastSentState c' = Client.lastSentState c ∧
     (Client.eventListeners c !! name = None → triggerEvent name data c = [])).
Proof.
  split.
  - intros Hnone Hin. split; [|by rewrite triggerEvent_none, Hin].
    intros cb. unfold on. by rewrite Hnone, Hin.
  - intros Hok.
    assert (Client.eventListeners c !! name = None → inherited name = false)
      as Hplain.
    { intros Hnone. destruct Hok as [[? Hsome]|?]; [congruence|done]. }
    destruct cbs as [|cb cbs].
    { exists c. simpl. rewrite app_nil_r. repeat split; try done.
      intros Hnone. by rewrite triggerEvent_none, Hplain. }
    destruct (Client.eventListeners c !! name) as [old|] eqn:Hold.
    + exists (Client.setListeners
                (<[name := old ++ cb :: cbs]> (Client.eventListeners c)) c).
      split; [by apply onEach_own|].
      split; [|split; [|done]].
      * rewrite (triggerEvent_own name data c old Hold).
        rewrite (triggerEvent_own name data _ (old ++ cb :: cbs))
          by (simpl; apply lookup_insert_eq).
        by rewrite fmap_app.
      * intros other Hne. unfold triggerEvent. simpl.
        by rewrite lookup_insert_ne.
    + specialize (Hplain eq_refl).
      exists (Client.setListeners
                (<[name := cb :: cbs]> (Client.eventListeners c)) c).
      split; [|split; [|split; [|split; [done|split; [done|split; [done|]]]]]].
      * rewrite (onEach_cons name cb cbs c _ (on_none name cb c Hold Hplain)).
        rewrite (onEach_own name cbs _ [cb]) by (simpl; apply lookup_insert_eq).
        simpl. by rewrite insert_insert_eq.
      * rewrite (triggerEvent_none name data c Hold), Hplain.
        by rewrite (triggerEvent_own name data _ (cb :: cbs))
          by (simpl; apply lookup_insert_eq).
      * intros other Hne. unfold triggerEvent. simpl.
        by rewrite lookup_insert_ne.
      * intros _. by rewrite triggerEvent_none, Hplain.
Qed.

Lemma listeners_called_in_order_witness :
  let c := newClient (Some "demo") None in
  inherited "playerLeft" = false ∧
  inherited "constructor" = true ∧
  on "constructor" 3 c = None ∧
  triggerEvent "constructor" NoPayload c = [Raise] ∧
  ∃ c', onEach "playerLeft" [7; 8]%nat c = Some c' ∧
        triggerEvent "playerLeft" NoPayload c'
          = [Invoke 7 NoPayload; Invoke 8 NoPayload].
Proof.
  intros c.
  destruct (listeners_called_in_order c "constructor" [] NoPayload)
    as ((Hon & Htrig) & _); [reflexivity..|].
  destruct (listeners_called_in_order c "playerLeft" [7; 8]%nat NoPayload)
    as (_ & Hreg).
  destruct Hreg as (c' & Hc' & Hcalled & _); [by right|].
  split; [reflexivity|]. split; [reflexivity|].
  split; [exact (Hon 3%nat)|]. split; [exact Htrig|].
  exists c'. split; [exact Hc'|exact Hcalled].
Defined.

(** X17.  A game event leaves the client as it was and calls the
    listeners of ["gameEvent"], in the order of their registration, and
    then the listeners registered under its event type, all with the
    event as data, and nothing else.  So a listener registered under any
    name, the names of the built-in events included, is called by a game
    event of that type, and a game event whose type is ["gameEvent"]
    calls every listener of that name twice.  Where nothing is
    registered under the event type, nothing more is called, unless the
    type names a member inherited from [Object.prototype]: then the
    handler throws after the listeners of ["gameEvent"] have run. *)
Theorem gameEvent_calls_listeners (c : Client.t) (id ty : string) (d : jsval)
    (ts : Z) :
  let m := GameEventMsg id ty d ts in
  let call := λ cb, Invoke cb (FromServer m) in
  let first := call <$> default [] (Client.eventListeners c !! "gameEvent") in
  (onMessage m c).1 = c ∧
  (∀ cbs, Client.eventListeners c !! ty = Some cbs →
          (onMessage m c).2 = first ++ (call <$> cbs)) ∧
  (Client.eventListeners c !! ty = None → inherited ty = false →
   (onMessage m c).2 = first) ∧
  (Client.eventListeners c !! ty = None → inherited ty = true →
   (onMessage m c).2 = first ++ [Raise]).
Proof.
  cbv zeta. simpl.
  assert (triggerEvent "gameEvent" (FromServer (GameEventMsg id ty d ts)) c
          = (λ cb, Invoke cb (FromServer (GameEventMsg id ty d ts)))
              <$> default [] (Client.eventListeners c !! "gameEvent")) as ->.
  { unfold triggerEvent.
    by destruct (Client.eventListeners c !! "gameEvent"). }
  split; [done|]. split; [|split].
  - intros cbs Hcbs. by rewrite (triggerEvent_own ty _ c cbs Hcbs).
  - intros Hnone Hin. by rewrite (triggerEvent_none ty _ c Hnone), Hin, app_nil_r.
  - intros Hnone Hin. by rewrite (triggerEvent_none ty _ c Hnone), Hin.
Qed.

Lemma gameEvent_calls_listeners_witness :
  let c := default (newClient (Some "demo") None)
             (on "gameEvent" 1 (newClient (Some "demo") None)
                ≫= on "playerLeft" 7) in
  let m := GameEventMsg "a" "playerLeft" JNull 5 in
  let n := GameEventMsg "a" "toString" JNull 5 in
  Client.eventListeners c !! "playerLeft" = Some [7%nat] ∧
  (onMessage m c).2 = [Invoke 1 (FromServer m); Invoke 7 (FromServer m)] ∧
  Client.eventListeners c !! "toString" = None ∧ inherited "toString" = true ∧
  (onMessage n c).2 = [Invoke 1 (FromServer n); Raise].
Proof.
  intros c m n.
  assert (Client.eventListeners c !! "playerLeft" = Some [7%nat]) as Hcbs
    by (vm_compute; reflexivity).
  assert (Client.eventListeners c !! "toString" = None) as Hnone
    by (vm_compute; reflexivity).
  split; [exact Hcbs|].
  destruct (gameEvent_calls_listeners c "a" "playerLeft" JNull 5)
    as (_ & Hcall & _).
  destruct (gameEvent_calls_listeners c "a" "toString" JNull 5)
    as (_ & _ & _ & Hraise).
  split; [exact (Hcall [7%nat] Hcbs)|]. split; [exact Hnone|].
  split; [reflexivity|]. exact (Hraise Hnone eq_refl).
Defined.

(** X21.  [sendUpdate] sends nothing while the client is not connected,
    and nothing when the sampled state renders like the state last sent.
    When it sends, it sends that state to the client's current room and
    remembers it, so sampling the same state again sends nothing. *)
Theorem sendUpdate_suppresses (stringify : JsObject → string)
    (st : JsObject) (c : Client.t) :
  let first := sendUpdate stringify st c in
  (Client.connected c = false → first = (c, [])) ∧
  (stringify st = stringify (Client.lastSentState c) → first = (c, [])) ∧
  (first.2 = [] ∨
   first.2 = [Emit (CStateUpdate (Client.roomId c) st)] ∧
   Client.lastSentState first.1 = st) ∧
  sendUpdate stringify st first.1 = (first.1, []).
Proof.
  cbv zeta. unfold sendUpdate, hasStateChanged.
  destruct (Client.connected c) eqn:Hconn; simpl.
  - destruct (String.eqb_spec (stringify st) (stringify (Client.lastSentState c)))
      as [Heq|Hne]; simpl.
    + rewrite Hconn. simpl. rewrite Heq, String.eqb_refl. simpl.
      repeat split; try done. by left.
    + rewrite Hconn. simpl. rewrite String.eqb_refl. simpl.
      repeat split; try done. right. done.
  - rewrite Hconn. simpl. repeat split; try done. by left.
Qed.

(** * The client's view of the room *)

Lemma others_insert id snap (ps : gmap string Attrs) :
  filter (λ kv : string * Attrs, kv.1 ≠ id) (map_to_list (<[id := snap]> ps))
  ≡ₚ map_to_list (delete id ps).
Proof.
  rewrite <- insert_delete_eq.
  rewrite map_to_list_insert by apply lookup_delete_eq.
  rewrite filter_cons_False by (simpl; tauto).
  rewrite filter_all; [done|].
  apply Forall_forall. intros [i x] [Hne _]%elem_of_map_to_list%lookup_delete_Some.
  simpl. congruence.
Qed.

Lemma inbox_app id out1 out2 : inbox id (out1 ++ out2) = inbox id out1 ++ inbox id out2.
Proof. unfold inbox. by rewrite filter_app, fmap_app. Qed.

Lemma inbox_emitOthers s id r m : inbox id (emitOthers s id r m) = [].
Proof.
  unfold inbox. rewrite filter_none; [done|]. apply Forall_forall.
  intros [to m'] (_ & _ & Hne)%elem_of_emitOthers. done.
Qed.

Lemma inbox_backfill id ps :
  inbox id (backfill id ps) =
  (λ kv : string * Attrs, PlayerJoined kv.1 kv.2)
    <$> filter (λ kv : string * Attrs, kv.1 ≠ id) (map_to_list ps).
Proof.
  unfold inbox, backfill. rewrite filter_all.
  - rewrite <- list_fmap_compose. done.
  - apply Forall_forall. by intros d (kv & -> & _)%list_elem_of_fmap.
Qed.

Lemma receiveAll_cons m ms c :
  receiveAll (m :: ms) c = receiveAll ms (onMessage m c).1.
Proof. done. Qed.

Lemma receiveAll_joined (l : list (string * Attrs)) : ∀ c,
  Client.players
    (receiveAll ((λ kv : string * Attrs, PlayerJoined kv.1 kv.2) <$> l) c)
  = list_to_map (reverse l) ∪ Client.players c ∧
  Client.roomId
    (receiveAll ((λ kv : string * Attrs, PlayerJoined kv.1 kv.2) <$> l) c)
  = Client.roomId c.
Proof.
  induction l as [|[i x] l IH]; intros c.
  - simpl. by rewrite (left_id ∅ _).
  - rewrite fmap_cons, receiveAll_cons.
    destruct (IH (onMessage (PlayerJoined (i, x).1 (i, x).2) c).1) as [-> ->].
    split; [|done]. simpl. rewrite reverse_cons, list_to_map_app. simpl.
    rewrite <- (assoc_L (∪)). f_equal.
    by rewrite <- insert_union_l, (left_id_L ∅ _).
Qed.

(** X18.  A client that handles, in order, what a join that returned
    sent to it ends up with the room id the server chose, generated ones
    included, and with a view of the players that holds every player the
    room tracked before the join other than itself, each under its
    stored snapshot, over what the view held before.  Starting from an
    empty view, the view is exactly those players and the player count
    it reports is the one of the server's acknowledgement. *)
Theorem joiner_view (s : State) (id g : string) (roomId : option string)
    (pd : Attrs) (rnd : string) (now : Z) (s' : State) (out : list Delivery)
    (c : Client.t) :
  joinGameHandler id (Some (JoinData.Build (Some g) roomId pd)) rnd now s
    = Done s' out →
  let t := chooseRoomId roomId rnd in
  let c' := receiveAll (inbox id out) c in
  head (inbox id out) = Some (RoomJoined t g id (size (tracked s' g t))) ∧
  Client.roomId c' = Some t ∧
  Client.players c' = delete id (tracked s g t) ∪ Client.players c ∧
  (Client.players c = ∅ →
   Client.players c' = delete id (tracked s g t) ∧
   (getRoomInfo c').1.2 = size (tracked s' g t)).
Proof.
  intros (g0 & roomId0 & pd0 & [= <- <- <-] & _ & Hjoin)%joinGameHandler_Done.
  cbv zeta. set (t := chooseRoomId roomId rnd).
  pose proof (joinGame_out id g roomId pd rnd now s s' out Hjoin) as Hout.
  fold t in Hout. rewrite openRoom_tracked in Hout.
  set (ps := <[id := joinSnapshot id now pd]> (tracked s g t)) in Hout.
  assert (inbox id out =
          RoomJoined t g id (size ps)
          :: ((λ kv : string * Attrs, PlayerJoined kv.1 kv.2)
                <$> filter (λ kv : string * Attrs, kv.1 ≠ id) (map_to_list ps)))
    as Hin.
  { rewrite Hout, !inbox_app, inbox_emitOthers, inbox_backfill.
    unfold inbox at 1. by rewrite filter_cons_True by done. }
  pose proof (tracked_joinGame id g roomId pd rnd now s s' out Hjoin) as Htr.
  fold t in Htr. fold ps in Htr.
  rewrite Hin, receiveAll_cons. split; [simpl; by rewrite Htr|].
  set (l := filter (λ kv : string * Attrs, kv.1 ≠ id) (map_to_list ps)).
  destruct (receiveAll_joined l
              (onMessage (RoomJoined t g id (size ps)) c).1) as [Hpl Hroom].
  assert (list_to_map (reverse l) = delete id (tracked s g t)) as Hmap.
  { pose proof (others_insert id (joinSnapshot id now pd) (tracked s g t))
      as Hperm. fold ps in Hperm. fold l in Hperm.
    rewrite <- (list_to_map_to_list (delete id (tracked s g t))).
    apply list_to_map_proper.
    - rewrite reverse_Permutation, Hperm. apply NoDup_fst_map_to_list.
    - by rewrite reverse_Permutation. }
  rewrite Hmap in Hpl. simpl in Hpl, Hroom.
  split; [done|]. split; [done|]. intros Hempty.
  rewrite Hempty, (right_id_L ∅ _) in Hpl. split; [done|].
  unfold getRoomInfo. simpl. rewrite Hpl, Htr. subst ps.
  rewrite <- (insert_delete_eq (tracked s g t)).
  by rewrite map_size_insert_None by apply lookup_delete_eq.
Qed.

Lemma joiner_view_witness :
  let s := connection "d" 16 lobby in
  let c := (onConnect "d" ∅ (newClient (Some "demo") (Some "4FZYO8"))).1 in
  ∃ s' out,
    joinGameHandler "d" (Some (JoinData.Build (Some "demo") (Some "4FZYO8") ∅))
                    "" 17 s = Done s' out ∧
    Client.roomId (receiveAll (inbox "d" out) c) = Some "4FZYO8" ∧
    dom (Client.players (receiveAll (inbox "d" out) c)) = {["a"; "b"]} ∧
    (getRoomInfo (receiveAll (inbox "d" out) c)).1.2 = 3%nat.
Proof.
  intros s c.
  destruct (joinGameHandler_joins "d" "demo" (Some "4FZYO8") ∅ "" 17 s
              (Player.Build "d" None None 16 16))
    as (s' & out & Hcore & Hjoin); [vm_compute; reflexivity..|].
  destruct (joiner_view s "d" "demo" (Some "4FZYO8") ∅ "" 17 s' out c Hjoin)
    as (_ & Hroom & _ & Hview).
  exists s', out. split; [exact Hjoin|]. split; [exact Hroom|].
  destruct (Hview eq_refl) as [Hpl Hcount]. split.
  - rewrite Hpl. vm_compute. reflexivity.
  - etrans; [exact Hcount|].
    assert (joinGame "d" "demo" (Some "4FZYO8") ∅ "" 17 s
              ≫= (λ r, Some (size (tracked r.1 "demo" "4FZYO8")))
            = Some 3%nat) as Hsize by (vm_compute; reflexivity).
    rewrite Hcore in Hsize. simpl in Hsize. by injection Hsize.
Defined.

(** X19.  A client's view follows the server's snapshot.  When a member
    sends a state update to the room that stores its snapshot and a
    client other than the sender, whose view of the sender agrees with
    that snapshot outside of [lastActivity], handles the broadcast, the
    view and the new snapshot agree again outside of [lastActivity]; the
    render adapter is called with the update, and the client's view of
    every other player is untouched.  A client ignores an update that
    carries its own id. *)
Theorem view_follows_updates (s : State) (a g r : string) (st : Attrs)
    (now : Z) (p : Player.t) (snap : Attrs) (c : Client.t) :
  activePlayers s !! a = Some p → truthy (Player.roomId p) = true →
  Player.gameId p = Some g → snapshotOf s g r a = Some snap →
  agreeBut (default ∅ (Client.players c !! a)) snap →
  let m := StateUpdateMsg a st now in
  (Client.playerId c = Some a → onMessage m c = (c, [])) ∧
  (Client.playerId c ≠ Some a →
   ∃ snap' view',
     snapshotOf (stateUpdate a r st now s).1 g r a = Some snap' ∧
     Client.players (onMessage m c).1 !! a = Some view' ∧
     agreeBut view' snap' ∧
     (∀ k, st !! k = None → view' !! k = default ∅ (Client.players c !! a) !! k) ∧
     (∀ i, i ≠ a →
           Client.players (onMessage m c).1 !! i = Client.players c !! i) ∧
     head (onMessage m c).2 = Some (Render a st)).
Proof.
  intros Hp Ht Hg Hsnap Hagree. cbv zeta. split.
  - intros Hown. simpl. by rewrite decide_True.
  - intros Hother.
    destruct (stateUpdate_snapshot s a g r p snap st now Hp Ht Hg Hsnap)
      as [_ Hsnap'].
    exists (mergeState now st snap), (st ∪ default ∅ (Client.players c !! a)).
    simpl. rewrite decide_False by congruence. simpl.
    split; [done|]. split; [apply lookup_insert_eq|]. split; [|split; [|split]].
    + intros k Hk. rewrite mergeState_lookup, decide_False by done.
      rewrite lookup_union. specialize (Hagree k Hk).
      destruct (st !! k) as [v|]; simpl.
      * by destruct (default ∅ (Client.players c !! a) !! k).
      * rewrite (left_id_L None _). done.
    + intros k Hk. rewrite lookup_union, Hk. by rewrite (left_id_L None _).
    + intros i Hne. by rewrite lookup_insert_ne.
    + done.
Qed.

Lemma view_follows_updates_witness :
  let p := Player.Build "a" (Some "4FZYO8") (Some "demo") 10 10 in
  let snap := joinSnapshot "a" 13 {["x" := JNum 1]} in
  let c := (onMessage (PlayerJoined "a" snap)
              (onConnect "b" ∅ (newClient (Some "demo") (Some "4FZYO8"))).1).1 in
  let m := StateUpdateMsg "a" {["x" := JNum 2]} 20 in
  activePlayers lobby !! "a" = Some p ∧ truthy (Player.roomId p) = true ∧
  Player.gameId p = Some "demo" ∧
  snapshotOf lobby "demo" "4FZYO8" "a" = Some snap ∧
  agreeBut (default ∅ (Client.players c !! "a")) snap ∧
  Client.playerId c ≠ Some "a" ∧
  ∃ snap' view',
    snapshotOf (stateUpdate "a" "4FZYO8" {["x" := JNum 2]} 20 lobby).1
               "demo" "4FZYO8" "a" = Some snap' ∧
    Client.players (onMessage m c).1 !! "a" = Some view' ∧
    agreeBut view' snap'.
Proof.
  intros p snap c m.
  assert (activePlayers lobby !! "a" = Some p) as Hp by (vm_compute; reflexivity).
  assert (truthy (Player.roomId p) = true) as Ht by reflexivity.
  assert (Player.gameId p = Some "demo") as Hg by reflexivity.
  assert (snapshotOf lobby "demo" "4FZYO8" "a" = Some snap) as Hsnap
    by (vm_compute; reflexivity).
  assert (agreeBut (default ∅ (Client.players c !! "a")) snap) as Hagree
    by (intros k _; reflexivity).
  assert (Client.playerId c ≠ Some "a") as Hother by discriminate.
  split; [exact Hp|]. split; [exact Ht|]. split; [exact Hg|].
  split; [exact Hsnap|]. split; [exact Hagree|]. split; [exact Hother|].
  destruct (view_follows_updates lobby "a" "demo" "4FZYO8" {["x" := JNum 2]} 20
              p snap c Hp Ht Hg Hsnap Hagree) as [_ Hview].
  destruct (Hview Hother) as (snap' & view' & Hs & Hv & Ha & _).
  exists snap', view'. split; [exact Hs|]. split; [exact Hv|exact Ha].
Defined.

(** X20.  Whatever a disconnect sends, to whomever, it is the
    [playerLeft] of the leaver: a client that handles it forgets the
    leaver and keeps its view of everyone else, and calls its
    ["playerLeft"] listeners with it. *)
Theorem leaver_forgotten (s : State) (id to : string) (now : Z)
    (m : ServerMsg) (c : Client.t) :
  (to, m) ∈ (disconnect id now s).2 →
  m = PlayerLeft id now ∧ to ≠ id ∧
  Client.players (onMessage m c).1 = delete id (Client.players c) ∧
  Client.roomId (onMessage m c).1 = Client.roomId c ∧
  (onMessage m c).2 = triggerEvent "playerLeft" (FromServer m) c.
Proof.
  rewrite disconnect_unfold. simpl.
  destruct (leaveRoom_cases (closing id s) id now)
    as [->|(g & r & room & cat & Hh & Hcat)].
  - by intros []%elem_of_nil.
  - rewrite (leaveRoom_held (closing id s) id now g r room cat Hh Hcat). simpl.
    intros (-> & _ & Hne)%elem_of_emitOthers. done.
Qed.

Lemma leaver_forgotten_witness :
  let snap := joinSnapshot "a" 13 {["x" := JNum 1]} in
  let c := (onMessage (PlayerJoined "a" snap)
              (onConnect "b" ∅ (newClient (Some "demo") (Some "4FZYO8"))).1).1 in
  ("b", PlayerLeft "a" 50) ∈ (disconnect "a" 50 lobby).2 ∧
  Client.players (onMessage (PlayerLeft "a" 50) c).1 = ∅.
Proof.
  intros snap c.
  assert (("b", PlayerLeft "a" 50) ∈ (disconnect "a" 50 lobby).2) as Hin.
  { assert ((disconnect "a" 50 lobby).2 = [("b", PlayerLeft "a" 50)]) as ->
      by (vm_compute; reflexivity).
    by left. }
  split; [exact Hin|].
  destruct (leaver_forgotten lobby "a" "b" 50 (PlayerLeft "a" 50) c Hin)
    as (_ & _ & Hpl & _).
  etrans; [exact Hpl|]. vm_compute. reflexivity.
Defined.

(** * The counters of the status endpoint *)

(** X22.  The counters count handler runs and calls to [emit], not
    deliveries.  A join that returns has added one to the messages
    received and, to the messages sent, two plus one for each player
    the room tracked before other than the joiner.  A state update or a
    game event that returns has added one to the messages received, and
    one to the messages sent exactly when the sender has a recorded
    room, however many connections the broadcast reaches. *)
Theorem counters_per_message (s : State) (id g : string)
    (roomId : option string) (pd : Attrs) (rnd : string)
    (upd : UpdateData.t) (evt : EventData.t) (now : Z) :
  let sent x := Stats.messagesSent (serverStats x) in
  let received x := Stats.messagesReceived (serverStats x) in
  let one := if hasRoom s id then 1%nat else 0%nat in
  (∀ s' out,
     joinGameHandler id (Some (JoinData.Build (Some g) roomId pd)) rnd now s
       = Done s' out →
     received s' = S (received s) ∧
     sent s' = (sent s + 2
                + size (delete id (tracked s g (chooseRoomId roomId rnd))))%nat) ∧
  (∀ s' out,
     stateUpdateHandler id (Some upd) now s = Done s' out →
     received s' = S (received s) ∧ sent s' = (sent s + one)%nat) ∧
  (∀ s' out,
     gameEventHandler id (Some evt) now s = Done s' out →
     received s' = S (received s) ∧ sent s' = (sent s + one)%nat).
Proof.
  cbv zeta.
  assert (∀ r st,
    Stats.messagesReceived (serverStats (stateUpdate id r st now s).1)
      = S (Stats.messagesReceived (serverStats s)) ∧
    Stats.messagesSent (serverStats (stateUpdate id r st now s).1)
      = (Stats.messagesSent (serverStats s)
         + if hasRoom s id then 1 else 0)%nat) as Hupd.
  { intros r st. unfold hasRoom, stateUpdate. simpl.
    destruct (activePlayers s !! id) as [p|]; simpl; [|split; [done|lia]].
    destruct (truthy (Player.roomId p)); simpl; [|split; [done|lia]].
    assert (∀ x, serverStats (recordState id (key_of (Player.gameId p)) r st now x)
                 = serverStats x) as Hstats
      by (intros x; unfold recordState; by destruct (lookupRoom x _ r)).
    rewrite !Hstats. simpl. split; [done|lia]. }
  assert (∀ r ty d,
    Stats.messagesReceived (serverStats (gameEvent id r ty d now s).1)
      = S (Stats.messagesReceived (serverStats s)) ∧
    Stats.messagesSent (serverStats (gameEvent id r ty d now s).1)
      = (Stats.messagesSent (serverStats s)
         + if hasRoom s id then 1 else 0)%nat) as Hevt.
  { intros r ty d. unfold hasRoom, gameEvent. simpl.
    destruct (activePlayers s !! id) as [p|]; simpl; [|split; [done|lia]].
    destruct (truthy (Player.roomId p)); simpl; split; try done; lia. }
  split; [|split].
  - intros s' out
      (g0 & roomId0 & pd0 & [= <- <- <-] & _ & Hjoin)%joinGameHandler_Done.
    assert (length (backfill id
              (<[id := joinSnapshot id now pd]>
                 (tracked s g (chooseRoomId roomId rnd))))
            = size (delete id (tracked s g (chooseRoomId roomId rnd)))) as Hlen.
    { rewrite backfill_insert, length_fmap. apply length_map_to_list. }
    revert Hjoin. unfold joinGame. simpl.
    destruct (activePlayers s !! id) as [p|]; [|done].
    intros [= <- _]. simpl. rewrite openRoom_tracked, Hlen. split; [done|]. lia.
  - intros s' out (r & st & Heq)%stateUpdateHandler_Done.
    specialize (Hupd r st). by rewrite Heq in Hupd.
  - intros s' out (r & ty & d & Heq)%gameEventHandler_Done.
    specialize (Hevt r ty d). by rewrite Heq in Hevt.
Qed.

Lemma counters_per_message_witness :
  ∃ s' out,
    stateUpdateHandler "c" (Some (UpdateData.Build (Some "LOBBY2") ∅)) 40 lobby
      = Done s' out ∧
    out = [] ∧
    Stats.messagesSent (serverStats s')
      = (Stats.messagesSent (serverStats lobby) + 1)%nat.
Proof.
  assert (∃ s' out,
            stateUpdateHandler "c" (Some (UpdateData.Build (Some "LOBBY2") ∅))
                               40 lobby = Done s' out ∧ out = [])
    as (s' & out & Hupd & Hout).
  { eexists _, _. split.
    - apply (stateUpdateHandler_plain "c" "LOBBY2" ∅ 40 lobby
               (Player.Build "c" (Some "LOBBY2") (Some "demo") 12 12));
        vm_compute; reflexivity.
    - vm_compute. reflexivity. }
  destruct (counters_per_message lobby "c" "demo" None ∅ ""
              (UpdateData.Build (Some "LOBBY2") ∅)
              (EventData.Build (Some "LOBBY2") "hit" JNull) 40)
    as (_ & Hsent & _).
  destruct (Hsent s' out Hupd) as [_ Hone].
  exists s', out. split; [exact Hupd|]. split; [exact Hout|].
  etrans; [exact Hone|]. vm_compute. reflexivity.
Defined.
